(** * base-x: the variable-width unsigned integer [uint_t] and the [BaseX] codec

    A shallow embedding of [uint_t.hh] and [base_x.hh].  Digits are machine
    words of [digit_bits] bits, modelled as [Z] with the wrap-around written
    out; a [uint_t] is the little-endian list of its digits (the window
    [_begin, _end) of the backing vector). *)

From Stdlib Require Import ZArith List Lia Bool.
From Stdlib Require Ascii String.
Import ListNotations.
Local Open Scope Z_scope.

(** ** Word-level primitives (uint_t.hh, lines 294-642) *)

(** The preprocessor configuration that selects the branch of a primitive:
    the digit width, the MSVC intrinsics ([HAVE___UMUL128] and friends, all
    defined together under [_MSC_VER]) and [HAVE____INT128_T]. *)
Record platform := {
  digit_bits : Z;
  msvc_intrinsics : bool;
  have_int128 : bool
}.

(** GCC or Clang on a 64-bit target with the default [DIGIT_T]. *)
Definition gcc64 : platform :=
  {| digit_bits := 64; msvc_intrinsics := false; have_int128 := true |}.

(** No intrinsic and no 128-bit type: the manually split half-digit code. *)
Definition portable64 : platform :=
  {| digit_bits := 64; msvc_intrinsics := false; have_int128 := false |}.

Definition msvc64 : platform :=
  {| digit_bits := 64; msvc_intrinsics := true; have_int128 := false |}.

Definition plain (w : Z) : platform :=
  {| digit_bits := w; msvc_intrinsics := false; have_int128 := false |}.

(** Conversion to an unsigned type of [w] bits. *)
Definition wrap (w x : Z) : Z := x mod 2 ^ w.

(** [_umul128(x, y, &h)] and its narrower versions: the full product, low
    word returned and high word stored. *)
Definition umul (w x y : Z) : Z * Z := ((x * y) / 2 ^ w, wrap w (x * y)).

(** [_addcarry_u64(c_in, a, b, &out)]: the carry-in is an [unsigned char]
    used as a flag; returns the carry-out and stores the sum. *)
Definition addcarry_intrinsic (w c_in a b : Z) : Z * Z :=
  let s := a + b + (if wrap 8 c_in =? 0 then 0 else 1) in
  (s / 2 ^ w, wrap w s).

(** [_multadd(x, y, a, c, &lo)], lines 376-430.  Returns (high, low). *)
Definition _multadd (p : platform) (x y a c : Z) : Z * Z :=
  let w := digit_bits p in
  if msvc_intrinsics p && ((w =? 64) || (w =? 32) || (w =? 16)) then
    let '(h, l) := umul w x y in
    let '(cout, lo) := addcarry_intrinsic w c l a in
    (wrap w (h + cout), lo)
  else if have_int128 p && (w =? 64) then
    let r := wrap 128 (x * y + a + c) in
    (wrap 64 (Z.shiftr r 64), wrap 64 r)
  else if w =? 64 then
    let x0 := Z.land x 4294967295 in
    let x1 := Z.shiftr x 32 in
    let y0 := Z.land y 4294967295 in
    let y1 := Z.shiftr y 32 in
    let u := wrap 64 (x0 * y0 + Z.land a 4294967295 + Z.land c 4294967295) in
    let v := wrap 64 (x1 * y0 + Z.shiftr u 32 + Z.shiftr a 32 + Z.shiftr c 32) in
    let w' := wrap 64 (x0 * y1 + Z.land v 4294967295) in
    (wrap 64 (x1 * y1 + Z.shiftr v 32 + Z.shiftr w' 32),
     wrap 64 (Z.shiftl w' 32 + Z.land u 4294967295))
  else if w =? 32 then
    let r := wrap 64 (x * y + a + c) in (wrap 32 (Z.shiftr r 32), wrap 32 r)
  else if w =? 16 then
    let r := wrap 32 (x * y + a + c) in (wrap 16 (Z.shiftr r 16), wrap 16 r)
  else
    let r := wrap 32 (x * y + a + c) in (wrap 8 (Z.shiftr r 8), wrap 8 r).

Definition is_digit (w x : Z) : Prop := 0 <= x < 2 ^ w.

(** What the contract of [muladd_wide] asks of a result. *)
Definition muladd_wide_ok (w x y a c : Z) (r : Z * Z) : Prop :=
  fst r * 2 ^ w + snd r = x * y + a + c /\ is_digit w (fst r) /\ is_digit w (snd r).


(** The other primitives are taken on [gcc64], the configuration the rest of
    the development is about: each is its [__uint128_t] (or compiler
    builtin) branch. *)

(** [_bits(x)]: [x ? digit_bits - __builtin_clzll(x) : 1], lines 294-318. *)
Definition clz (x : Z) : Z := 63 - Z.log2 x.
Definition _bits (x : Z) : Z := if x =? 0 then 1 else 64 - clz x.

(** [_mult(x, y, &lo)], lines 342-347.  Returns (high, low). *)
Definition _mult (x y : Z) : Z * Z :=
  let r := wrap 128 (x * y) in (wrap 64 (Z.shiftr r 64), wrap 64 r).

(** [_divmod(x_hi, x_lo, y, &result)], lines 433-441.  The source returns
    the remainder and stores the quotient; here the pair is
    (quotient, remainder), each converted to [digit]. *)
Definition _divmod (x_hi x_lo y : Z) : Z * Z :=
  let x := Z.lor (wrap 128 (Z.shiftl x_hi 64)) x_lo in
  (wrap 64 (x / y), wrap 64 (x mod y)).

(** [_addcarry(x, y, c, &result)], lines 543-548: (carry out, sum). *)
Definition _addcarry (x y c : Z) : Z * Z :=
  let r := wrap 128 (x + y + c) in
  (if Z.shiftr r 64 =? 0 then 0 else 1, wrap 64 r).

(** [_subborrow(x, y, c, &result)], lines 612-617: (borrow out, difference). *)
Definition _subborrow (x y c : Z) : Z * Z :=
  let r := wrap 128 (x - y - c) in
  (if Z.shiftr r 64 =? 0 then 0 else 1, wrap 64 r).

(** ** [uint_t] (uint_t.hh, lines 122-2212) *)

(** The digits of the window, least significant first.  The [_carry] flag,
    written by subtraction only and read by no operation below, is left
    out. *)
Definition uint_t := list Z.

(** What a C++ call can raise, and [Diverges] for a loop of the model that
    used up its bound. *)
Inductive exn :=
| domain_error          (* division or modulus by 0 *)
| invalid_character (c : Z) (at_ : Z)
| invalid_checksum
| runtime_error
| undefined_behaviour   (* reads outside the buffer *)
| Diverges.

Inductive Result (A : Type) :=
| Ok (a : A)
| Throw (e : exn).
Arguments Ok {A} a.
Arguments Throw {A} e.

Definition bind {A B} (m : Result A) (f : A -> Result B) : Result B :=
  match m with Ok a => f a | Throw e => Throw e end.

Notation "x <- m ;; k" := (bind m (fun x => k))
  (at level 61, m at next level, right associativity).
Notation "' p <- m ;; k" := (bind m (fun p => k))
  (at level 61, p pattern, m at next level, right associativity).

Definition size (n : uint_t) : nat := length n.

(** [explicit operator bool()]. *)
Definition to_bool (n : uint_t) : bool := negb (Nat.eqb (size n) 0).

(** [explicit operator unsigned long()] and the other widths that keep a
    whole digit: [size() ? front() : 0]. *)
Definition to_digit (n : uint_t) : Z := hd 0 n.

(** [uint_t(const T& value)], lines 1808-1817. *)
Definition uint_of (value : Z) : uint_t :=
  if value =? 0 then [] else [wrap 64 value].

Definition uint_0 : uint_t := uint_of 0.
Definition uint_1 : uint_t := uint_of 1.

(** [std::find_if] from [rbegin()] for the first non-zero digit: the
    argument is the reversed digit list. *)
Fixpoint drop_zeros (r : list Z) : list Z :=
  match r with
  | [] => []
  | c :: r' => if c =? 0 then drop_zeros r' else r
  end.

(** [trim(mask)], lines 646-659. *)
Definition trim (mask : Z) (n : uint_t) : uint_t :=
  let mask := Z.land mask (64 - 1) in
  let r := rev n in
  let r := match r with
           | c :: r' =>
               if mask =? 0 then r
               else Z.land c (wrap 64 (Z.shiftl 1 mask) - 1) :: r'
           | [] => r
           end in
  rev (drop_zeros r).

(** [bits()], lines 2080-2086. *)
Definition bits (n : uint_t) : Z :=
  match rev n with
  | [] => 0
  | back :: _ => _bits back + (Z.of_nat (size n) - 1) * 64
  end.

(** [compare(lhs, rhs)], lines 1191-1205. *)
Fixpoint compare_from (l r : list Z) : Z :=
  match l, r with
  | x :: l', y :: r' =>
      if x =? y then compare_from l' r'
      else if x >? y then 1 else -1
  | _, _ => 0
  end.

Definition compare (lhs rhs : uint_t) : Z :=
  if (size rhs <? size lhs)%nat then 1
  else if (size lhs <? size rhs)%nat then -1
  else compare_from (rev lhs) (rev rhs).

(** [bitwise_or(result, lhs, rhs)], lines 834-876. *)
Fixpoint or_loop (l r : list Z) : list Z :=
  match l, r with
  | x :: l', y :: r' => Z.lor x y :: or_loop l' r'
  | [], _ => r
  | _, [] => l
  end.

Definition bitwise_or (lhs rhs : uint_t) : uint_t := trim 0 (or_loop lhs rhs).

(** [bitwise_inv(result, lhs)] with a fresh [result], lines 961-994; this is
    the overload [operator~] calls. *)
Definition bitwise_inv (lhs : uint_t) : uint_t :=
  let lhs_sz := size lhs in
  let b := bits lhs in
  let result_sz := if Nat.eqb lhs_sz 0 then 1%nat else lhs_sz in
  let inverted := map (fun d => wrap 64 (Z.lnot d)) lhs in
  let filled := repeat (wrap 64 (Z.lnot 0)) (result_sz - lhs_sz) in
  trim (if b =? 0 then 1 else b) (inverted ++ filled).

Definition operator_not (n : uint_t) : uint_t := bitwise_inv n.

(** [bitwise_inv(lhs)] in place, lines 938-959; this is the overload [inv()]
    calls.  The digit appended to an empty [lhs] lies past [lhs_it_e] and is
    not inverted. *)
Definition bitwise_inv_inplace (lhs : uint_t) : uint_t :=
  let lhs_sz := size lhs in
  let b := bits lhs in
  let appended := if Nat.eqb lhs_sz 0 then [0] else [] in
  trim (if b =? 0 then 1 else b)
       (map (fun d => wrap 64 (Z.lnot d)) lhs ++ appended).

(** *** Addition and subtraction *)

(** The two loops of [long_add] over the overlap and the longer side, which
    extend the shorter side with zeros; [n] is the longer length. *)
Fixpoint add_loop (n : nat) (l r : list Z) (carry : Z) : list Z * Z :=
  match n with
  | O => ([], carry)
  | S n' =>
      let '(c, s) := _addcarry (hd 0 l) (hd 0 r) carry in
      let '(t, c') := add_loop n' (tl l) (tl r) c in
      (s :: t, c')
  end.

(** [result.resize(sz, 0)] keeps the first [sz] digits and extends with 0. *)
Definition resize (sz : nat) (n : uint_t) : uint_t :=
  firstn sz n ++ repeat 0 (sz - length n).

(** [long_add(result, lhs, rhs, result_start, lhs_start, rhs_start)], lines
    1212-1266.  [result] is the content of the destination on entry, of which
    the digits below [result_start] stay. *)
Definition long_add (result lhs rhs : uint_t)
           (result_start lhs_start rhs_start : nat) : uint_t :=
  let lhs_start := Nat.min lhs_start (size lhs) in
  let rhs_start := Nat.min rhs_start (size rhs) in
  let l := skipn lhs_start lhs in
  let r := skipn rhs_start rhs in
  let n := Nat.max (length l) (length r) in
  let '(s, carry) := add_loop n l r 0 in
  trim 0 (resize result_start result ++ s ++ (if carry =? 0 then [] else [1])).

(** [add(result, lhs, rhs, ...)], lines 1281-1293. *)
Definition add_into (result lhs rhs : uint_t)
           (result_start lhs_start rhs_start : nat) : uint_t :=
  if negb (to_bool rhs) then lhs
  else if negb (to_bool lhs) then rhs
  else long_add result lhs rhs result_start lhs_start rhs_start.

(** [add(lhs, rhs)] by value, lines 1295-1299, which is [operator+]. *)
Definition add (lhs rhs : uint_t) : uint_t := add_into [] lhs rhs 0 0 0.

Fixpoint sub_loop (n : nat) (l r : list Z) (borrow : Z) : list Z * Z :=
  match n with
  | O => ([], borrow)
  | S n' =>
      let '(c, s) := _subborrow (hd 0 l) (hd 0 r) borrow in
      let '(t, c') := sub_loop n' (tl l) (tl r) c in
      (s :: t, c')
  end.

(** [long_sub], lines 1306-1357; the borrow goes to [_carry]. *)
Definition long_sub (result lhs rhs : uint_t)
           (result_start lhs_start rhs_start : nat) : uint_t :=
  let rhs_start := Nat.min rhs_start (size rhs) in
  let lhs_start := Nat.min lhs_start (size lhs) in
  let l := skipn lhs_start lhs in
  let r := skipn rhs_start rhs in
  let n := Nat.max (length l) (length r) in
  let '(s, _) := sub_loop n l r 0 in
  trim 0 (resize result_start result ++ s).

(** [sub(lhs, rhs)] in place, lines 1359-1366, which is [operator-=]. *)
Definition sub_assign (lhs rhs : uint_t) : uint_t :=
  if negb (to_bool rhs) then lhs else long_sub lhs lhs rhs 0 0 0.

(** *** Multiplication *)

(** [single_mult(result, lhs, rhs)], lines 1386-1414. *)
Fixpoint single_mult_loop (lhs : list Z) (n carry : Z) : list Z :=
  match lhs with
  | [] => [if carry =? 0 then 0 else carry]
  | x :: lhs' =>
      let '(hi, lo) := _multadd gcc64 x n 0 carry in
      lo :: single_mult_loop lhs' n hi
  end.

Definition single_mult (lhs rhs : uint_t) : uint_t :=
  trim 0 (single_mult_loop lhs (hd 0 rhs) 0).

(** The inner loop of [long_mult], lines 1446-1452, over the accumulator
    from the current offset. *)
Fixpoint mult_row (rhs : list Z) (d : Z) (acc : list Z) (carry : Z) : list Z :=
  match rhs, acc with
  | [], a :: acc' => (if carry =? 0 then a else carry) :: acc'
  | y :: rhs', a :: acc' =>
      let '(hi, lo) := _multadd gcc64 y d a carry in
      lo :: mult_row rhs' d acc' hi
  | _, [] => []
  end.

Fixpoint long_mult_rows (lhs rhs acc : list Z) : list Z :=
  match lhs with
  | [] => acc
  | d :: lhs' =>
      match (if d =? 0 then acc else mult_row rhs d acc 0) with
      | a :: rest => a :: long_mult_rows lhs' rhs rest
      | [] => []
      end
  end.

(** [long_mult(result, lhs, rhs)], lines 1416-1466.  The final shrink to
    the highest slot written drops digits that are still 0, which [trim]
    drops as well. *)
Definition long_mult (lhs rhs : uint_t) : uint_t :=
  let '(lhs, rhs) := if (size rhs <? size lhs)%nat then (rhs, lhs) else (lhs, rhs) in
  if Nat.eqb (size lhs) 1 then single_mult rhs lhs
  else trim 0 (long_mult_rows lhs rhs (repeat 0 (size lhs + size rhs))).

Definition karatsuba_cutoff : nat := 16.

(** [karatsuba_mult] and [karatsuba_lopsided_mult], lines 1479-1577.  The
    windows of [karatsuba_mult_split] and of the slices are sublists.  The
    recursion is bounded by [fuel]. *)
Fixpoint karatsuba_mult (fuel : nat) (lhs rhs : uint_t) (cutoff : nat)
  : Result uint_t :=
  match fuel with
  | O => Throw Diverges
  | S fuel =>
      let '(lhs, rhs) :=
        if (size rhs <? size lhs)%nat then (rhs, lhs) else (lhs, rhs) in
      let lhs_sz := size lhs in
      let rhs_sz := size rhs in
      if (lhs_sz <=? cutoff)%nat then Ok (long_mult lhs rhs)
      else if (2 * lhs_sz <=? rhs_sz)%nat then
        (fix slices (n : nat) (rest : list Z) (r : uint_t) (shift : nat)
           : Result uint_t :=
           match n with
           | O => Throw Diverges
           | S n' =>
               match rest with
               | [] => Ok r
               | _ =>
                   let slice_size := Nat.min lhs_sz (length rest) in
                   p <- karatsuba_mult fuel lhs (firstn slice_size rest) cutoff ;;
                   slices n' (skipn slice_size rest)
                          (add_into r r p shift shift 0) (shift + slice_size)%nat
               end
           end) (S rhs_sz) rhs [] O
      else
        let shift := Nat.div2 rhs_sz in
        let B := firstn shift lhs in
        let A := skipn shift lhs in
        let D := firstn shift rhs in
        let C := skipn shift rhs in
        AC <- karatsuba_mult fuel A C cutoff ;;
        BD <- karatsuba_mult fuel B D cutoff ;;
        AD_BC <- karatsuba_mult fuel (add A B) (add C D) cutoff ;;
        let AD_BC := sub_assign (sub_assign AD_BC AC) BD in
        let BD := resize (shift * 2) BD ++ AC in
        Ok (trim 0 (add_into BD BD AD_BC shift shift 0))
  end.

(** [mult(result, lhs, rhs)], lines 1584-1600, which is [operator*]. *)
Definition mult (lhs rhs : uint_t) : Result uint_t :=
  if negb (to_bool lhs) || negb (to_bool rhs) then Ok uint_0
  else if compare lhs uint_1 =? 0 then Ok rhs
  else if compare rhs uint_1 =? 0 then Ok lhs
  else karatsuba_mult (S (size lhs + size rhs)) lhs rhs karatsuba_cutoff.

(** *** Division *)

(** [single_divmod], lines 1610-1634.  The loop runs from the most
    significant digit; it returns the quotient digits, most significant
    first, and the remainder. *)
Fixpoint single_divmod_loop (rit_lhs : list Z) (n r : Z) : list Z * Z :=
  match rit_lhs with
  | [] => ([], r)
  | x :: rest =>
      let '(q, r') := _divmod r x n in
      let '(qs, r'') := single_divmod_loop rest n r' in
      (q :: qs, r'')
  end.

Definition single_divmod (lhs rhs : uint_t) : uint_t * uint_t :=
  let n := hd 0 rhs in
  let '(qs, r) := single_divmod_loop (rev lhs) n 0 in
  (trim 0 (rev qs), uint_of r).

(** The dispatch of [divmod], lines 1732-1768, with the kernel of the
    general case as an argument.  [divmod] reaches [knuth_divmod], which
    shifts with [operator<<=], which splits the shift amount with [divmod]
    again, there with the one-digit divisor [digit_bits]: the argument cuts
    this cycle. *)
Definition divmod_with (general : uint_t -> uint_t -> uint_t * uint_t)
           (lhs rhs : uint_t) : Result (uint_t * uint_t) :=
  if negb (to_bool rhs) then Throw domain_error
  else if Nat.eqb (size lhs) 1 && Nat.eqb (size rhs) 1 then
    let a := hd 0 lhs in
    let b := hd 0 rhs in
    Ok (uint_of (a / b), uint_of (a mod b))
  else if compare rhs uint_1 =? 0 then Ok (lhs, uint_0)
  else
    let compared := compare lhs rhs in
    if compared =? 0 then Ok (uint_1, uint_0)
    else if negb (to_bool lhs) || (compared <? 0) then Ok (uint_0, lhs)
    else if Nat.eqb (size rhs) 1 then Ok (single_divmod lhs rhs)
    else Ok (general lhs rhs).

(** The split of a shift amount into whole digits and bits:
    [divmod(shifts_q, shifts_r, rhs, uint_digit_bits)] and the two casts to
    [std::size_t].  The divisor has one digit, so the general case is not
    reached. *)
Definition shift_amounts (rhs : uint_t) : nat * Z :=
  match divmod_with (fun _ _ => ([], [])) rhs (uint_of 64) with
  | Ok (shifts_q, shifts_r) => (Z.to_nat (to_digit shifts_q), to_digit shifts_r)
  | Throw _ => (O, 0)
  end.

(** The loop of [bitwise_lshift] for a non-zero bit count, lines 1016-1023. *)
Fixpoint lshift_loop (lhs : list Z) (shift shifted : Z) : list Z :=
  match lhs with
  | [] => if shifted =? 0 then [] else [shifted]
  | x :: lhs' =>
      wrap 64 (Z.lor (Z.shiftl x shift) shifted)
        :: lshift_loop lhs' shift (Z.shiftr x (64 - shift))
  end.

(** [bitwise_lshift], lines 996-1084: the in-place overload ([operator<<=])
    and the one with a fresh result ([operator<<]) compute the same digits. *)
Definition bitwise_lshift (lhs rhs : uint_t) : uint_t :=
  if negb (to_bool rhs) then lhs
  else
    let '(shifts, shift) := shift_amounts rhs in
    trim 0 (repeat 0 shifts
              ++ (if shift =? 0 then lhs else lshift_loop lhs shift 0)).

(** The loop of [bitwise_rshift] from the most significant digit, lines
    1116-1123. *)
Fixpoint rshift_loop (rit : list Z) (shift shifted : Z) : list Z :=
  match rit with
  | [] => []
  | x :: rest =>
      Z.lor (Z.shiftr x shift) shifted
        :: rshift_loop rest shift (wrap 64 (Z.shiftl x (64 - shift)))
  end.

(** [bitwise_rshift(lhs, rhs)] in place, lines 1092-1128 ([operator>>=]). *)
Definition bitwise_rshift (lhs rhs : uint_t) : uint_t :=
  if negb (to_bool rhs) then lhs
  else if compare rhs (uint_of (Z.of_nat (size lhs) * 64)) >=? 0 then uint_0
  else
    let '(shifts, shift) := shift_amounts rhs in
    let lhs := skipn shifts lhs in
    if shift =? 0 then lhs
    else trim 0 (rev (rshift_loop (rev lhs) shift 0)).

(** D3 of [knuth_divmod], the loop that lowers the estimate, lines
    1683-1689.  Each turn adds [wm1] to [_r] and the loop ends when that sum
    carries, so with the top bit of [wm1] set it turns at most twice. *)
Fixpoint lower_estimate (fuel : nat) (_q _r mulhi mullo rlo wm1 wm2 : Z) : Z :=
  match fuel with
  | O => _q
  | S fuel =>
      if (mulhi >? _r) || ((mulhi =? _r) && (mullo >? rlo)) then
        let _q := wrap 64 (_q - 1) in
        let '(c, _r) := _addcarry _r wm1 0 in
        if c =? 0 then
          let '(mulhi, mullo) := _mult _q wm2 in
          lower_estimate fuel _q _r mulhi mullo rlo wm1 wm2
        else _q
      else _q
  end.

(** D4, lines 1692-1701: multiply and subtract over the window that starts
    at [it_v_k].  Returns the window and the borrow. *)
Fixpoint mult_sub (w vk : list Z) (_q mulhi carry : Z) : list Z * Z :=
  match w, vk with
  | wi :: w', x :: vk' =>
      let '(mulhi, mullo) := _multadd gcc64 wi _q 0 mulhi in
      let '(carry, s) := _subborrow x mullo carry in
      let '(t, c) := mult_sub w' vk' _q mulhi carry in
      (s :: t, c)
  | [], x :: vk' =>
      let '(carry, s) := _subborrow x 0 carry in (s :: vk', carry)
  | _, [] => ([], carry)
  end.

(** D6, lines 1707-1713: add the divisor back. *)
Fixpoint add_back (w vk : list Z) (carry : Z) : list Z :=
  match w, vk with
  | wi :: w', x :: vk' =>
      let '(carry, s) := _addcarry x wi carry in s :: add_back w' vk' carry
  | [], x :: vk' =>
      let '(_, s) := _addcarry x 0 carry in s :: vk'
  | _, [] => []
  end.

(** One turn of the loop D2, lines 1676-1718, at [it_v_k = it_v_b + k]:
    the quotient digit and the new [v]. *)
Definition knuth_step (v w : list Z) (w_size k : nat) (wm1 wm2 : Z) : Z * list Z :=
  let '(_q, _r) := _divmod (nth (k + w_size) v 0) (nth (k + w_size - 1) v 0) wm1 in
  let '(mulhi, mullo) := _mult _q wm2 in
  let rlo := nth (k + w_size - 2) v 0 in
  let _q := lower_estimate 3 _q _r mulhi mullo rlo wm1 wm2 in
  let '(vk, carry) := mult_sub w (skipn k v) _q 0 0 in
  if carry =? 0 then (_q, firstn k v ++ vk)
  else (wrap 64 (_q - 1), firstn k v ++ add_back w vk 0).

(** The loop D2 from [k] down to 0; the quotient digits come out least
    significant first. *)
Fixpoint knuth_loop (k : nat) (v w : list Z) (w_size : nat) (wm1 wm2 : Z)
  : list Z * list Z :=
  let '(_q, v) := knuth_step v w w_size k wm1 wm2 in
  match k with
  | O => ([_q], v)
  | S k' =>
      let '(qs, v) := knuth_loop k' v w w_size wm1 wm2 in
      (qs ++ [_q], v)
  end.

(** [knuth_divmod], lines 1637-1730. *)
Definition knuth_divmod (lhs rhs : uint_t) : uint_t * uint_t :=
  let w_size := size rhs in
  let d := uint_of (64 - _bits (last rhs 0)) in
  let v := bitwise_lshift lhs d in
  let w := bitwise_lshift rhs d in
  let v := if last v 0 >=? last w 0 then v ++ [0] else v in
  let v_size := size v in
  let v := v ++ [0] in
  let k := (v_size - w_size)%nat in
  let wm1 := nth 0 (rev w) 0 in
  let wm2 := nth 1 (rev w) 0 in
  let '(q, v) := knuth_loop k v w w_size wm1 wm2 in
  let v := bitwise_rshift (resize w_size v) d in
  (trim 0 q, trim 0 v).

(** [divmod(quotient, remainder, lhs, rhs)], lines 1732-1768. *)
Definition divmod (lhs rhs : uint_t) : Result (uint_t * uint_t) :=
  divmod_with knuth_divmod lhs rhs.

(** *** Raw bytes *)

(** The digit vector seen through [reinterpret_cast<char*>] on a
    little-endian machine, and back.  A character is its code, 0 to 255. *)
Fixpoint le_bytes (n : nat) (d : Z) : list Z :=
  match n with
  | O => []
  | S n' => d mod 256 :: le_bytes n' (d / 256)
  end.

Definition bytes_of_digits (n : uint_t) : list Z :=
  flat_map (le_bytes 8) n.

Fixpoint le_value (bs : list Z) : Z :=
  match bs with
  | [] => 0
  | b :: bs' => b + 256 * le_value bs'
  end.

Fixpoint digits_of_bytes (value_size : nat) (bs : list Z) : list Z :=
  match value_size with
  | O => []
  | S n => le_value (firstn 8 bs) :: digits_of_bytes n (skipn 8 bs)
  end.

(** The static table [uint_t::ord], lines 661-684. *)
Definition uint_ord (c : Z) : Z :=
  if (48 <=? c) && (c <=? 57) then c - 48
  else if (65 <=? c) && (c <=? 90) then c - 65 + 10
  else if (97 <=? c) && (c <=? 122) then c - 97 + 10
  else 255.

(** The tables [_base_bits] and [_base_size], lines 696-738, indexed from
    0; [base_bits(base)] reads entry [base - 1]. *)
Definition _base_bits : list Z :=
  [0; 1; 0; 2; 0; 0; 0; 3; 0; 0; 0; 0; 0; 0; 0; 4;
   0; 0; 0; 0; 0; 0; 0; 0; 0; 0; 0; 0; 0; 0; 0; 5;
   0; 0; 0; 0; 0; 0; 0; 0; 0; 0; 0; 0; 0; 0; 0; 0;
   0; 0; 0; 0; 0; 0; 0; 0; 0; 0; 0; 0; 0; 0; 0; 6;
   0; 0; 0; 0; 0; 0; 0; 0; 0; 0; 0; 0; 0; 0; 0; 0;
   0; 0; 0; 0; 0; 0; 0; 0; 0; 0; 0; 0; 0; 0; 0; 0;
   0; 0; 0; 0; 0; 0; 0; 0; 0; 0; 0; 0; 0; 0; 0; 0;
   0; 0; 0; 0; 0; 0; 0; 0; 0; 0; 0; 0; 0; 0; 0; 7;
   0; 0; 0; 0; 0; 0; 0; 0; 0; 0; 0; 0; 0; 0; 0; 0;
   0; 0; 0; 0; 0; 0; 0; 0; 0; 0; 0; 0; 0; 0; 0; 0;
   0; 0; 0; 0; 0; 0; 0; 0; 0; 0; 0; 0; 0; 0; 0; 0;
   0; 0; 0; 0; 0; 0; 0; 0; 0; 0; 0; 0; 0; 0; 0; 0;
   0; 0; 0; 0; 0; 0; 0; 0; 0; 0; 0; 0; 0; 0; 0; 0;
   0; 0; 0; 0; 0; 0; 0; 0; 0; 0; 0; 0; 0; 0; 0; 0;
   0; 0; 0; 0; 0; 0; 0; 0; 0; 0; 0; 0; 0; 0; 0; 0;
   0; 0; 0; 0; 0; 0; 0; 0; 0; 0; 0; 0; 0; 0; 0; 8].

Definition _base_size : list Z :=
  [0; 64; 41; 32; 28; 25; 23; 22; 21; 20; 19; 18; 18; 17; 17; 16;
   16; 16; 16; 15; 15; 15; 15; 14; 14; 14; 14; 14; 14; 14; 13; 13;
   13; 13; 13; 13; 13; 13; 13; 13; 12; 12; 12; 12; 12; 12; 12; 12;
   12; 12; 12; 12; 12; 12; 12; 12; 11; 11; 11; 11; 11; 11; 11; 11;
   11; 11; 11; 11; 11; 11; 11; 11; 11; 11; 11; 11; 11; 11; 11; 11;
   11; 11; 11; 11; 10; 10; 10; 10; 10; 10; 10; 10; 10; 10; 10; 10;
   10; 10; 10; 10; 10; 10; 10; 10; 10; 10; 10; 10; 10; 10; 10; 10;
   10; 10; 10; 10; 10; 10; 10; 10; 10; 10; 10; 10; 10; 10; 10; 10;
   10; 10; 10; 10; 10; 10; 10; 10; 10; 10;  9;  9;  9;  9;  9;  9;
   9;  9;  9;  9;  9;  9;  9;  9;  9;  9;  9;  9;  9;  9;  9;  9;
   9;  9;  9;  9;  9;  9;  9;  9;  9;  9;  9;  9;  9;  9;  9;  9;
   9;  9;  9;  9;  9;  9;  9;  9;  9;  9;  9;  9;  9;  9;  9;  9;
   9;  9;  9;  9;  9;  9;  9;  9;  9;  9;  9;  9;  9;  9;  9;  9;
   9;  9;  9;  9;  9;  9;  9;  9;  9;  9;  9;  9;  9;  9;  9;  9;
   9;  9;  9;  9;  9;  9;  9;  9;  9;  9;  9;  9;  9;  9;  9;  9;
   9;  9;  9;  9;  9;  9;  9;  9;  9;  9;  9;  9;  9;  9;  9;  8].

Definition base_bits_of (base : Z) : Z := nth (Z.to_nat (base - 1)) _base_bits 0.
Definition base_size_of (base : Z) : Z := nth (Z.to_nat (base - 1)) _base_size 0.

(** The two digit loops of [strtouint], lines 2158-2172. *)
Fixpoint strtouint_pow2 (encoded : list Z) (encoded_size : Z)
         (alphabet_base : Z) (alphabet_base_bits : uint_t) (result : uint_t)
  : Result uint_t :=
  match encoded with
  | [] => Ok result
  | c :: rest =>
      let d := uint_of (uint_ord c) in
      if compare d (uint_of alphabet_base) >=? 0
      then Throw runtime_error
      else strtouint_pow2 rest (encoded_size - 1) alphabet_base alphabet_base_bits
             (bitwise_or (bitwise_lshift result alphabet_base_bits) d)
  end.

Fixpoint strtouint_general (encoded : list Z) (encoded_size : Z)
         (alphabet_base : Z) (result : uint_t) : Result uint_t :=
  match encoded with
  | [] => Ok result
  | c :: rest =>
      let d := uint_of (uint_ord c) in
      if compare d (uint_of alphabet_base) >=? 0
      then Throw runtime_error
      else
        m <- mult result (uint_of alphabet_base) ;;
        strtouint_general rest (encoded_size - 1) alphabet_base (add m d)
  end.

(** [strtouint(encoded, encoded_size, alphabet_base)], lines 2152-2191. *)
Definition strtouint (encoded : list Z) (alphabet_base : Z) : Result uint_t :=
  let encoded_size := length encoded in
  if (2 <=? alphabet_base) && (alphabet_base <=? 36) then
    let alphabet_base_bits := uint_of (base_bits_of alphabet_base) in
    if to_bool alphabet_base_bits
    then strtouint_pow2 encoded (Z.of_nat encoded_size) alphabet_base
           alphabet_base_bits []
    else strtouint_general encoded (Z.of_nat encoded_size) alphabet_base []
  else if negb (Nat.eqb encoded_size 0) && (alphabet_base =? 256) then
    let value_size := (encoded_size / 8)%nat in
    let value_padding := (encoded_size mod 8)%nat in
    let '(value_padding, value_size) :=
      if Nat.eqb value_padding 0 then (value_padding, value_size)
      else ((8 - value_padding)%nat, S value_size) in
    let buffer := repeat 0 value_padding ++ encoded in
    Ok (digits_of_bytes value_size (rev buffer))
  else Throw runtime_error.

(** [uint_t(const char* bytes, std::size_t sz, int base)], lines 1834-1835. *)
Definition uint_of_bytes (bytes : list Z) (base : Z) : Result uint_t :=
  strtouint bytes base.

(** The branch of [str(alphabet_base)] for [alphabet_base == 256], lines
    2134-2146, which is [raw()]. *)
Definition str_256 (n : uint_t) : list Z :=
  if negb (Nat.eqb (size n) 0) then
    rev (rev (drop_zeros (rev (bytes_of_digits n))))
  else [0].

(** ** [BaseX] (base_x.hh)

    [base_x.hh] names the integer class [uinteger_t]; it is the class
    [uint_t] above. *)

Definition IGNORE_CASE : Z := 1.
Definition BLOCK_PADDING : Z := 2.

Record BaseX := {
  _chr : list Z;          (* char _chr[256] *)
  _ord : list Z;          (* unsigned char _ord[256] *)
  base : Z;
  base_size : Z;
  base_bits : Z;
  block_size : Z;
  base_mask : Z
}.

Definition chr (bx : BaseX) (ord : Z) : Z := nth (Z.to_nat ord) (_chr bx) 0.
Definition ord (bx : BaseX) (chr : Z) : Z := nth (Z.to_nat chr) (_ord bx) 255.

(** Assignment to one element of an array. *)
Fixpoint store (a : list Z) (i : nat) (v : Z) : list Z :=
  match a, i with
  | [], _ => []
  | _ :: a', O => v :: a'
  | x :: a', S i' => x :: store a' i' v
  end.

(** The characters of a string literal, without the terminating NUL. *)
Definition chars (s : String.string) : list Z :=
  map (fun c => Z.of_N (Ascii.N_of_ascii c)) (String.list_ascii_of_string s).

(** The loop over the ignored characters, lines 70-73; it runs from the
    last character to the first, so the argument is the reversed list. *)
Fixpoint ctor_ignored (rev_ignored : list Z) (ord_ : list Z) : list Z :=
  match rev_ignored with
  | [] => ord_
  | ch :: rest => ctor_ignored rest (store ord_ (Z.to_nat ch) 0)
  end.

(** The loop over the alphabet, lines 74-85, from [i = base] down to 1; the
    argument is the reversed alphabet and [i] the index of its head plus 1. *)
Fixpoint ctor_alphabet (rev_alphabet : list Z) (i : Z) (flags : Z)
         (tables : list Z * list Z) : list Z * list Z :=
  match rev_alphabet with
  | [] => tables
  | ch :: rest =>
      let '(chr_, ord_) := tables in
      let chr_ := store chr_ (Z.to_nat (i - 1)) ch in
      let ord_ := store ord_ (Z.to_nat ch) (wrap 8 (i - 1)) in
      let ord_ :=
        if negb (Z.land flags IGNORE_CASE =? 0) then
          if (65 <=? ch) && (ch <=? 90)
          then store ord_ (Z.to_nat (ch - 65 + 97)) (wrap 8 (i - 1))
          else if (97 <=? ch) && (ch <=? 122)
               then store ord_ (Z.to_nat (ch - 97 + 65)) (wrap 8 (i - 1))
               else ord_
        else ord_ in
      ctor_alphabet rest (i - 1) flags (chr_, ord_)
  end.

(** The constructor, lines 56-86.  No statement of it throws.  For an
    alphabet of no character, or of more than 256, [base_size(base)] and
    [base_bits(base)] read outside their tables of 256 entries, and the loop
    over a longer alphabet writes outside [_chr]: undefined behaviour. *)
Definition BaseX_ctor (alphabet ignored : list Z) (flags : Z) : Result BaseX :=
  let base := Z.of_nat (length alphabet) in
  if (1 <=? base) && (base <=? 256) then
    let base_bits := base_bits_of base in
    let ord_ := ctor_ignored (rev ignored) (repeat 255 256) in
    let '(chr_, ord_) :=
      ctor_alphabet (rev alphabet) base flags (repeat 0 256, ord_) in
    Ok {| _chr := chr_;
          _ord := ord_;
          base := base;
          base_size := base_size_of base;
          base_bits := base_bits;
          block_size := if negb (Z.land flags BLOCK_PADDING =? 0) then base_bits else 0;
          base_mask := wrap 64 (base - 1) |}
  else Throw undefined_behaviour.

(** A codec from string literals, as the factories below write them. *)
Definition BaseX_of (alphabet ignored : String.string) (flags : Z) : BaseX :=
  match BaseX_ctor (chars alphabet) (chars ignored) flags with
  | Ok bx => bx
  | Throw _ =>
      {| _chr := []; _ord := []; base := 0; base_size := 0; base_bits := 0;
         block_size := 0; base_mask := 0 |}
  end.

(** *** encode *)

(** The half digits of the digit vector seen through
    [reinterpret_cast<const half_digit*>]. *)
Definition half_digits (n : uint_t) : list Z :=
  flat_map (fun d => [d mod 2 ^ 32; d / 2 ^ 32]) n.

(** The [do ... while (shift <= half_digit_bits)] loop, lines 110-115.  It
    returns the digits it pushed, in order, and the shift it ends with. *)
Fixpoint encode_window (fuel : nat) (bx : BaseX) (v shift : Z) : list Z * Z :=
  match fuel with
  | O => ([], shift)
  | S fuel =>
      let d := Z.land (Z.shiftr v shift) (base_mask bx) in
      let shift := shift + base_bits bx in
      if shift <=? 32 then
        let '(ds, shift) := encode_window fuel bx v shift in (d :: ds, shift)
      else ([d], shift)
  end.

(** The [for] loop over the half digits, lines 107-117; [ptr] holds the half
    digits not yet read and [i] counts the turns left. *)
Fixpoint encode_halves (i : nat) (bx : BaseX) (ptr : list Z) (v shift : Z)
  : list Z * Z * Z :=
  match i with
  | O => ([], v, shift)
  | S i' =>
      let v := Z.shiftr v 32 in
      let v := Z.lor v (wrap 64 (Z.shiftl (hd 0 ptr) 32)) in
      let '(ds, shift) := encode_window 33 bx v shift in
      let shift := shift - 32 in
      let '(ds', v', shift') := encode_halves i' bx (tl ptr) v shift in
      (ds ++ ds', v', shift')
  end.

(** The [while (v)] loop, lines 119-124. *)
Fixpoint encode_flush (fuel : nat) (bx : BaseX) (v : Z) : list Z :=
  match fuel with
  | O => []
  | S fuel =>
      if v =? 0 then []
      else Z.land v (base_mask bx) :: encode_flush fuel bx (Z.shiftr v (base_bits bx))
  end.

(** The digits of the power-of-two branch, lines 103-124, in the order they
    are pushed (least significant first). *)
Definition encode_pow2_digits (bx : BaseX) (num_sz : nat) (quotient : uint_t)
  : list Z :=
  let ptr := half_digits quotient in
  let v := wrap 64 (Z.shiftl (hd 0 ptr) 32) in
  let '(ds, v, shift) := encode_halves (num_sz * 2 - 1) bx (tl ptr) v 0 in
  let v := Z.shiftr v (shift + 32) in
  ds ++ encode_flush 64 bx v.

(** [std::find_if] from [rbegin()] for the first character that differs
    from [s], and the shrink to it, lines 125-127; the argument is the
    reversed string. *)
Fixpoint drop_char (s : Z) (r : list Z) : list Z :=
  match r with
  | [] => []
  | c :: r' => if c =? s then drop_char s r' else r
  end.

(** The [do ... while (quotient)] loop of the general branch, lines 130-136:
    the digits in the order they are pushed. *)
Fixpoint encode_general_digits (fuel : nat) (quotient uint_base : uint_t)
  : Result (list Z) :=
  match fuel with
  | O => Throw Diverges
  | S fuel =>
      '(q, r) <- divmod quotient uint_base ;;
      let d := wrap 32 (to_digit r) in
      if to_bool q then
        ds <- encode_general_digits fuel q uint_base ;; Ok (d :: ds)
      else Ok [d]
  end.

Definition xor_all (ds : list Z) : Z := fold_left Z.lxor ds 0.

(** The pre-shift of the block padding, lines 96-100. *)
Definition encode_bp (bx : BaseX) (num : uint_t) : Z :=
  if negb (block_size bx =? 0) then
    let bp := Z.land (bits num + 7) 248 mod block_size bx in
    if negb (bp =? 0) then block_size bx - bp else 0
  else 0.

(** The two terms of the checksum that come from the length, lines 141-142
    (and 198-199, 283-284). *)
Definition length_sum (bx : BaseX) (sz : Z) : Z :=
  Z.lxor ((sz / base bx) mod base bx) (sz mod base bx).

(** [encode(result, num, checksum)], lines 90-148. *)
Definition encode (bx : BaseX) (num : uint_t) (checksum : bool)
  : Result (list Z) :=
  let num_sz := size num in
  if negb (Nat.eqb num_sz 0) then
    let bp := encode_bp bx num in
    let quotient := bitwise_lshift num (uint_of bp) in
    pushed <-
      (if negb (base_bits bx =? 0) then
         let ds := encode_pow2_digits bx num_sz quotient in
         let result := map (chr bx) ds in
         Ok (xor_all ds, rev (drop_char (chr bx 0) (rev result)))
       else
         ds <- encode_general_digits (S (64 * size quotient)) quotient
                 (uint_of (base bx)) ;;
         Ok (xor_all ds, map (chr bx) ds)) ;;
    let '(sum, result) := pushed in
    let result := rev result in
    if checksum then
      let sz := Z.of_nat (length result) in
      let sum := Z.lxor sum (length_sum bx sz) in
      Ok (result ++ [chr bx sum])
    else Ok result
  else Ok [chr bx 0].

(** [encode(bytes, size, checksum)], lines 162-167. *)
Definition encode_bytes (bx : BaseX) (bytes : list Z) (checksum : bool)
  : Result (list Z) :=
  num <- uint_of_bytes bytes 256 ;;
  encode bx num checksum.

(** *** decode *)

(** The loop of the power-of-two branch, lines 207-214. *)
Fixpoint decode_pow2 (bx : BaseX) (encoded : list Z) (encoded_size : Z)
         (result : uint_t) (sum : Z) : Result (uint_t * Z) :=
  match encoded with
  | [] => Ok (result, sum)
  | c :: rest =>
      let d := ord bx c in
      let sum := Z.lxor sum d in
      if d >=? base bx then Throw (invalid_character c encoded_size)
      else decode_pow2 bx rest (encoded_size - 1)
             (bitwise_or (bitwise_lshift result (uint_of (base_bits bx))) (uint_of d))
             sum
  end.

(** The loop of the general branch, lines 217-224. *)
Fixpoint decode_general (bx : BaseX) (encoded : list Z) (encoded_size : Z)
         (uint_base result : uint_t) (sum : Z) : Result (uint_t * Z) :=
  match encoded with
  | [] => Ok (result, sum)
  | c :: rest =>
      let d := ord bx c in
      if d >=? base bx then Throw (invalid_character c encoded_size)
      else
        let sum := Z.lxor sum d in
        m <- mult result uint_base ;;
        decode_general bx rest (encoded_size - 1) uint_base (add m (uint_of d)) sum
  end.

(** [decode(result, encoded, encoded_size, checksum)], lines 193-239.  With
    [checksum] set and nothing to read, [encoded_size - 1] wraps and the
    loops run off the buffer. *)
Definition decode (bx : BaseX) (encoded : list Z) (checksum : bool)
  : Result uint_t :=
  if checksum && Nat.eqb (length encoded) 0 then Throw undefined_behaviour
  else
    let encoded_size := Z.of_nat (length encoded) in
    let sum := if checksum then length_sum bx (encoded_size - 1) else 0 in
    let encoded_size := if checksum then encoded_size - 1 else encoded_size in
    let bp := if negb (block_size bx =? 0)
              then (encoded_size * block_size bx) mod 8 else 0 in
    let payload := firstn (Z.to_nat encoded_size) encoded in
    '(result, sum) <-
      (if negb (base_bits bx =? 0)
       then decode_pow2 bx payload encoded_size [] sum
       else decode_general bx payload encoded_size (uint_of (base bx)) [] sum) ;;
    let result := bitwise_rshift result (uint_of bp) in
    if checksum then
      let c := nth (Z.to_nat encoded_size) encoded 0 in
      let d := ord bx c in
      if d >=? base bx then Throw (invalid_character c 0)
      else if negb (Z.lxor sum d =? 0) then Throw invalid_checksum
      else Ok result
    else Ok result.

(** [decode(result, encoded, encoded_size, checksum)] to a string, lines
    241-246. *)
Definition decode_bytes (bx : BaseX) (encoded : list Z) (checksum : bool)
  : Result (list Z) :=
  num <- decode bx encoded checksum ;;
  Ok (str_256 num).

(** [is_valid(encoded, encoded_size, checksum)], lines 279-297.  For the
    empty string [encoded_size - 1] wraps in [std::size_t]. *)
Fixpoint is_valid_loop (bx : BaseX) (encoded : list Z) (sum : Z) : option Z :=
  match encoded with
  | [] => Some sum
  | c :: rest =>
      let d := ord bx c in
      if d >=? base bx then None
      else is_valid_loop bx rest (Z.lxor sum d)
  end.

Definition is_valid (bx : BaseX) (encoded : list Z) (checksum : bool) : bool :=
  let encoded_size := Z.of_nat (length encoded) in
  let sz := if Nat.eqb (length encoded) 0 then 2 ^ 64 - 1 else encoded_size - 1 in
  let sum := if checksum then length_sum bx sz else 0 in
  match is_valid_loop bx encoded sum with
  | None => false
  | Some sum => negb (checksum && negb (sum =? 0))
  end.

(** *** The bundled codecs, lines 309-457 *)

Import String.StringSyntax.
Local Open Scope string_scope.

Definition rfc_ignored : String.string :=
  String.append "= " (String.String (Ascii.ascii_of_nat 10)
    (String.String (Ascii.ascii_of_nat 13)
       (String.String (Ascii.ascii_of_nat 9) String.EmptyString))).

Definition base2 := BaseX_of "01" "" 0.
Definition base8 := BaseX_of "01234567" "" 0.
Definition base11 := BaseX_of "0123456789a" "" IGNORE_CASE.
Definition base16 := BaseX_of "0123456789abcdef" "" IGNORE_CASE.
Definition base16_rfc4648 := BaseX_of "0123456789ABCDEF" rfc_ignored IGNORE_CASE.
Definition base32 := BaseX_of "ABCDEFGHIJKLMNOPQRSTUVWXYZ234567" "" IGNORE_CASE.
Definition base32_hex := BaseX_of "0123456789ABCDEFGHIJKLMNOPQRSTUV" "" IGNORE_CASE.
Definition base32_rfc4648 :=
  BaseX_of "ABCDEFGHIJKLMNOPQRSTUVWXYZ234567" rfc_ignored (Z.lor IGNORE_CASE BLOCK_PADDING).
Definition base32_rfc4648hex :=
  BaseX_of "0123456789ABCDEFGHIJKLMNOPQRSTUV" rfc_ignored (Z.lor IGNORE_CASE BLOCK_PADDING).
Definition base32_crockford := BaseX_of "0123456789ABCDEFGHJKMNPQRSTVWXYZ" "" IGNORE_CASE.
Definition base36 := BaseX_of "0123456789abcdefghijklmnopqrstuvwxyz" "" IGNORE_CASE.
Definition base58_gmp :=
  BaseX_of "0123456789ABCDEFGHIJKLMNOPQRSTUVWXYZabcdefghijklmnopqrstuv" "" 0.
Definition base58_bitcoin :=
  BaseX_of "123456789ABCDEFGHJKLMNPQRSTUVWXYZabcdefghijkmnopqrstuvwxyz" "" 0.
Definition base58_ripple :=
  BaseX_of "rpshnaf39wBUDNEGHJKLM4PQRST7VWXYZ2bcdeCg65jkm8oFqi1tuvAxyz" "" 0.
Definition base58_flickr :=
  BaseX_of "123456789abcdefghijkmnopqrstuvwxyzABCDEFGHJKLMNPQRSTUVWXYZ" "" 0.
Definition base62_inverted :=
  BaseX_of "0123456789abcdefghijklmnopqrstuvwxyzABCDEFGHIJKLMNOPQRSTUVWXYZ" "" 0.
Definition base62 :=
  BaseX_of "0123456789ABCDEFGHIJKLMNOPQRSTUVWXYZabcdefghijklmnopqrstuvwxyz" "" 0.
Definition base64 :=
  BaseX_of "ABCDEFGHIJKLMNOPQRSTUVWXYZabcdefghijklmnopqrstuvwxyz0123456789+/" "" 0.
Definition base64_url :=
  BaseX_of "ABCDEFGHIJKLMNOPQRSTUVWXYZabcdefghijklmnopqrstuvwxyz0123456789-_" "" 0.
Definition base64_rfc4648 :=
  BaseX_of "ABCDEFGHIJKLMNOPQRSTUVWXYZabcdefghijklmnopqrstuvwxyz0123456789+/"
           rfc_ignored BLOCK_PADDING.
Definition base64_rfc4648url :=
  BaseX_of "ABCDEFGHIJKLMNOPQRSTUVWXYZabcdefghijklmnopqrstuvwxyz0123456789-_"
           rfc_ignored BLOCK_PADDING.
Definition base66 :=
  BaseX_of "ABCDEFGHIJKLMNOPQRSTUVWXYZabcdefghijklmnopqrstuvwxyz0123456789-_.!~" "" 0.

Local Open Scope Z_scope.

Definition bundled : list BaseX :=
  [base2; base8; base11; base16; base16_rfc4648; base32; base32_hex;
   base32_rfc4648; base32_rfc4648hex; base32_crockford; base36; base58_gmp;
   base58_bitcoin; base58_ripple; base58_flickr; base62_inverted; base62;
   base64; base64_url; base64_rfc4648; base64_rfc4648url; base66].

(** ** Notions the properties are stated with *)

(** The number a digit sequence stands for. *)
Fixpoint value (n : uint_t) : Z :=
  match n with
  | [] => 0
  | d :: n' => d + 2 ^ 64 * value n'
  end.

(** Canonical form: the most significant digit is not 0; the sequence of 0
    is empty. *)
Definition canonical (n : uint_t) : Prop := last n 1 <> 0.

(** Every digit is a 64-bit word. *)
Definition digits_ok (n : uint_t) : Prop := Forall (is_digit 64) n.

(** A value as the operations expect it. *)
Definition well_formed (n : uint_t) : Prop := digits_ok n /\ canonical n.

(** The number a byte string stands for, most significant byte first, and
    the same for digits in any base. *)
Definition be_value (b : Z) (ds : list Z) : Z :=
  fold_left (fun acc d => acc * b + d) ds 0.

(** Construction refuses a configuration when it throws. *)
Definition rejects (alphabet ignored : list Z) (flags : Z) : Prop :=
  exists e, BaseX_ctor alphabet ignored flags = Throw e.

(** The shift the specification gives for the block padding of a value of
    [b] bits. *)
Definition spec_bp (block_size b : Z) : Z :=
  let inner := Z.land (b + 7) (Z.lnot 7) mod block_size in
  if inner =? 0 then 0 else block_size - inner.

(** Replacing the character at index [i]. *)
Definition substitute (e : list Z) (i : nat) (c : Z) : list Z := store e i c.

(** The number a digit list in base [b] stands for, least significant
    digit first. *)
Fixpoint le_digits_value (b : Z) (ds : list Z) : Z :=
  match ds with
  | [] => 0
  | d :: ds' => d + b * le_digits_value b ds'
  end.

(** The integers from [lo] up to 255. *)
Definition codes_from (lo : Z) : list Z :=
  map Z.of_nat (seq (Z.to_nat lo) (256 - Z.to_nat lo)).

(** What the tables of a codec must satisfy for decoding to undo encoding:
    a base from 2 to 256, [ord] the inverse of [chr] on the digits, no
    character of an index from [base] up accepted as a digit, the mask and
    the bit count of the base as the constructor sets them. *)
Definition codec_ok (bx : BaseX) : bool :=
  (2 <=? base bx) && (base bx <=? 256)
  && forallb (fun d => (d <? base bx) && (ord bx (chr bx d) =? d)
                       || (base bx <=? d) && (base bx <=? ord bx (chr bx d)))
             (codes_from 0)
  && (base_mask bx =? base bx - 1)
  && ((base_bits bx =? 0)
      || (0 <? base_bits bx) && (base_bits bx <=? 8) && (base bx =? 2 ^ base_bits bx))
  && ((block_size bx =? 0) || (block_size bx =? base_bits bx)).

(** A character is a byte. *)
Definition is_byte (c : Z) : Prop := 0 <= c < 256.

(** A list of digits of the base [b]. *)
Definition digits_below (b : Z) (ds : list Z) : Prop :=
  Forall (fun d => 0 <= d < b) ds.

(** The number a list of half digits stands for. *)
Definition le32 (hs : list Z) : Z := le_digits_value (2 ^ 32) hs.

(** ** More of [uint_t] *)

(** [bitwise_and(result, lhs, rhs)], lines 779-821: the digits of the
    longer side past the shorter one become 0. *)
Fixpoint and_loop (l r : list Z) : list Z :=
  match l, r with
  | x :: l', y :: r' => Z.land x y :: and_loop l' r'
  | [], _ => map (fun _ => 0) r
  | _, [] => map (fun _ => 0) l
  end.

Definition bitwise_and (lhs rhs : uint_t) : uint_t := trim 0 (and_loop lhs rhs).

(** [bitwise_xor(result, lhs, rhs)], lines 888-930. *)
Fixpoint xor_loop (l r : list Z) : list Z :=
  match l, r with
  | x :: l', y :: r' => Z.lxor x y :: xor_loop l' r'
  | [], _ => r
  | _, [] => l
  end.

Definition bitwise_xor (lhs rhs : uint_t) : uint_t := trim 0 (xor_loop lhs rhs).

(** [sub(lhs, rhs)] by value, lines 1368-1382, which is [operator-]. *)
Definition sub (lhs rhs : uint_t) : uint_t :=
  if negb (to_bool rhs) then lhs else long_sub [] lhs rhs 0 0 0.

(** [operator-()], lines 2062-2064. *)
Definition operator_neg (n : uint_t) : uint_t := sub uint_0 n.

(** [operator++()] and [operator--()], lines 2037-2049: [*this += uint_1()]
    and [*this -= uint_1()], the in-place [add] of lines 1268-1279 and the
    in-place [sub], whose destination is the left operand. *)
Definition operator_inc (n : uint_t) : uint_t := add_into n n uint_1 0 0 0.
Definition operator_dec (n : uint_t) : uint_t := sub_assign n uint_1.

(** [operator[](n)], lines 2073-2077: the bit [n] of the value. *)
Definition operator_index (x : uint_t) (n : Z) : bool :=
  let nd := Z.to_nat (n / 64) in
  let nm := n mod 64 in
  if (nd <? size x)%nat
  then negb (Z.land (Z.shiftr (nth nd x 0) nm) 1 =? 0)
  else false.

(** [operator/] and [operator%], lines 2012-2026. *)
Definition operator_div (lhs rhs : uint_t) : Result uint_t :=
  '(q, _) <- divmod lhs rhs ;; Ok q.

Definition operator_mod (lhs rhs : uint_t) : Result uint_t :=
  '(_, r) <- divmod lhs rhs ;; Ok r.

(** *** [str] for the bases 2 to 36 *)

(** The table of [chr(ord)], lines 687-694: 36 characters, the rest of
    the 256 entries NUL. *)
Definition uint_chr (ord : Z) : Z :=
  nth (Z.to_nat ord) (chars "0123456789abcdefghijklmnopqrstuvwxyz") 0.

(** The [do ... while (shift <= half_digit_bits)] loop, lines 2106-2109:
    the digits it pushes, in order, and the shift it ends with. *)
Fixpoint str_window (fuel : nat) (alphabet_base_bits alphabet_base_mask num shift : Z)
  : list Z * Z :=
  match fuel with
  | O => ([], shift)
  | S fuel =>
      let d := Z.land (Z.shiftr num shift) alphabet_base_mask in
      let shift := shift + alphabet_base_bits in
      if shift <=? 32 then
        let '(ds, shift) :=
          str_window fuel alphabet_base_bits alphabet_base_mask num shift in
        (d :: ds, shift)
      else ([d], shift)
  end.

(** The [for] loop over the half digits, lines 2103-2111. *)
Fixpoint str_halves (i : nat) (alphabet_base_bits alphabet_base_mask : Z)
         (ptr : list Z) (num shift : Z) : list Z * Z * Z :=
  match i with
  | O => ([], num, shift)
  | S i' =>
      let num := Z.shiftr num 32 in
      let num := Z.lor num (wrap 64 (Z.shiftl (hd 0 ptr) 32)) in
      let '(ds, shift) := str_window 33 alphabet_base_bits alphabet_base_mask num shift in
      let shift := shift - 32 in
      let '(ds', num', shift') :=
        str_halves i' alphabet_base_bits alphabet_base_mask (tl ptr) num shift in
      (ds ++ ds', num', shift')
  end.

(** The [while (num)] loop, lines 2113-2116. *)
Fixpoint str_flush (fuel : nat) (alphabet_base_bits alphabet_base_mask num : Z)
  : list Z :=
  match fuel with
  | O => []
  | S fuel =>
      if num =? 0 then []
      else Z.land num alphabet_base_mask
           :: str_flush fuel alphabet_base_bits alphabet_base_mask
                (Z.shiftr num alphabet_base_bits)
  end.

(** The digits of the power-of-two branch, lines 2098-2116, in the order
    they are pushed (least significant first). *)
Definition str_pow2_digits (alphabet_base_bits alphabet_base_mask : Z)
           (num_sz : nat) (n : uint_t) : list Z :=
  let ptr := half_digits n in
  let num := wrap 64 (Z.shiftl (hd 0 ptr) 32) in
  let '(ds, num, shift) :=
    str_halves (num_sz * 2 - 1) alphabet_base_bits alphabet_base_mask (tl ptr) num 0 in
  let num := Z.shiftr num (shift + 32) in
  ds ++ str_flush 64 alphabet_base_bits alphabet_base_mask num.

(** The [do ... while (quotient)] loop of the other bases, lines
    2121-2127: the digits in the order they are pushed. *)
Fixpoint str_general_digits (fuel : nat) (quotient uint_base : uint_t)
  : Result (list Z) :=
  match fuel with
  | O => Throw Diverges
  | S fuel =>
      '(q, r) <- divmod quotient uint_base ;;
      let d := wrap 32 (to_digit r) in
      if to_bool q then
        ds <- str_general_digits fuel q uint_base ;; Ok (d :: ds)
      else Ok [d]
  end.

(** What [str] does: it returns, or throws what the division throws, or
    throws [std::invalid_argument] for a base it does not know. *)
Inductive str_result :=
| Returns (r : Result (list Z))
| Invalid_argument.

(** [str(alphabet_base)], lines 2090-2150. *)
Definition str (n : uint_t) (alphabet_base : Z) : str_result :=
  let num_sz := size n in
  if (2 <=? alphabet_base) && (alphabet_base <=? 36) then
    if negb (Nat.eqb num_sz 0) then
      let alphabet_base_bits := base_bits_of alphabet_base in
      if negb (alphabet_base_bits =? 0) then
        let alphabet_base_mask := alphabet_base - 1 in
        let ds := str_pow2_digits alphabet_base_bits alphabet_base_mask num_sz n in
        let result := map uint_chr ds in
        let result := rev (drop_char (uint_chr 0) (rev result)) in
        Returns (Ok (rev result))
      else
        Returns (ds <- str_general_digits (S (64 * num_sz)) n (uint_of alphabet_base) ;;
                 Ok (rev (map uint_chr ds)))
    else Returns (Ok [uint_chr 0])
  else if alphabet_base =? 256 then Returns (Ok (str_256 n))
  else Invalid_argument.

(** ** More of [BaseX]: one turn of the constructor's loop *)

Definition folds_case (flags : Z) : bool := negb (Z.land flags IGNORE_CASE =? 0).

(** The other case of a letter, as lines 79-83 compute it. *)
Definition other_case (ch : Z) : option Z :=
  if (65 <=? ch) && (ch <=? 90) then Some (ch - 65 + 97)
  else if (97 <=? ch) && (ch <=? 122) then Some (ch - 97 + 65)
  else None.

(** The writes to [_ord] of the turn for the character [ch] with the digit
    [v], lines 77-84. *)
Definition ord_turn (flags ch v : Z) (ord_ : list Z) : list Z :=
  let ord_ := store ord_ (Z.to_nat ch) (wrap 8 v) in
  match (if folds_case flags then other_case ch else None) with
  | Some b => store ord_ (Z.to_nat b) (wrap 8 v)
  | None => ord_
  end.

(** The turn for [ch] writes entry [k] of [_ord]. *)
Definition writes_ord (flags ch : Z) (k : nat) : Prop :=
  Z.to_nat ch = k \/
  (folds_case flags = true /\ exists b, other_case ch = Some b /\ Z.to_nat b = k).

(** An alphabet the constructor makes a consistent codec of: from 2 to
    255 characters, each a byte other than NUL, no character twice and,
    under IGNORE_CASE, no letter in both cases. *)
Definition alphabet_ok (flags : Z) (alphabet : list Z) : Prop :=
  NoDup alphabet /\ Forall (fun c => 0 < c < 256) alphabet /\
  (2 <= length alphabet <= 255)%nat /\
  (forall a b, In a alphabet -> In b alphabet -> a <> b ->
               ~ writes_ord flags a (Z.to_nat b)).

(** * Proofs *)

(** ** Tactics *)

(** Linear arithmetic with the range of a digit unfolded. *)
Ltac dlia := try unfold is_digit in *; lia.

(** The digits of an explicit list are in range. *)
Ltac digits_tac :=
  unfold digits_ok;
  repeat first [apply Forall_nil | apply Forall_cons];
  first [assumption | dlia].

(** Equations between xor expressions, bit by bit. *)
Ltac xor_tac :=
  apply Z.bits_inj'; intros ?n ?Hn;
  rewrite ?Z.lxor_spec, ?Z.bits_0;
  repeat match goal with
         | |- context [Z.testbit ?a ?n] => destruct (Z.testbit a n)
         end;
  reflexivity.


(** ** The product-sum primitive *)

Lemma muladd_fits (w x y a c : Z) :
  0 < w -> is_digit w x -> is_digit w y -> is_digit w a -> is_digit w c ->
  0 <= x * y + a + c < 2 ^ w * 2 ^ w.
Proof.
  unfold is_digit; intros Hw Hx Hy Ha Hc.
  assert (Hp : 0 < 2 ^ w) by (apply Z.pow_pos_nonneg; lia).
  split; [nia|].
  assert (x * y <= (2 ^ w - 1) * (2 ^ w - 1)) by nia.
  nia.
Qed.

Lemma split_wide (w r : Z) :
  0 < w -> 0 <= r < 2 ^ w * 2 ^ w ->
  r / 2 ^ w * 2 ^ w + r mod 2 ^ w = r /\ is_digit w (r / 2 ^ w) /\ is_digit w (r mod 2 ^ w).
Proof.
  intros Hw Hr. unfold is_digit.
  assert (Hp : 0 < 2 ^ w) by (apply Z.pow_pos_nonneg; lia).
  pose proof (Z.div_mod r (2 ^ w)) as Hd.
  pose proof (Z.mod_pos_bound r (2 ^ w) Hp).
  repeat split; try lia.
  - apply Z.div_pos; lia.
  - apply Z.div_lt_upper_bound; lia.
Qed.

(** A product-sum formed in an unsigned type of [w2] >= 2w bits and split
    into two [w]-bit halves. *)
Lemma widening_ok (w w2 x y a c : Z) :
  0 < w -> 2 * w <= w2 ->
  is_digit w x -> is_digit w y -> is_digit w a -> is_digit w c ->
  let r := wrap w2 (x * y + a + c) in
  muladd_wide_ok w x y a c (wrap w (Z.shiftr r w), wrap w r).
Proof.
  intros Hw Hw2 Hx Hy Ha Hc r.
  pose proof (muladd_fits w x y a c Hw Hx Hy Ha Hc) as Hf.
  assert (Hle : 2 ^ w * 2 ^ w <= 2 ^ w2).
  { rewrite <- Z.pow_add_r by lia. apply Z.pow_le_mono_r; lia. }
  assert (Hr : r = x * y + a + c) by (unfold r, wrap; apply Z.mod_small; lia).
  rewrite Hr. unfold muladd_wide_ok, wrap; cbn [fst snd].
  rewrite Z.shiftr_div_pow2 by lia.
  destruct (split_wide w (x * y + a + c) Hw Hf) as (E & H1 & H2).
  rewrite (Z.mod_small (_ / _)) by exact H1.
  auto.
Qed.

(** The branch on [__uint128_t] meets the contract. *)
Lemma _multadd_int128_ok (x y a c : Z) :
  is_digit 64 x -> is_digit 64 y -> is_digit 64 a -> is_digit 64 c ->
  muladd_wide_ok 64 x y a c (_multadd gcc64 x y a c).
Proof.
  intros Hx Hy Ha Hc.
  exact (widening_ok 64 128 x y a c ltac:(lia) ltac:(lia) Hx Hy Ha Hc).
Qed.

(** The widening branches for 32-, 16- and 8-bit digits meet it too. *)
Lemma _multadd_narrow_ok (w x y a c : Z) :
  w = 32 \/ w = 16 \/ w = 8 ->
  is_digit w x -> is_digit w y -> is_digit w a -> is_digit w c ->
  muladd_wide_ok w x y a c (_multadd (plain w) x y a c).
Proof.
  intros [-> | [-> | ->]] Hx Hy Ha Hc.
  - exact (widening_ok 32 64 x y a c ltac:(lia) ltac:(lia) Hx Hy Ha Hc).
  - exact (widening_ok 16 32 x y a c ltac:(lia) ltac:(lia) Hx Hy Ha Hc).
  - exact (widening_ok 8 32 x y a c ltac:(lia) ltac:(lia) Hx Hy Ha Hc).
Qed.

(** C9: on the manually split half-digit branch the sum that forms [v]
    wraps, and the result is not x*y + a + c. *)
Theorem multadd_split_branch_overflows :
  let m := 2 ^ 64 - 1 in
  is_digit 64 m /\
  _multadd portable64 m m m m = (2 ^ 64 - 2 ^ 32 - 1, 2 ^ 64 - 1) /\
  ~ muladd_wide_ok 64 m m m m (_multadd portable64 m m m m).
Proof.
  cbv zeta. split; [unfold is_digit; lia|]. split; [vm_compute; reflexivity|].
  unfold muladd_wide_ok. intros (E & _). vm_compute in E. discriminate E.
Qed.

(** ** [operator~] on 0 *)

(** C8, as the specification has it, fails: [~0] is not 0. *)
Lemma operator_not_zero_is_not_zero : operator_not uint_0 <> uint_0.
Proof. vm_compute. discriminate. Qed.

(** C8, amended: [operator~] applied to 0 returns 1.  The copy that starts
    empty is filled with one all-ones digit and masked to one bit. *)
Theorem operator_not_zero : operator_not uint_0 = uint_1.
Proof. vm_compute. reflexivity. Qed.

(** The in-place overload, which [inv()] calls, does return 0 on 0. *)
Lemma bitwise_inv_inplace_zero : bitwise_inv_inplace uint_0 = uint_0.
Proof. vm_compute. reflexivity. Qed.

(** ** Canonical form *)

Lemma drop_zeros_hd (r : list Z) : hd 1 (drop_zeros r) <> 0.
Proof.
  induction r as [|c r IH]; cbn; [lia|].
  destruct (Z.eqb_spec c 0); [exact IH | cbn; assumption].
Qed.

Lemma last_rev {A} (l : list A) (d : A) : last (rev l) d = hd d l.
Proof.
  destruct l as [|x l]; [reflexivity|].
  cbn [rev hd]. apply last_last.
Qed.

(** Whatever ends in [trim] is canonical. *)
Lemma trim_canonical (mask : Z) (n : uint_t) : canonical (trim mask n).
Proof.
  unfold canonical, trim. rewrite last_rev. apply drop_zeros_hd.
Qed.

(** C5: [strtouint] in base 256 stores the bytes and does not trim: one
    zero byte gives the one-digit sequence [0], nine bytes 0,..,0,1 give
    the two digits 1, 0. *)
Theorem strtouint_256_not_canonical :
  strtouint [0] 256 = Ok [0] /\ ~ canonical [0] /\
  strtouint [0; 0; 0; 0; 0; 0; 0; 0; 1] 256 = Ok [1; 0] /\ ~ canonical [1; 0].
Proof.
  split; [vm_compute; reflexivity|].
  split; [unfold canonical; cbn; lia|].
  split; [vm_compute; reflexivity|].
  unfold canonical; cbn; lia.
Qed.

(** ** The pre-shift of [encode] *)

(** C4: for a value of 256 bits and a block of 6 bits the code shifts by 0
    where the specification gives 2. *)
Theorem encode_bp_wrong_mask :
  let n := [0; 0; 0; 2 ^ 63] in
  well_formed n /\ bits n = 256 /\ block_size base64_rfc4648 = 6 /\
  encode_bp base64_rfc4648 n = 0 /\
  spec_bp (block_size base64_rfc4648) (bits n) = 2.
Proof.
  cbv zeta. split.
  - split; [|unfold canonical; cbn; lia].
    repeat constructor; unfold is_digit; lia.
  - split; [|split; [|split]]; vm_compute; reflexivity.
Qed.

(** Below 249 bits the mask [0xf8] is as good as [~7]. *)
Lemma encode_bp_small (bx : BaseX) (n : uint_t) :
  0 <= bits n <= 248 -> block_size bx <> 0 ->
  encode_bp bx n = spec_bp (block_size bx) (bits n).
Proof.
  intros Hb Hs. unfold encode_bp, spec_bp.
  destruct (Z.eqb_spec (block_size bx) 0) as [E|_]; [contradiction|]. cbn [negb].
  assert (E : Z.land (bits n + 7) 248 = Z.land (bits n + 7) (Z.lnot 7)).
  { apply Z.bits_inj'. intros i Hi.
    rewrite !Z.land_spec, Z.lnot_spec by lia.
    destruct (Z.ltb_spec i 8) as [Hlt|Hge].
    - assert (Hc : i = 0 \/ i = 1 \/ i = 2 \/ i = 3 \/ i = 4 \/ i = 5 \/ i = 6 \/ i = 7) by lia.
      destruct Hc as [-> | [-> | [-> | [-> | [-> | [-> | [-> | ->]]]]]]]; reflexivity.
    - assert (Z.testbit (bits n + 7) i = false) as ->.
      { apply Z.bits_above_log2; [lia|].
        apply Z.lt_le_trans with 8; [|lia].
        destruct (Z.eq_dec (bits n + 7) 0) as [->|Hnz]; [cbn; lia|].
        apply Z.log2_lt_pow2; lia. }
      reflexivity. }
  rewrite E.
  destruct (Z.eqb_spec (Z.land (bits n + 7) (Z.lnot 7) mod block_size bx) 0); reflexivity.
Qed.

(** ** Construction *)

(** C7, as the specification has it, fails: an alphabet with a duplicate
    character, and one that shares a character with the ignored set, are
    both accepted. *)
Lemma ctor_accepts_duplicates :
  ~ NoDup (chars "aa") /\ ~ rejects (chars "aa") [] 0 /\
  In 61 (chars "a=") /\ In 61 (chars "=") /\ ~ rejects (chars "a=") (chars "=") 0.
Proof.
  split; [|split; [|split; [|split]]].
  - intros H. inversion H as [|x l Hin _]; subst. apply Hin. left. reflexivity.
  - intros [e H]. vm_compute in H. discriminate H.
  - right. left. reflexivity.
  - left. reflexivity.
  - intros [e H]. vm_compute in H. discriminate H.
Qed.

(** Within the tables the constructor is its three loops. *)
Lemma BaseX_ctor_in_range (alphabet ignored : list Z) (flags : Z) :
  (1 <= length alphabet <= 256)%nat ->
  BaseX_ctor alphabet ignored flags =
  let base := Z.of_nat (length alphabet) in
  let base_bits := base_bits_of base in
  let ord_ := ctor_ignored (rev ignored) (repeat 255 256) in
  let '(chr_, ord_) :=
    ctor_alphabet (rev alphabet) base flags (repeat 0 256, ord_) in
  Ok {| _chr := chr_;
        _ord := ord_;
        base := base;
        base_size := base_size_of base;
        base_bits := base_bits;
        block_size := if negb (Z.land flags BLOCK_PADDING =? 0) then base_bits else 0;
        base_mask := wrap 64 (base - 1) |}.
Proof.
  intros Hlen. unfold BaseX_ctor.
  destruct (Z.leb_spec 1 (Z.of_nat (length alphabet))); [|lia].
  destruct (Z.leb_spec (Z.of_nat (length alphabet)) 256); [|lia].
  reflexivity.
Qed.

Lemma BaseX_ctor_Ok_length (alphabet ignored : list Z) (flags : Z) (bx : BaseX) :
  BaseX_ctor alphabet ignored flags = Ok bx -> (1 <= length alphabet <= 256)%nat.
Proof.
  unfold BaseX_ctor.
  destruct (Z.leb_spec 1 (Z.of_nat (length alphabet)));
    destruct (Z.leb_spec (Z.of_nat (length alphabet)) 256); cbn [andb];
    try discriminate. lia.
Qed.

(** The constructor returns for every alphabet whose length is within
    the tables; it has no other test. *)
Lemma ctor_in_range (alphabet ignored : list Z) (flags : Z) :
  (1 <= length alphabet <= 256)%nat ->
  exists bx, BaseX_ctor alphabet ignored flags = Ok bx /\
             base bx = Z.of_nat (length alphabet).
Proof.
  intros Hlen. rewrite BaseX_ctor_in_range by exact Hlen. cbv zeta.
  destruct (ctor_alphabet _ _ _ _) as [chr_ ord_].
  eexists. split; reflexivity.
Qed.

(** C7, amended: construction checks nothing and never fails.  For every
    alphabet of 1 to 256 characters, every ignored set and all flags -
    duplicate characters and characters shared with the ignored set
    included - it yields a codec whose base is the length of the
    alphabet. *)
Theorem ctor_never_rejects (alphabet ignored : list Z) (flags : Z) :
  (1 <= length alphabet <= 256)%nat ->
  Forall is_byte alphabet -> Forall is_byte ignored ->
  ~ rejects alphabet ignored flags /\
  exists bx, BaseX_ctor alphabet ignored flags = Ok bx /\
             base bx = Z.of_nat (length alphabet).
Proof.
  intros Hlen _ _.
  destruct (ctor_in_range alphabet ignored flags Hlen) as (bx & E & Hb).
  split.
  - intros [e H]. unfold rejects in *. rewrite E in H. discriminate H.
  - exists bx. split; assumption.
Qed.

Lemma ctor_never_rejects_witness :
  ~ rejects (chars "a=a") (chars "=") IGNORE_CASE /\
  exists bx, BaseX_ctor (chars "a=a") (chars "=") IGNORE_CASE = Ok bx /\
             base bx = Z.of_nat (length (chars "a=a")).
Proof.
  apply (ctor_never_rejects (chars "a=a") (chars "=") IGNORE_CASE).
  - cbn. lia.
  - vm_compute. repeat (constructor; [split; [discriminate | reflexivity]|]). constructor.
  - vm_compute. repeat (constructor; [split; [discriminate | reflexivity]|]). constructor.
Defined.

(** ** The empty string *)

(** C10: without checksum the empty string decodes to 0 and raises
    nothing, while 0 encodes to the one character [chr(0)]. *)
Theorem decode_empty (bx : BaseX) :
  decode bx [] false = Ok uint_0 /\
  (forall checksum, encode bx uint_0 checksum = Ok [chr bx 0]).
Proof.
  split; [|intros; reflexivity].
  unfold decode. cbn [andb length Nat.eqb Z.of_nat firstn nth Z.to_nat].
  rewrite Z.mul_0_l, Zmod_0_l.
  destruct (negb (block_size bx =? 0)), (negb (base_bits bx =? 0)); reflexivity.
Qed.

(** ** Division: the general case *)

(** C1: [divmod] of 2^128 by 2^64 + 1, two canonical values, goes through
    [knuth_divmod] and returns quotient 0 and remainder 0, where the
    quotient is 2^64 - 1 and the remainder 1.  At the last quotient digit
    the top digit of the running remainder equals the top digit of the
    divisor, and the quotient of [_divmod] does not fit a digit. *)
Theorem divmod_knuth_breaks_identity :
  let a := [0; 0; 1] in
  let b := [1; 1] in
  well_formed a /\ well_formed b /\ value a = 2 ^ 128 /\ value b = 2 ^ 64 + 1 /\
  divmod a b = Ok ([], []) /\
  value [] * value b + value [] <> value a /\
  _divmod (2 ^ 63) 0 (2 ^ 63) = (0, 0).
Proof.
  cbv zeta.
  assert (Hd : forall l, Forall (fun x => (0 <=? x) && (x <? 2 ^ 64) = true) l -> digits_ok l).
  { intros l H. unfold digits_ok. eapply Forall_impl; [|exact H].
    intros x Hx. unfold is_digit. apply andb_prop in Hx. lia. }
  split; [|split; [|split; [|split; [|split; [|split]]]]].
  - split; [apply Hd; repeat constructor | unfold canonical; cbn; lia].
  - split; [apply Hd; repeat constructor | unfold canonical; cbn; lia].
  - vm_compute; reflexivity.
  - vm_compute; reflexivity.
  - vm_compute; reflexivity.
  - vm_compute; discriminate.
  - vm_compute; reflexivity.
Qed.

(** ** Where the round trip, the ignored characters and the checksum
       differ from the specification *)

(** C2, as the specification has it, fails: a leading zero byte does not
    come back. *)
Lemma round_trip_loses_leading_zero :
  In base58_bitcoin bundled /\
  (e <- encode_bytes base58_bitcoin [0; 65] false ;;
   decode_bytes base58_bitcoin e false) = Ok [65] /\
  (e <- encode_bytes base58_bitcoin [0; 65] false ;;
   decode_bytes base58_bitcoin e false) <> Ok [0; 65].
Proof.
  split; [do 12 right; left; reflexivity|].
  split; [vm_compute; reflexivity|].
  intros H. vm_compute in H. discriminate H.
Qed.

(** The empty byte string is refused by [strtouint]. *)
Lemma encode_bytes_empty (bx : BaseX) (checksum : bool) :
  encode_bytes bx [] checksum = Throw runtime_error.
Proof. reflexivity. Qed.

(** C3, as the specification has it, fails: a blank between two digits of
    base16 (rfc4648) is decoded as the digit 0. *)
Lemma ignored_character_is_not_skipped :
  In 32 (chars rfc_ignored) /\
  decode base16_rfc4648 (chars "1 1") false = Ok (uint_of 257) /\
  decode base16_rfc4648 (chars "11") false = Ok (uint_of 17) /\
  decode base16_rfc4648 (chars "1 1") false <> decode base16_rfc4648 (chars "11") false.
Proof.
  split; [right; left; reflexivity|].
  split; [vm_compute; reflexivity|].
  split; [vm_compute; reflexivity|].
  intros H. vm_compute in H. discriminate H.
Qed.

(** C6, as the specification has it, fails: in base16, which folds case,
    putting [A] for the [a] of a checksummed string leaves it valid. *)
Lemma checksum_misses_case_change :
  encode base16 (uint_of 171) true = Ok (chars "ab3") /\
  substitute (chars "ab3") 0 65 = chars "Ab3" /\
  65 <> nth 0 (chars "ab3") 0 /\
  is_valid base16 (chars "Ab3") true = true.
Proof.
  split; [|split; [|split]]; try (vm_compute; reflexivity).
  vm_compute. discriminate.
Qed.

(** ** Digit sequences and their values *)

Lemma pow64_pos : 0 < 2 ^ 64.
Proof. reflexivity. Qed.

Lemma value_app (l r : list Z) :
  value (l ++ r) = value l + 2 ^ (64 * Z.of_nat (length l)) * value r.
Proof.
  induction l as [|x l IH].
  { cbn [app value length]. change (Z.of_nat 0) with 0. rewrite Z.mul_0_r.
    change (2 ^ 0) with 1. lia. }
  cbn [app value length]. rewrite IH.
  replace (64 * Z.of_nat (S (length l))) with (64 + 64 * Z.of_nat (length l)) by lia.
  rewrite Z.pow_add_r by lia. ring.
Qed.

Lemma value_bound (l : list Z) :
  digits_ok l -> 0 <= value l < 2 ^ (64 * Z.of_nat (length l)).
Proof.
  unfold digits_ok, is_digit. induction 1 as [|x l Hx Hl IH].
  - cbn. lia.
  - cbn [value length].
    replace (64 * Z.of_nat (S (length l))) with (64 + 64 * Z.of_nat (length l)) by lia.
    rewrite Z.pow_add_r by lia. nia.
Qed.

Lemma value_repeat_0 (k : nat) : value (repeat 0 k) = 0.
Proof. induction k as [|k IH]; cbn [repeat value]; lia. Qed.

Lemma digits_ok_app (l r : list Z) :
  digits_ok (l ++ r) <-> digits_ok l /\ digits_ok r.
Proof. unfold digits_ok. apply Forall_app. Qed.

Lemma digits_ok_rev (l : list Z) : digits_ok (rev l) <-> digits_ok l.
Proof.
  unfold digits_ok. rewrite !Forall_forall.
  split; intros H x Hx; apply H; [rewrite <- in_rev | rewrite in_rev]; exact Hx.
Qed.

Lemma digits_ok_repeat_0 (k : nat) : digits_ok (repeat 0 k).
Proof.
  unfold digits_ok. apply Forall_forall. intros x Hx.
  apply repeat_spec in Hx. subst. unfold is_digit. lia.
Qed.

(** Zeros at the most significant end change nothing. *)
Lemma drop_zeros_value (r : list Z) : value (rev (drop_zeros r)) = value (rev r).
Proof.
  induction r as [|c r IH]; [reflexivity|].
  cbn [drop_zeros]. destruct (Z.eqb_spec c 0) as [->|Hc]; [|reflexivity].
  rewrite IH. cbn [rev]. rewrite value_app. cbn [value]. lia.
Qed.

Lemma drop_zeros_digits_ok (r : list Z) : digits_ok r -> digits_ok (drop_zeros r).
Proof.
  unfold digits_ok. induction 1 as [|c r Hc Hr IH]; [constructor|].
  cbn [drop_zeros]. destruct (c =? 0); [exact IH | constructor; assumption].
Qed.

Lemma trim_0_eq (n : uint_t) : trim 0 n = rev (drop_zeros (rev n)).
Proof. unfold trim. cbn [Z.land]. destruct (rev n); reflexivity. Qed.

Lemma trim_value (n : uint_t) : value (trim 0 n) = value n.
Proof. rewrite trim_0_eq, drop_zeros_value, rev_involutive. reflexivity. Qed.

Lemma trim_digits_ok (n : uint_t) : digits_ok n -> digits_ok (trim 0 n).
Proof.
  intros H. rewrite trim_0_eq. apply digits_ok_rev, drop_zeros_digits_ok, digits_ok_rev, H.
Qed.

Lemma trim_well_formed (n : uint_t) : digits_ok n -> well_formed (trim 0 n).
Proof. intros H. split; [apply trim_digits_ok, H | apply trim_canonical]. Qed.

(** A canonical sequence is not changed by [trim]. *)
Lemma drop_zeros_id (r : list Z) : hd 1 r <> 0 -> drop_zeros r = r.
Proof.
  destruct r as [|c r]; [reflexivity|]. cbn [hd drop_zeros]. intros H.
  destruct (Z.eqb_spec c 0); [contradiction | reflexivity].
Qed.

Lemma trim_canonical_id (n : uint_t) : canonical n -> trim 0 n = n.
Proof.
  unfold canonical. intros H. rewrite trim_0_eq, drop_zeros_id, rev_involutive; [reflexivity|].
  rewrite <- last_rev, rev_involutive. exact H.
Qed.

(** The value of a well-formed sequence lies in the range its length gives. *)
Lemma value_lower (n : uint_t) :
  well_formed n -> n <> [] -> 2 ^ (64 * (Z.of_nat (length n) - 1)) <= value n.
Proof.
  intros [Hd Hc] Hn.
  destruct (exists_last Hn) as (l & top & ->).
  unfold canonical in Hc. rewrite last_last in Hc.
  apply digits_ok_app in Hd. destruct Hd as [Hl Ht].
  inversion Ht as [|? ? Htop _]; subst. unfold is_digit in Htop.
  rewrite value_app, length_app. cbn [length value].
  replace (64 * (Z.of_nat (length l + 1) - 1)) with (64 * Z.of_nat (length l)) by lia.
  pose proof (value_bound l Hl).
  assert (0 < 2 ^ (64 * Z.of_nat (length l))) by (apply Z.pow_pos_nonneg; lia).
  nia.
Qed.

Lemma well_formed_zero (n : uint_t) : well_formed n -> (value n = 0 <-> n = []).
Proof.
  intros Hw. split; [|intros ->; reflexivity].
  intros Hv. destruct n as [|x n]; [reflexivity|].
  pose proof (value_lower _ Hw ltac:(discriminate)) as Hl.
  assert (0 < 2 ^ (64 * (Z.of_nat (length (x :: n)) - 1))).
  { apply Z.pow_pos_nonneg; [lia|]. cbn [length]. lia. }
  lia.
Qed.

Lemma well_formed_nil : well_formed [].
Proof. split; [constructor | unfold canonical; cbn; lia]. Qed.

Lemma canonical_tail (x : Z) (n : uint_t) : n <> [] -> canonical (x :: n) -> canonical n.
Proof. unfold canonical. destruct n; [congruence | cbn [last]; auto]. Qed.

(** Two well-formed sequences of one value are the same sequence. *)
Lemma value_inj (a b : uint_t) :
  well_formed a -> well_formed b -> value a = value b -> a = b.
Proof.
  revert b. induction a as [|x a IH]; intros b Ha Hb Hv.
  - symmetry. apply (well_formed_zero b Hb). rewrite <- Hv. reflexivity.
  - destruct b as [|y b].
    + apply (well_formed_zero _ Ha). exact Hv.
    + destruct Ha as [Hda Hca], Hb as [Hdb Hcb].
      inversion Hda as [|? ? Hx Hda']; subst. inversion Hdb as [|? ? Hy Hdb']; subst.
      unfold is_digit in Hx, Hy. cbn [value] in Hv.
      assert (Hxy : x = y /\ value a = value b).
      { pose proof pow64_pos.
        assert (x mod 2 ^ 64 = y mod 2 ^ 64).
        { replace x with (x + 2 ^ 64 * value a - value a * 2 ^ 64) at 1 by ring.
          rewrite Hv. replace (y + 2 ^ 64 * value b - value a * 2 ^ 64)
            with (y + (value b - value a) * 2 ^ 64) by ring.
          apply Z.mod_add. lia. }
        rewrite !Z.mod_small in H0 by lia. split; [assumption | nia]. }
      destruct Hxy as [-> Hab]. f_equal.
      destruct a as [|a0 a], b as [|b0 b]; [reflexivity| | |].
      * exfalso. assert (Hwb : well_formed (b0 :: b)).
        { split; [assumption | eapply canonical_tail; [discriminate | eassumption]]. }
        symmetry in Hab. apply (well_formed_zero _ Hwb) in Hab. discriminate.
      * exfalso. assert (Hwa : well_formed (a0 :: a)).
        { split; [assumption | eapply canonical_tail; [discriminate | eassumption]]. }
        apply (well_formed_zero _ Hwa) in Hab. discriminate.
      * apply IH; [split | split |]; try assumption;
          (eapply canonical_tail; [discriminate | eassumption]).
Qed.

Lemma uint_of_value (d : Z) : is_digit 64 d -> value (uint_of d) = d.
Proof.
  unfold is_digit, uint_of, wrap. intros H.
  destruct (Z.eqb_spec d 0) as [->|Hd]; [reflexivity|].
  cbn [value]. rewrite Z.mod_small by lia. lia.
Qed.

Lemma uint_of_well_formed (d : Z) : is_digit 64 d -> well_formed (uint_of d).
Proof.
  unfold is_digit, uint_of, wrap. intros H.
  destruct (Z.eqb_spec d 0) as [->|Hd]; [apply well_formed_nil|].
  rewrite Z.mod_small by lia.
  split; [digits_tac | unfold canonical; cbn; lia].
Qed.

Lemma uint_of_nonzero (d : Z) : is_digit 64 d -> d <> 0 -> uint_of d = [d].
Proof.
  unfold is_digit, uint_of, wrap. intros H Hd.
  destruct (Z.eqb_spec d 0); [contradiction|].
  rewrite Z.mod_small by lia. reflexivity.
Qed.

Lemma to_bool_nil (n : uint_t) : to_bool n = false <-> n = [].
Proof. unfold to_bool, size. destruct n; cbn; split; congruence. Qed.

Lemma to_bool_value (n : uint_t) :
  well_formed n -> to_bool n = negb (value n =? 0).
Proof.
  intros Hw. destruct n as [|x n]; [reflexivity|].
  cbn [to_bool size length Nat.eqb negb].
  destruct (Z.eqb_spec (value (x :: n)) 0) as [E|]; [|reflexivity].
  apply (well_formed_zero _ Hw) in E. discriminate.
Qed.

(** ** The primitives on [gcc64] *)

Lemma land_high_low (hi lo n : Z) :
  0 <= n -> 0 <= lo < 2 ^ n -> Z.land (hi * 2 ^ n) lo = 0.
Proof.
  intros Hn Hlo. apply Z.bits_inj'. intros m Hm.
  rewrite Z.land_spec, Z.bits_0.
  destruct (Z.ltb_spec m n).
  - rewrite Z.mul_pow2_bits_low by lia. reflexivity.
  - rewrite <- (Z.mod_small lo (2 ^ n)) by lia.
    rewrite Z.mod_pow2_bits_high by lia. apply andb_false_r.
Qed.

Lemma lor_high_low (hi lo n : Z) :
  0 <= n -> 0 <= lo < 2 ^ n -> Z.lor (hi * 2 ^ n) lo = hi * 2 ^ n + lo.
Proof.
  intros Hn Hlo. pose proof (land_high_low hi lo n Hn Hlo) as H.
  rewrite <- Z.lxor_lor by exact H. symmetry. apply Z.add_nocarry_lxor. exact H.
Qed.

Lemma pow128 : 2 ^ 128 = 2 ^ 64 * 2 ^ 64.
Proof. reflexivity. Qed.

(** [_divmod] divides the two-digit number (x_hi, x_lo) when [x_hi < y],
    which keeps the quotient within a digit. *)
Lemma _divmod_spec (x_hi x_lo y : Z) :
  0 <= x_hi < y -> is_digit 64 x_lo -> is_digit 64 y ->
  let x := x_hi * 2 ^ 64 + x_lo in
  _divmod x_hi x_lo y = (x / y, x mod y) /\ is_digit 64 (x / y) /\ 0 <= x mod y < y.
Proof.
  intros Hhi Hlo Hy x. unfold is_digit in *.
  assert (Hx : 0 <= x < y * 2 ^ 64) by (unfold x; nia).
  assert (Hq : 0 <= x / y < 2 ^ 64).
  { split; [apply Z.div_pos; lia | apply Z.div_lt_upper_bound; lia]. }
  assert (Hr : 0 <= x mod y < y) by (apply Z.mod_pos_bound; lia).
  split; [|split; assumption].
  unfold _divmod, wrap. rewrite Z.shiftl_mul_pow2 by lia.
  rewrite (Z.mod_small (x_hi * 2 ^ 64)) by (rewrite pow128; nia).
  rewrite lor_high_low by lia. fold x.
  rewrite !Z.mod_small by lia. reflexivity.
Qed.

Lemma _addcarry_spec (x y c : Z) :
  is_digit 64 x -> is_digit 64 y -> 0 <= c <= 1 ->
  let r := _addcarry x y c in
  snd r + 2 ^ 64 * fst r = x + y + c /\ is_digit 64 (snd r) /\ 0 <= fst r <= 1.
Proof.
  intros Hx Hy Hc r. unfold is_digit in *. unfold r, _addcarry, wrap. cbn [fst snd].
  rewrite (Z.mod_small (x + y + c) (2 ^ 128)) by (rewrite pow128; nia).
  rewrite Z.shiftr_div_pow2 by lia.
  pose proof (Z.div_mod (x + y + c) (2 ^ 64) ltac:(lia)) as Hdm.
  pose proof (Z.mod_pos_bound (x + y + c) (2 ^ 64) ltac:(lia)) as Hm.
  assert (Hq : 0 <= (x + y + c) / 2 ^ 64 <= 1).
  { split; [apply Z.div_pos; lia|].
    assert ((x + y + c) / 2 ^ 64 < 2) by (apply Z.div_lt_upper_bound; lia). lia. }
  destruct (Z.eqb_spec ((x + y + c) / 2 ^ 64) 0) as [E|E]; split; try lia.
Qed.

Lemma _multadd_spec (x y a c : Z) :
  is_digit 64 x -> is_digit 64 y -> is_digit 64 a -> is_digit 64 c ->
  let r := _multadd gcc64 x y a c in
  snd r + 2 ^ 64 * fst r = x * y + a + c /\ is_digit 64 (fst r) /\ is_digit 64 (snd r).
Proof.
  intros Hx Hy Ha Hc r.
  destruct (_multadd_int128_ok x y a c Hx Hy Ha Hc) as (E & H1 & H2).
  fold r in E, H1, H2. split; [lia | split; assumption].
Qed.

(** ** Division by one digit *)

Lemma value_rev_cons (x : Z) (l : list Z) :
  value (rev (x :: l)) = value (rev l) + 2 ^ (64 * Z.of_nat (length l)) * x.
Proof. cbn [rev]. rewrite value_app, length_rev. cbn [value]. lia. Qed.

Lemma pow64_succ (k : nat) :
  2 ^ (64 * Z.of_nat (S k)) = 2 ^ 64 * 2 ^ (64 * Z.of_nat k).
Proof.
  replace (64 * Z.of_nat (S k)) with (64 + 64 * Z.of_nat k) by lia.
  apply Z.pow_add_r; lia.
Qed.

Lemma single_divmod_loop_spec (rl : list Z) (n : Z) :
  digits_ok rl -> is_digit 64 n ->
  forall r, 0 <= r < n ->
  let '(qs, r') := single_divmod_loop rl n r in
  value (rev qs) * n + r' = r * 2 ^ (64 * Z.of_nat (length rl)) + value (rev rl) /\
  digits_ok qs /\ 0 <= r' < n /\ length qs = length rl.
Proof.
  intros Hd Hn. induction Hd as [|x rest Hx Hrest IH]; intros r Hr.
  - cbn. split; [lia | split; [constructor | split; [lia | reflexivity]]].
  - cbn [single_divmod_loop].
    destruct (_divmod_spec r x n Hr Hx Hn) as (E & Hq & Hr1). rewrite E.
    specialize (IH _ Hr1).
    destruct (single_divmod_loop rest n ((r * 2 ^ 64 + x) mod n)) as [qs r2].
    destruct IH as (IHv & IHd & IHr & IHl).
    split; [|split; [constructor; assumption | split; [assumption | cbn [length]; congruence]]].
    rewrite !value_rev_cons, IHl. cbn [length]. rewrite pow64_succ.
    pose proof (Z.div_mod (r * 2 ^ 64 + x) n ltac:(lia)) as Hdm.
    set (P := 2 ^ (64 * Z.of_nat (length rest))) in *.
    set (q := (r * 2 ^ 64 + x) / n) in *.
    set (m := (r * 2 ^ 64 + x) mod n) in *.
    replace (r * (2 ^ 64 * P)) with (P * (r * 2 ^ 64 + x) - P * x) by ring.
    rewrite Hdm. lia.
Qed.

Lemma compare_digit_1 (b : Z) : b <> 1 -> (compare [b] uint_1 =? 0) = false.
Proof.
  intros Hb. unfold compare, uint_1, uint_of.
  cbn [Z.eqb size length Nat.ltb Nat.leb rev app compare_from].
  change (wrap 64 1) with 1.
  destruct (Z.eqb_spec b 1); [contradiction|].
  destruct (b >? 1); reflexivity.
Qed.

(** [divmod] by a one-digit divisor [b >= 2]: the fast paths and the
    single-digit sweep give the quotient and the remainder, well formed.
    The kernel of the general case plays no part. *)
Lemma divmod_digit (general : uint_t -> uint_t -> uint_t * uint_t)
      (lhs : uint_t) (b : Z) :
  well_formed lhs -> 2 <= b < 2 ^ 64 ->
  exists q r, divmod_with general lhs [b] = Ok (q, r) /\
              well_formed q /\ well_formed r /\
              value q = value lhs / b /\ value r = value lhs mod b.
Proof.
  intros [Hd Hc] Hb.
  assert (Hbd : is_digit 64 b) by (unfold is_digit; lia).
  unfold divmod_with. cbn [to_bool size length Nat.eqb negb].
  rewrite compare_digit_1 by lia.
  destruct lhs as [|a [|a2 rest]].
  - (* 0 / b *)
    cbn. exists [], []. rewrite ?Z.div_0_l, ?Zmod_0_l by lia.
    repeat split; try apply well_formed_nil.
  - (* native division *)
    cbn [length Nat.eqb andb hd].
    inversion Hd as [|? ? Ha _]; subst. unfold is_digit in Ha.
    assert (Hq : is_digit 64 (a / b)).
    { unfold is_digit. split; [apply Z.div_pos; lia|].
      apply Z.div_lt_upper_bound; nia. }
    assert (Hr : is_digit 64 (a mod b)).
    { unfold is_digit. pose proof (Z.mod_pos_bound a b ltac:(lia)). lia. }
    exists (uint_of (a / b)), (uint_of (a mod b)).
    rewrite !uint_of_value by assumption. cbn [value]. rewrite Z.mul_0_r, Z.add_0_r.
    split; [reflexivity|].
    split; [apply uint_of_well_formed; assumption|].
    split; [apply uint_of_well_formed; assumption|].
    split; reflexivity.
  - (* the sweep *)
    cbn [length Nat.eqb andb].
    assert (Hcmp : compare (a :: a2 :: rest) [b] = 1).
    { unfold compare. cbn [size length]. reflexivity. }
    rewrite Hcmp. cbn [Z.eqb Z.ltb Z.compare orb].
    unfold single_divmod. cbn [hd].
    pose proof (single_divmod_loop_spec (rev (a :: a2 :: rest)) b
                  (proj2 (digits_ok_rev _) Hd) Hbd 0 ltac:(lia)) as H.
    destruct (single_divmod_loop (rev (a :: a2 :: rest)) b 0) as [qs r].
    destruct H as (Hv & Hqs & Hr & _).
    rewrite rev_involutive, Z.mul_0_l, Z.add_0_l in Hv.
    assert (Hrd : is_digit 64 r) by (unfold is_digit; lia).
    exists (trim 0 (rev qs)), (uint_of r).
    rewrite trim_value, uint_of_value by assumption.
    split; [reflexivity|].
    split; [apply trim_well_formed, digits_ok_rev, Hqs|].
    split; [apply uint_of_well_formed, Hrd|].
    split.
    + apply Z.div_unique_pos with r; lia.
    + apply Z.mod_unique_pos with (value (rev qs)); lia.
Qed.

(** The split of a shift amount below a digit: no whole digit, [k] bits. *)
Lemma shift_amounts_small (k : Z) : 0 < k < 64 -> shift_amounts (uint_of k) = (O, k).
Proof.
  intros Hk. unfold shift_amounts.
  rewrite uint_of_nonzero by dlia.
  change (uint_of 64) with [64].
  unfold divmod_with. cbn [to_bool size length Nat.eqb negb andb hd].
  rewrite Z.div_small, Z.mod_small by lia.
  rewrite (uint_of_nonzero k) by dlia. reflexivity.
Qed.

(** ** Shift, or, multiplication and addition as [decode] uses them *)

Lemma lshift_loop_spec (k : Z) (l : list Z) :
  0 < k < 64 -> digits_ok l ->
  forall c, 0 <= c < 2 ^ k ->
  value (lshift_loop l k c) = value l * 2 ^ k + c /\ digits_ok (lshift_loop l k c).
Proof.
  intros Hk Hl. assert (Hk64 : 2 ^ k * 2 ^ (64 - k) = 2 ^ 64).
  { rewrite <- Z.pow_add_r by lia. f_equal. lia. }
  assert (Hpk : 0 < 2 ^ k) by (apply Z.pow_pos_nonneg; lia).
  assert (Hpk' : 0 < 2 ^ (64 - k)) by (apply Z.pow_pos_nonneg; lia).
  assert (Hlt : 2 ^ k < 2 ^ 64) by (apply Z.pow_lt_mono_r; lia).
  induction Hl as [|x l Hx Hl IH]; intros c Hc.
  - cbn [lshift_loop value]. destruct (Z.eqb_spec c 0) as [->|Hc0].
    + split; [reflexivity | constructor].
    + cbn [value]. split; [lia|]. digits_tac.
  - cbn [lshift_loop value]. unfold is_digit in Hx.
    rewrite Z.shiftl_mul_pow2, Z.shiftr_div_pow2 by lia.
    rewrite lor_high_low by lia.
    assert (Hq : (x * 2 ^ k + c) / 2 ^ 64 = x / 2 ^ (64 - k)).
    { rewrite <- Hk64, <- Z.div_div by lia. f_equal.
      rewrite Z.div_add_l by lia. rewrite (Z.div_small c) by lia. lia. }
    assert (Hc' : 0 <= x / 2 ^ (64 - k) < 2 ^ k).
    { split; [apply Z.div_pos; lia | apply Z.div_lt_upper_bound; lia]. }
    destruct (IH _ Hc') as [IHv IHd].
    split.
    + rewrite IHv. unfold wrap.
      pose proof (Z.div_mod (x * 2 ^ k + c) (2 ^ 64) ltac:(lia)) as Hdm.
      rewrite Hq in Hdm. lia.
    + constructor; [|exact IHd]. unfold is_digit, wrap. apply Z.mod_pos_bound. lia.
Qed.

(** [n << k] for a bit count [k] below the digit width. *)
Lemma bitwise_lshift_small (n : uint_t) (k : Z) :
  0 < k < 64 -> digits_ok n ->
  value (bitwise_lshift n (uint_of k)) = value n * 2 ^ k /\
  well_formed (bitwise_lshift n (uint_of k)).
Proof.
  intros Hk Hn. unfold bitwise_lshift.
  rewrite shift_amounts_small by exact Hk.
  rewrite (uint_of_nonzero k) by dlia.
  cbn [to_bool size length Nat.eqb negb repeat app].
  destruct (Z.eqb_spec k 0); [lia|].
  assert (H0 : 0 <= 0 < 2 ^ k) by (split; [lia | apply Z.pow_pos_nonneg; lia]).
  destruct (lshift_loop_spec k n Hk Hn 0 H0) as [Hv Hd].
  rewrite trim_value, Hv. split; [lia | apply trim_well_formed, Hd].
Qed.

Lemma bitwise_lshift_0 (n : uint_t) : bitwise_lshift n (uint_of 0) = n.
Proof. reflexivity. Qed.

Lemma or_loop_nil_r (l : list Z) : or_loop l [] = l.
Proof. destruct l; reflexivity. Qed.

(** [n | d] for a digit [d] below 2^k when 2^k divides [n]. *)
Lemma bitwise_or_digit (n : uint_t) (k d : Z) :
  0 < k < 64 -> digits_ok n -> value n mod 2 ^ k = 0 -> 0 <= d < 2 ^ k ->
  value (bitwise_or n (uint_of d)) = value n + d /\
  well_formed (bitwise_or n (uint_of d)).
Proof.
  intros Hk Hn Hm Hd. unfold bitwise_or.
  assert (Hpk : 0 < 2 ^ k) by (apply Z.pow_pos_nonneg; lia).
  assert (Hlt : 2 ^ k < 2 ^ 64) by (apply Z.pow_lt_mono_r; lia).
  destruct (Z.eq_dec d 0) as [->|Hd0].
  - change (uint_of 0) with (@nil Z). rewrite or_loop_nil_r, trim_value.
    split; [lia | apply trim_well_formed, Hn].
  - rewrite (uint_of_nonzero d) by dlia.
    destruct n as [|x n].
    + cbn [or_loop]. rewrite trim_value. cbn [value].
      split; [lia|]. apply trim_well_formed. digits_tac.
    + cbn [or_loop]. rewrite or_loop_nil_r, trim_value. cbn [value] in *.
      inversion Hn as [|? ? Hx Hn']; subst. unfold is_digit in Hx.
      assert (Hxm : x mod 2 ^ k = 0).
      { assert (E : 2 ^ 64 = 2 ^ (64 - k) * 2 ^ k).
        { rewrite <- Z.pow_add_r by lia. f_equal. lia. }
        rewrite E in Hm.
        replace (x + 2 ^ (64 - k) * 2 ^ k * value n)
          with (x + (2 ^ (64 - k) * value n) * 2 ^ k) in Hm by ring.
        rewrite Z.mod_add in Hm by lia. exact Hm. }
      assert (Hx' : x = x / 2 ^ k * 2 ^ k).
      { pose proof (Z.div_mod x (2 ^ k) ltac:(lia)). lia. }
      assert (Hor : Z.lor x d = x + d).
      { rewrite Hx' at 1. rewrite lor_high_low by lia. lia. }
      rewrite Hor. split; [lia|]. apply trim_well_formed.
      constructor; [|exact Hn'].
      unfold is_digit. split; [lia|].
      assert (x / 2 ^ k < 2 ^ (64 - k)).
      { apply Z.div_lt_upper_bound; [lia|]. rewrite <- Z.pow_add_r by lia.
        replace (k + (64 - k)) with 64 by lia. lia. }
      replace (2 ^ 64) with (2 ^ (64 - k) * 2 ^ k)
        by (rewrite <- Z.pow_add_r by lia; f_equal; lia).
      nia.
Qed.

Lemma single_mult_loop_spec (n : Z) (l : list Z) :
  is_digit 64 n -> digits_ok l ->
  forall c, is_digit 64 c ->
  value (single_mult_loop l n c) = value l * n + c /\
  digits_ok (single_mult_loop l n c).
Proof.
  intros Hn Hl. induction Hl as [|x l Hx Hl IH]; intros c Hc.
  - cbn [single_mult_loop value]. destruct (Z.eqb_spec c 0) as [->|].
    + split; [reflexivity | digits_tac].
    + split; [lia | digits_tac].
  - cbn [single_mult_loop].
    assert (H0 : is_digit 64 0) by dlia.
    pose proof (_multadd_spec x n 0 c Hx Hn H0 Hc) as H.
    destruct (_multadd gcc64 x n 0 c) as [hi lo]. cbn [fst snd] in H.
    destruct H as (E & Hhi & Hlo).
    destruct (IH _ Hhi) as [IHv IHd].
    cbn [value]. rewrite IHv. split; [lia | constructor; assumption].
Qed.

Lemma single_mult_spec (l : uint_t) (n : Z) :
  is_digit 64 n -> digits_ok l ->
  value (single_mult l [n]) = value l * n /\ well_formed (single_mult l [n]).
Proof.
  intros Hn Hl. unfold single_mult. cbn [hd].
  destruct (single_mult_loop_spec n l Hn Hl 0 ltac:(dlia)) as [Hv Hd].
  rewrite trim_value, Hv. split; [lia | apply trim_well_formed, Hd].
Qed.

Lemma compare_1 (n : uint_t) :
  digits_ok n -> (compare n uint_1 =? 0) = true -> n = [1].
Proof.
  intros Hn. unfold compare, uint_1. change (uint_of 1) with [1].
  destruct n as [|a [|a2 n]]; cbn [size length Nat.ltb Nat.leb]; try discriminate.
  cbn [rev app compare_from].
  destruct (Z.eqb_spec a 1) as [->|]; [reflexivity|].
  destruct (a >? 1); discriminate.
Qed.

(** [n * b] for a one-digit [b >= 2]: [mult] goes through [karatsuba_mult]
    and [long_mult] to [single_mult], and the bound of the recursion is not
    reached. *)
Lemma mult_digit (n : uint_t) (b : Z) :
  well_formed n -> 2 <= b < 2 ^ 64 ->
  exists m, mult n [b] = Ok m /\ value m = value n * b /\ well_formed m.
Proof.
  intros [Hd Hc] Hb. assert (Hbd : is_digit 64 b) by dlia.
  unfold mult. cbn [to_bool size length Nat.eqb negb orb].
  destruct n as [|a n].
  - cbn. exists []. split; [reflexivity | split; [reflexivity | apply well_formed_nil]].
  - cbn [length Nat.eqb negb orb].
    destruct (compare (a :: n) uint_1 =? 0) eqn:E1.
    + apply compare_1 in E1; [|exact Hd]. rewrite E1. exists [b].
      split; [reflexivity|]. cbn [value]. split; [lia|].
      split; [digits_tac | unfold canonical; cbn; lia].
    + rewrite compare_digit_1 by lia.
      cbn [karatsuba_mult size length].
      destruct n as [|a2 n].
      * (* one digit by one digit *)
        cbn [length Nat.ltb Nat.leb karatsuba_cutoff].
        unfold long_mult. cbn [size length Nat.ltb Nat.leb Nat.eqb].
        inversion Hd as [|? ? Ha _]; subst.
        destruct (single_mult_spec [b] a Ha ltac:(digits_tac)) as [Hv Hw].
        eexists. split; [reflexivity|]. split; [|exact Hw].
        rewrite Hv. cbn [value]. lia.
      * cbn [length Nat.ltb Nat.leb karatsuba_cutoff].
        unfold long_mult. cbn [size length Nat.ltb Nat.leb Nat.eqb].
        destruct (single_mult_spec (a :: a2 :: n) b Hbd Hd) as [Hv Hw].
        eexists. split; [reflexivity|]. split; assumption.
Qed.

Lemma value_hd_tl (l : list Z) : value l = hd 0 l + 2 ^ 64 * value (tl l).
Proof. destruct l; reflexivity. Qed.

Lemma digits_ok_hd_tl (l : list Z) :
  digits_ok l -> is_digit 64 (hd 0 l) /\ digits_ok (tl l).
Proof.
  intros H. destruct l; cbn [hd tl].
  - split; [dlia | constructor].
  - inversion H; subst. split; assumption.
Qed.

Lemma add_loop_spec (n : nat) :
  forall l r c, digits_ok l -> digits_ok r ->
  (length l <= n)%nat -> (length r <= n)%nat -> 0 <= c <= 1 ->
  let '(s, c') := add_loop n l r c in
  value s + 2 ^ (64 * Z.of_nat n) * c' = value l + value r + c /\
  digits_ok s /\ 0 <= c' <= 1 /\ length s = n.
Proof.
  induction n as [|n IH]; intros l r c Hl Hr Hln Hrn Hc.
  - destruct l; [|cbn in Hln; lia]. destruct r; [|cbn in Hrn; lia].
    cbn [add_loop value]. change (Z.of_nat 0) with 0. rewrite Z.mul_0_r.
    change (2 ^ 0) with 1. split; [lia | split; [constructor | split; [lia | reflexivity]]].
  - cbn [add_loop].
    destruct (digits_ok_hd_tl l Hl) as [Hhl Htl].
    destruct (digits_ok_hd_tl r Hr) as [Hhr Htr].
    pose proof (_addcarry_spec (hd 0 l) (hd 0 r) c Hhl Hhr Hc) as H.
    destruct (_addcarry (hd 0 l) (hd 0 r) c) as [c1 s1]. cbn [fst snd] in H.
    destruct H as (E & Hs1 & Hc1).
    assert (Hlt : (length (tl l) <= n)%nat) by (destruct l; cbn in *; lia).
    assert (Hrt : (length (tl r) <= n)%nat) by (destruct r; cbn in *; lia).
    specialize (IH (tl l) (tl r) c1 Htl Htr Hlt Hrt Hc1).
    destruct (add_loop n (tl l) (tl r) c1) as [t c2].
    destruct IH as (IHv & IHd & IHc & IHlen).
    split; [|split; [constructor; assumption | split; [assumption | cbn [length]; congruence]]].
    cbn [value]. rewrite pow64_succ, (value_hd_tl l), (value_hd_tl r).
    nia.
Qed.

(** [n + d] for a digit [d]. *)
Lemma add_digit (n : uint_t) (d : Z) :
  well_formed n -> is_digit 64 d ->
  value (add n (uint_of d)) = value n + d /\ well_formed (add n (uint_of d)).
Proof.
  intros Hn Hd. unfold add, add_into.
  destruct (Z.eq_dec d 0) as [->|Hd0].
  - cbn. split; [lia | exact Hn].
  - rewrite (uint_of_nonzero d) by dlia.
    cbn [to_bool size length Nat.eqb negb].
    destruct n as [|a n].
    + cbn [to_bool size length Nat.eqb negb value]. split; [lia|].
      split; [digits_tac | unfold canonical; cbn; lia].
    + cbn [to_bool size length Nat.eqb negb]. unfold long_add.
      cbn [Nat.min skipn size]. destruct Hn as [Hdn _].
      assert (Hdd : digits_ok [d]) by digits_tac.
      pose proof (add_loop_spec (Nat.max (length (a :: n)) (length [d]))
                    (a :: n) [d] 0 Hdn Hdd ltac:(lia) ltac:(lia) ltac:(lia)) as H.
      destruct (add_loop _ (a :: n) [d] 0) as [s c].
      destruct H as (Hv & Hs & Hc & Hlen).
      unfold resize. cbn [firstn repeat Nat.sub length app].
      rewrite trim_value.
      split.
      * destruct (Z.eqb_spec c 0) as [->|Hc0].
        -- rewrite app_nil_r. cbn [value] in *. lia.
        -- rewrite value_app, Hlen. cbn [value] in *.
           assert (c = 1) as -> by lia. lia.
      * apply trim_well_formed. apply digits_ok_app. split; [exact Hs|].
        destruct (c =? 0); digits_tac.
Qed.

(** ** What [codec_ok] gives *)

Lemma codes_from_0_In (d : Z) : 0 <= d < 256 -> In d (codes_from 0).
Proof.
  intros Hd. unfold codes_from. apply in_map_iff. exists (Z.to_nat d).
  split; [lia|]. apply in_seq. lia.
Qed.

Lemma codec_ok_spec (bx : BaseX) :
  codec_ok bx = true ->
  2 <= base bx <= 256 /\
  (forall d, 0 <= d < base bx -> ord bx (chr bx d) = d) /\
  (forall d, base bx <= d < 256 -> base bx <= ord bx (chr bx d)) /\
  base_mask bx = base bx - 1 /\
  (base_bits bx = 0 \/ 0 < base_bits bx <= 8 /\ base bx = 2 ^ base_bits bx) /\
  (block_size bx = 0 \/ block_size bx = base_bits bx).
Proof.
  unfold codec_ok. intros H.
  repeat (apply andb_prop in H; destruct H as [H ?]).
  rewrite forallb_forall in *.
  assert (Ht : forall d, 0 <= d < 256 ->
                 (d <? base bx) && (ord bx (chr bx d) =? d)
                 || (base bx <=? d) && (base bx <=? ord bx (chr bx d)) = true).
  { intros d Hd. auto using codes_from_0_In. }
  split; [lia|]. split; [|split; [|split; [lia|split]]].
  - intros d Hd. specialize (Ht d ltac:(lia)).
    apply orb_prop in Ht. destruct Ht as [Ht|Ht]; apply andb_prop in Ht; lia.
  - intros d Hd. specialize (Ht d ltac:(lia)).
    apply orb_prop in Ht. destruct Ht as [Ht|Ht]; apply andb_prop in Ht; lia.
  - match goal with Hb : _ || _ = true |- _ \/ _ /\ _ =>
      apply orb_prop in Hb; destruct Hb as [Hb|Hb]; [left; lia | right] end.
    repeat match goal with Hb : _ && _ = true |- _ => apply andb_prop in Hb; destruct Hb end.
    lia.
  - match goal with Hb : _ || _ = true |- _ \/ _ =>
      apply orb_prop in Hb; destruct Hb as [Hb|Hb]; [left | right]; lia end.
Qed.

(** Every bundled codec passes. *)
Lemma bundled_ok : forallb codec_ok bundled = true.
Proof. vm_compute. reflexivity. Qed.

Lemma bundled_codec_ok (bx : BaseX) : In bx bundled -> codec_ok bx = true.
Proof.
  intros H. pose proof bundled_ok as Hall.
  rewrite forallb_forall in Hall. auto.
Qed.

(** ** Digits in a base *)

Lemma be_value_app (b : Z) (l r : list Z) (a : Z) :
  fold_left (fun acc d => acc * b + d) (l ++ r) a =
  fold_left (fun acc d => acc * b + d) r (fold_left (fun acc d => acc * b + d) l a).
Proof. apply fold_left_app. Qed.

Lemma be_value_rev (b : Z) (ds : list Z) :
  be_value b (rev ds) = le_digits_value b ds.
Proof.
  unfold be_value. induction ds as [|d ds IH]; [reflexivity|].
  cbn [rev le_digits_value]. rewrite fold_left_app. cbn [fold_left]. rewrite IH. lia.
Qed.

Lemma be_value_from (b : Z) (ds : list Z) (a : Z) :
  fold_left (fun acc d => acc * b + d) ds a =
  a * b ^ Z.of_nat (length ds) + be_value b ds.
Proof.
  unfold be_value. revert a. induction ds as [|d ds IH]; intros a.
  - cbn. lia.
  - cbn [fold_left length]. rewrite IH, (IH (0 * b + d)).
    rewrite Nat2Z.inj_succ, Z.pow_succ_r by lia. ring.
Qed.

Lemma be_value_drop_zeros (b : Z) (ds : list Z) :
  be_value b (drop_zeros ds) = be_value b ds.
Proof.
  induction ds as [|d ds IH]; [reflexivity|].
  cbn [drop_zeros]. destruct (Z.eqb_spec d 0) as [->|]; [|reflexivity].
  rewrite IH. unfold be_value. cbn [fold_left]. reflexivity.
Qed.

Lemma xor_all_from (ds : list Z) (a : Z) :
  fold_left Z.lxor ds a = Z.lxor a (xor_all ds).
Proof.
  unfold xor_all. revert a. induction ds as [|d ds IH]; intros a.
  - cbn. rewrite Z.lxor_0_r. reflexivity.
  - cbn [fold_left]. rewrite IH, (IH (Z.lxor 0 d)), Z.lxor_0_l, Z.lxor_assoc. reflexivity.
Qed.

Lemma xor_all_cons (d : Z) (ds : list Z) : xor_all (d :: ds) = Z.lxor d (xor_all ds).
Proof. unfold xor_all at 1. cbn [fold_left]. rewrite xor_all_from, Z.lxor_0_l. reflexivity. Qed.

Lemma xor_all_app (l r : list Z) : xor_all (l ++ r) = Z.lxor (xor_all l) (xor_all r).
Proof.
  unfold xor_all at 1. rewrite fold_left_app, xor_all_from. reflexivity.
Qed.

Lemma xor_all_rev (ds : list Z) : xor_all (rev ds) = xor_all ds.
Proof.
  induction ds as [|d ds IH]; [reflexivity|].
  cbn [rev]. rewrite xor_all_app, IH, !xor_all_cons.
  change (xor_all []) with 0. rewrite Z.lxor_0_r. apply Z.lxor_comm.
Qed.

Lemma xor_all_drop_zeros (ds : list Z) : xor_all (drop_zeros ds) = xor_all ds.
Proof.
  induction ds as [|d ds IH]; [reflexivity|].
  cbn [drop_zeros]. destruct (Z.eqb_spec d 0) as [->|]; [|reflexivity].
  rewrite IH, xor_all_cons, Z.lxor_0_l. reflexivity.
Qed.

Lemma digits_below_drop_zeros (b : Z) (ds : list Z) :
  digits_below b ds -> digits_below b (drop_zeros ds).
Proof.
  unfold digits_below. induction 1 as [|d ds Hd Hds IH]; [constructor|].
  cbn [drop_zeros]. destruct (d =? 0); [exact IH | constructor; assumption].
Qed.

Lemma digits_below_rev (b : Z) (ds : list Z) :
  digits_below b ds -> digits_below b (rev ds).
Proof.
  unfold digits_below. rewrite !Forall_forall. intros H x Hx. apply H, in_rev, Hx.
Qed.

(** Stripping the zero character is stripping the zero digits. *)
Lemma drop_char_map_chr (bx : BaseX) (ds : list Z) :
  codec_ok bx = true -> digits_below (base bx) ds ->
  drop_char (chr bx 0) (map (chr bx) ds) = map (chr bx) (drop_zeros ds).
Proof.
  intros Hok Hds. destruct (codec_ok_spec bx Hok) as (Hb & Hinv & _).
  induction Hds as [|d ds Hd Hds IH]; [reflexivity|].
  cbn [map drop_char drop_zeros].
  destruct (Z.eqb_spec d 0) as [->|Hd0].
  - rewrite Z.eqb_refl. exact IH.
  - destruct (Z.eqb_spec (chr bx d) (chr bx 0)) as [E|]; [|reflexivity].
    exfalso. apply Hd0. rewrite <- (Hinv d Hd), E. apply Hinv. lia.
Qed.

(** ** The general branch of [encode] and [decode] *)

Lemma to_digit_value (r : uint_t) :
  well_formed r -> value r < 2 ^ 64 -> to_digit r = value r.
Proof.
  intros Hw Hv. destruct r as [|x [|y r]]; [reflexivity | cbn; lia |].
  exfalso. pose proof (value_lower _ Hw ltac:(discriminate)) as Hl.
  cbn [length] in Hl.
  assert (2 ^ 64 <= 2 ^ (64 * (Z.of_nat (S (S (length r))) - 1)))
    by (apply Z.pow_le_mono_r; lia).
  lia.
Qed.

Lemma encode_general_digits_S (fuel : nat) (quotient uint_base : uint_t) :
  encode_general_digits (S fuel) quotient uint_base =
  bind (divmod quotient uint_base)
       (fun '(q, r) =>
          let d := wrap 32 (to_digit r) in
          if to_bool q
          then bind (encode_general_digits fuel q uint_base) (fun ds => Ok (d :: ds))
          else Ok [d]).
Proof. reflexivity. Qed.

Lemma encode_general_digits_spec (b : Z) :
  2 <= b <= 256 ->
  forall f q, well_formed q -> value q < 2 ^ Z.of_nat (S f) ->
  exists ds, encode_general_digits (S f) q [b] = Ok ds /\
             le_digits_value b ds = value q /\ digits_below b ds /\
             (value q <> 0 -> hd 0 (rev ds) <> 0) /\ ds <> [].
Proof.
  intros Hb. induction f as [|f IH]; intros q Hq Hv.
  - (* the value is 0 or 1 *)
    cbn [encode_general_digits]. unfold divmod.
    destruct (divmod_digit knuth_divmod q b Hq ltac:(lia)) as (q' & r & E & Hq' & Hr & Eq & Er).
    rewrite E. cbn [bind].
    pose proof (value_bound q (proj1 Hq)) as Hq0.
    assert (value q' = 0).
    { rewrite Eq. apply Z.div_small. change (2 ^ Z.of_nat 1) with 2 in Hv. lia. }
    apply (well_formed_zero _ Hq') in H. subst q'. cbn [to_bool size length Nat.eqb negb].
    pose proof (Z.mod_pos_bound (value q) b ltac:(lia)) as Hm.
    rewrite (to_digit_value r Hr) by lia. unfold wrap. rewrite Z.mod_small by lia.
    exists [value r]. split; [reflexivity|].
    cbn [le_digits_value value] in *. rewrite Er.
    pose proof (Z.div_mod (value q) b ltac:(lia)) as Hdm. rewrite <- Eq in Hdm.
    split; [lia|]. split; [repeat constructor; lia|].
    split; [cbn; lia | discriminate].
  - rewrite encode_general_digits_S. unfold divmod.
    destruct (divmod_digit knuth_divmod q b Hq ltac:(lia)) as (q' & r & E & Hq' & Hr & Eq & Er).
    rewrite E. cbn [bind].
    pose proof (value_bound q (proj1 Hq)) as Hq0.
    pose proof (Z.mod_pos_bound (value q) b ltac:(lia)) as Hm.
    pose proof (Z.div_mod (value q) b ltac:(lia)) as Hdm.
    rewrite (to_digit_value r Hr) by lia. unfold wrap. rewrite Z.mod_small by lia.
    rewrite (to_bool_value q' Hq').
    destruct (Z.eqb_spec (value q') 0) as [E0|E0]; cbn [negb].
    + exists [value r]. split; [reflexivity|].
      cbn [le_digits_value]. rewrite Er. rewrite E0 in Eq.
      split; [lia|]. split; [repeat constructor; lia|].
      split; [cbn; lia | discriminate].
    + assert (Hv' : value q' < 2 ^ Z.of_nat (S f)).
      { rewrite Eq. apply Z.div_lt_upper_bound; [lia|].
        rewrite (Nat2Z.inj_succ (S f)), Z.pow_succ_r in Hv by lia.
        assert (0 < 2 ^ Z.of_nat (S f)) by (apply Z.pow_pos_nonneg; lia). nia. }
      destruct (IH q' Hq' Hv') as (ds & Eds & Hds & Hbel & Hlast & Hne).
      rewrite Eds. cbn [bind].
      exists (value r :: ds). split; [reflexivity|].
      cbn [le_digits_value]. rewrite Hds, Er.
      split; [lia|]. split; [constructor; [lia | exact Hbel]|].
      split; [|discriminate].
      intros _. cbn [rev]. specialize (Hlast E0).
      destruct (rev ds) as [|x l] eqn:Er'; [|exact Hlast].
      apply (f_equal (@rev Z)) in Er'. rewrite rev_involutive in Er'. contradiction.
Qed.

Lemma decode_general_spec (bx : BaseX) (ds : list Z) :
  codec_ok bx = true -> digits_below (base bx) ds ->
  forall acc sum sz, well_formed acc ->
  exists acc', decode_general bx (map (chr bx) ds) sz [base bx] acc sum
               = Ok (acc', fold_left Z.lxor ds sum) /\
               value acc' = fold_left (fun a d => a * base bx + d) ds (value acc) /\
               well_formed acc'.
Proof.
  intros Hok Hds. destruct (codec_ok_spec bx Hok) as (Hb & Hinv & _).
  induction Hds as [|d ds Hd Hds IH]; intros acc sum sz Hacc.
  - exists acc. split; [reflexivity | split; [reflexivity | exact Hacc]].
  - cbn [map decode_general fold_left]. rewrite (Hinv d Hd).
    destruct (Z.geb_spec d (base bx)); [lia|].
    destruct (mult_digit acc (base bx) Hacc ltac:(lia)) as (m & Em & Hm & Hwm).
    rewrite Em. cbn [bind].
    destruct (add_digit m d Hwm ltac:(dlia)) as [Ha Hwa].
    destruct (IH (add m (uint_of d)) (Z.lxor sum d) (sz - 1) Hwa) as (acc' & E & Hv & Hw).
    exists acc'. rewrite E. split; [reflexivity|]. split; [|exact Hw].
    rewrite Hv, Ha, Hm. reflexivity.
Qed.

(** ** The power-of-two branch of [encode] *)

Lemma le_digits_app (b : Z) (l r : list Z) :
  le_digits_value b (l ++ r) =
  le_digits_value b l + b ^ Z.of_nat (length l) * le_digits_value b r.
Proof.
  induction l as [|d l IH].
  - cbn [app le_digits_value length]. change (b ^ Z.of_nat 0) with 1. lia.
  - cbn [app le_digits_value length]. rewrite IH, Nat2Z.inj_succ, Z.pow_succ_r by lia. ring.
Qed.

Lemma div_pow2_split (a s m : Z) :
  0 <= s -> 0 <= m ->
  a / 2 ^ s = (a / 2 ^ s) mod 2 ^ m + 2 ^ m * (a / 2 ^ (s + m)).
Proof.
  intros Hs Hm.
  assert (0 < 2 ^ s) by (apply Z.pow_pos_nonneg; lia).
  assert (0 < 2 ^ m) by (apply Z.pow_pos_nonneg; lia).
  rewrite Z.pow_add_r, <- Z.div_div by lia.
  pose proof (Z.div_mod (a / 2 ^ s) (2 ^ m) ltac:(lia)). lia.
Qed.

Lemma pow2_pos (n : Z) : 0 <= n -> 0 < 2 ^ n.
Proof. intros. apply Z.pow_pos_nonneg; lia. Qed.

Section Pow2.
Variable bx : BaseX.
Let k := base_bits bx.
Hypothesis Hk : 0 < k <= 8.
Hypothesis Hmask : base_mask bx = 2 ^ k - 1.

Lemma land_mask (x : Z) : Z.land x (base_mask bx) = x mod 2 ^ k.
Proof.
  rewrite Hmask. replace (2 ^ k - 1) with (Z.ones k) by (rewrite Z.ones_equiv; lia).
  apply Z.land_ones. lia.
Qed.

Lemma pow_k_len (n : nat) : (2 ^ k) ^ Z.of_nat n = 2 ^ (k * Z.of_nat n).
Proof. rewrite <- Z.pow_mul_r by lia. reflexivity. Qed.

(** The inner loop pushes the digits of [v] from bit [s] up to the bit
    [s'] it stops at, which lies past the half digit. *)
Lemma encode_window_spec (fuel : nat) :
  forall v s, 0 <= v -> 0 <= s <= 32 -> 32 - s < Z.of_nat fuel * k ->
  let '(ds, s') := encode_window fuel bx v s in
  32 < s' <= 32 + k /\ s' = s + k * Z.of_nat (length ds) /\
  le_digits_value (2 ^ k) ds = (v / 2 ^ s) mod 2 ^ (s' - s) /\
  digits_below (2 ^ k) ds.
Proof.
  induction fuel as [|fuel IH]; intros v s Hv Hs Hf; [change (Z.of_nat 0) with 0 in Hf; lia|].
  cbn [encode_window]. fold k. rewrite land_mask, Z.shiftr_div_pow2 by lia.
  pose proof (pow2_pos k ltac:(lia)) as Hpk.
  pose proof (Z.mod_pos_bound (v / 2 ^ s) (2 ^ k) Hpk) as Hd.
  destruct (Z.leb_spec (s + k) 32) as [Hle|Hgt].
  - specialize (IH v (s + k) Hv ltac:(lia) ltac:(lia)).
    destruct (encode_window fuel bx v (s + k)) as [ds s'].
    destruct IH as (Hs' & Hlen & Hval & Hbel).
    split; [lia|]. split; [cbn [length]; lia|].
    split; [|constructor; assumption].
    cbn [le_digits_value]. rewrite Hval.
    replace (s' - s) with (k + (s' - (s + k))) by lia.
    rewrite (Z.pow_add_r 2 k (s' - (s + k))) by lia.
    pose proof (pow2_pos s ltac:(lia)).
    pose proof (pow2_pos (s' - (s + k)) ltac:(lia)).
    rewrite (Z.rem_mul_r (v / 2 ^ s)) by lia.
    rewrite Z.div_div, <- Z.pow_add_r by lia.
    reflexivity.
  - split; [lia|]. split; [cbn [length]; lia|].
    split; [|repeat constructor; lia].
    cbn [le_digits_value]. replace (s + k - s) with k by lia. lia.
Qed.

(** The outer loop: with the half digit in the upper half of [v] and the
    half digits in [ptr] still to come, the digits pushed and what is
    left in [v] make up that stream from bit [s] on. *)
Lemma encode_halves_spec (ptr : list Z) :
  digits_below (2 ^ 32) ptr ->
  forall v s, 0 <= v < 2 ^ 64 -> 0 <= s <= k ->
  let '(ds, v', s') := encode_halves (length ptr) bx ptr v s in
  le_digits_value (2 ^ k) ds
    + 2 ^ (k * Z.of_nat (length ds)) * (v' / 2 ^ (s' + 32))
  = (v / 2 ^ 32 + 2 ^ 32 * le32 ptr) / 2 ^ s /\
  digits_below (2 ^ k) ds /\ 0 <= v' < 2 ^ 64 /\ 0 <= s' <= k.
Proof.
  induction 1 as [|p ptr Hp Hptr IH]; intros v s Hv Hs.
  - cbn [length encode_halves le32 le_digits_value].
    change (Z.of_nat 0) with 0. rewrite Z.mul_0_r, Z.mul_0_r, Z.add_0_r.
    change (2 ^ 0) with 1.
    split; [|split; [constructor | split; assumption]].
    rewrite Z.add_0_l, Z.mul_1_l, Z.add_comm, Z.pow_add_r, Z.div_div
      by (try apply pow2_pos; lia).
    reflexivity.
  - cbn [length encode_halves hd tl].
    rewrite Z.shiftr_div_pow2, Z.shiftl_mul_pow2 by lia.
    assert (Hh : 0 <= v / 2 ^ 32 < 2 ^ 32).
    { split; [apply Z.div_pos; lia | apply Z.div_lt_upper_bound; lia]. }
    unfold wrap. rewrite (Z.mod_small (p * 2 ^ 32)) by (change (2 ^ 64) with (2 ^ 32 * 2 ^ 32); nia).
    rewrite Z.lor_comm, lor_high_low by lia.
    set (w := p * 2 ^ 32 + v / 2 ^ 32).
    assert (Hw : 0 <= w < 2 ^ 64) by (unfold w; change (2 ^ 64) with (2 ^ 32 * 2 ^ 32); nia).
    pose proof (encode_window_spec 33 w s ltac:(lia) ltac:(lia) ltac:(lia)) as Hwin.
    destruct (encode_window 33 bx w s) as [ds1 s1].
    destruct Hwin as (Hs1 & Hlen1 & Hval1 & Hbel1).
    specialize (IH w (s1 - 32) Hw ltac:(lia)).
    destruct (encode_halves (length ptr) bx ptr w (s1 - 32)) as [[ds' v'] s'].
    destruct IH as (IHv & IHbel & IHv' & IHs').
    split; [|split; [apply Forall_app; split; assumption | split; assumption]].
    rewrite le_digits_app, length_app, Nat2Z.inj_add, pow_k_len.
    rewrite Z.mul_add_distr_l, Z.pow_add_r by lia.
    replace (le_digits_value (2 ^ k) ds1
             + 2 ^ (k * Z.of_nat (length ds1)) * le_digits_value (2 ^ k) ds'
             + 2 ^ (k * Z.of_nat (length ds1)) * 2 ^ (k * Z.of_nat (length ds'))
               * (v' / 2 ^ (s' + 32)))
      with (le_digits_value (2 ^ k) ds1
            + 2 ^ (k * Z.of_nat (length ds1))
              * (le_digits_value (2 ^ k) ds'
                 + 2 ^ (k * Z.of_nat (length ds')) * (v' / 2 ^ (s' + 32)))) by ring.
    rewrite IHv, Hval1.
    replace (k * Z.of_nat (length ds1)) with (s1 - s) by lia.
    unfold le32. cbn [le_digits_value]. fold (le32 ptr).
    set (L := le32 ptr).
    assert (Hw32 : w / 2 ^ 32 = p).
    { unfold w. rewrite Z.div_add_l by lia. rewrite Z.div_small by lia. lia. }
    rewrite Hw32.
    set (M := v / 2 ^ 32 + 2 ^ 32 * (p + 2 ^ 32 * L)).
    assert (HM : M = w + (L * 2 ^ (64 - s1) * 2 ^ (s1 - s)) * 2 ^ s).
    { unfold M, w. rewrite <- !Z.mul_assoc, <- !Z.pow_add_r by lia.
      replace (64 - s1 + (s1 - s + s)) with 64 by lia.
      change (2 ^ 64) with (2 ^ 32 * 2 ^ 32). ring. }
    assert (HMs : M / 2 ^ s = w / 2 ^ s + L * 2 ^ (64 - s1) * 2 ^ (s1 - s)).
    { rewrite HM. apply Z.div_add. pose proof (pow2_pos s ltac:(lia)). lia. }
    assert (HM32 : M / 2 ^ 32 = p + 2 ^ 32 * L).
    { unfold M. rewrite Z.mul_comm, Z.div_add by lia. rewrite (Z.div_small (v / 2 ^ 32)) by lia. lia. }
    rewrite (div_pow2_split M s (s1 - s)) by lia.
    f_equal.
    + rewrite HMs, Z.mod_add; [reflexivity|]. pose proof (pow2_pos (s1 - s) ltac:(lia)). lia.
    + f_equal. replace (s + (s1 - s)) with (32 + (s1 - 32)) by lia.
      rewrite Z.pow_add_r, <- Z.div_div, HM32 by (try apply pow2_pos; lia).
      reflexivity.
Qed.

(** The last loop pushes the digits of what is left. *)
Lemma encode_flush_spec (fuel : nat) :
  forall v, 0 <= v < 2 ^ Z.of_nat fuel ->
  le_digits_value (2 ^ k) (encode_flush fuel bx v) = v /\
  digits_below (2 ^ k) (encode_flush fuel bx v).
Proof.
  induction fuel as [|fuel IH]; intros v Hv.
  - change (2 ^ Z.of_nat 0) with 1 in Hv. assert (v = 0) as -> by lia.
    split; [reflexivity | constructor].
  - cbn [encode_flush]. destruct (Z.eqb_spec v 0) as [->|Hv0].
    + split; [reflexivity | constructor].
    + fold k. rewrite land_mask, Z.shiftr_div_pow2 by lia.
      pose proof (pow2_pos k ltac:(lia)) as Hpk.
      assert (Hv' : 0 <= v / 2 ^ k < 2 ^ Z.of_nat fuel).
      { split; [apply Z.div_pos; lia|]. apply Z.div_lt_upper_bound; [lia|].
        rewrite Nat2Z.inj_succ, Z.pow_succ_r in Hv by lia.
        assert (2 <= 2 ^ k) by (change 2 with (2 ^ 1) at 1; apply Z.pow_le_mono_r; lia).
        pose proof (pow2_pos (Z.of_nat fuel) ltac:(lia)). nia. }
      destruct (IH _ Hv') as [IHv IHb].
      cbn [le_digits_value]. rewrite IHv.
      pose proof (Z.div_mod v (2 ^ k) ltac:(lia)).
      pose proof (Z.mod_pos_bound v (2 ^ k) Hpk).
      split; [lia | constructor; [lia | exact IHb]].
Qed.

Lemma half_digits_spec (n : uint_t) :
  digits_ok n ->
  le32 (half_digits n) = value n /\ digits_below (2 ^ 32) (half_digits n) /\
  length (half_digits n) = (2 * length n)%nat.
Proof.
  unfold half_digits, le32. induction 1 as [|d n Hd Hn IH].
  - cbn. split; [reflexivity | split; [constructor | reflexivity]].
  - cbn [flat_map app le_digits_value value length].
    destruct IH as (IHv & IHb & IHl). rewrite IHv, IHl.
    unfold is_digit in Hd. change (2 ^ 64) with (2 ^ 32 * 2 ^ 32) in *.
    pose proof (Z.div_mod d (2 ^ 32) ltac:(lia)).
    pose proof (Z.mod_pos_bound d (2 ^ 32) ltac:(lia)).
    assert (0 <= d / 2 ^ 32 < 2 ^ 32).
    { split; [apply Z.div_pos; lia | apply Z.div_lt_upper_bound; lia]. }
    split; [lia|]. split; [repeat (constructor; [lia|]); exact IHb | lia].
Qed.

(** The digits pushed for a non-empty [num], least significant first,
    are digits of its value in base 2^k. *)
Lemma encode_pow2_digits_spec (num : uint_t) :
  digits_ok num -> num <> [] ->
  le_digits_value (2 ^ k) (encode_pow2_digits bx (size num) num) = value num /\
  digits_below (2 ^ k) (encode_pow2_digits bx (size num) num).
Proof.
  intros Hn Hne. unfold encode_pow2_digits.
  destruct (half_digits_spec num Hn) as (Hv & Hb & Hl).
  destruct (half_digits num) as [|h0 ptr] eqn:Eh.
  { destruct num; [contradiction | cbn in Hl; lia]. }
  inversion Hb as [|? ? Hh0 Hptr]; subst. cbn [hd tl].
  rewrite Z.shiftl_mul_pow2 by lia. unfold wrap.
  rewrite (Z.mod_small (h0 * 2 ^ 32)) by (change (2 ^ 64) with (2 ^ 32 * 2 ^ 32); nia).
  assert (Hi : (size num * 2 - 1)%nat = length ptr) by (unfold size; cbn [length] in Hl; lia).
  rewrite Hi.
  pose proof (encode_halves_spec ptr Hptr (h0 * 2 ^ 32) 0
                ltac:(change (2 ^ 64) with (2 ^ 32 * 2 ^ 32); nia) ltac:(lia)) as H.
  destruct (encode_halves (length ptr) bx ptr (h0 * 2 ^ 32) 0) as [[ds v'] s'].
  destruct H as (Hval & Hbel & Hv' & Hs').
  rewrite Z.div_mul, Z.div_1_r in Hval by lia.
  rewrite Z.shiftr_div_pow2 by lia.
  assert (Hrest : 0 <= v' / 2 ^ (s' + 32) < 2 ^ Z.of_nat 64).
  { pose proof (pow2_pos (s' + 32) ltac:(lia)).
    split; [apply Z.div_pos; lia|]. apply Z.div_lt_upper_bound; [lia|].
    change (2 ^ Z.of_nat 64) with (2 ^ 64). nia. }
  destruct (encode_flush_spec 64 _ Hrest) as [Hfv Hfb].
  split; [|apply Forall_app; split; assumption].
  rewrite le_digits_app, pow_k_len, Hfv, Hval.
  unfold le32 in Hv. cbn [le_digits_value] in Hv. exact Hv.
Qed.
End Pow2.

(** ** The power-of-two branch of [decode] *)

Lemma decode_pow2_spec (bx : BaseX) (ds : list Z) :
  codec_ok bx = true -> base_bits bx <> 0 -> digits_below (base bx) ds ->
  forall acc sum sz, well_formed acc ->
  exists acc', decode_pow2 bx (map (chr bx) ds) sz acc sum
               = Ok (acc', fold_left Z.lxor ds sum) /\
               value acc' = fold_left (fun a d => a * base bx + d) ds (value acc) /\
               well_formed acc'.
Proof.
  intros Hok Hbits Hds.
  destruct (codec_ok_spec bx Hok) as (Hb & Hinv & _ & _ & [Hk0|[Hk Hbase]] & _);
    [contradiction|].
  induction Hds as [|d ds Hd Hds IH]; intros acc sum sz Hacc.
  - exists acc. split; [reflexivity | split; [reflexivity | exact Hacc]].
  - cbn [map decode_pow2 fold_left]. rewrite (Hinv d Hd).
    destruct (Z.geb_spec d (base bx)); [lia|].
    destruct (bitwise_lshift_small acc (base_bits bx) ltac:(lia) (proj1 Hacc)) as [Hsv Hsw].
    assert (Hmod : value (bitwise_lshift acc (uint_of (base_bits bx))) mod 2 ^ base_bits bx = 0).
    { rewrite Hsv. apply Z.mod_mul. pose proof (pow2_pos (base_bits bx) ltac:(lia)). lia. }
    destruct (bitwise_or_digit _ (base_bits bx) d ltac:(lia) (proj1 Hsw) Hmod ltac:(lia))
      as [Hov How].
    destruct (IH _ (Z.lxor sum d) (sz - 1) How) as (acc' & E & Hv & Hw).
    exists acc'. rewrite E. split; [reflexivity|]. split; [|exact Hw].
    rewrite Hv, Hov, Hsv, Hbase. reflexivity.
Qed.

(** ** What [encode] returns *)

Lemma encode_window_below (bx : BaseX) (fuel : nat) :
  0 < base_bits bx <= 8 -> base_mask bx = 2 ^ base_bits bx - 1 ->
  forall v s, digits_below (2 ^ base_bits bx) (fst (encode_window fuel bx v s)).
Proof.
  intros Hk Hmask. induction fuel as [|fuel IH]; intros v s; [constructor|].
  cbn [encode_window]. rewrite (land_mask bx Hk Hmask).
  pose proof (Z.mod_pos_bound (Z.shiftr v s) (2 ^ base_bits bx) (pow2_pos (base_bits bx) ltac:(lia))).
  destruct (s + base_bits bx <=? 32).
  - specialize (IH v (s + base_bits bx)).
    destruct (encode_window fuel bx v (s + base_bits bx)). cbn [fst] in *.
    constructor; assumption.
  - repeat constructor; lia.
Qed.

Lemma encode_halves_below (bx : BaseX) (i : nat) :
  0 < base_bits bx <= 8 -> base_mask bx = 2 ^ base_bits bx - 1 ->
  forall ptr v s, digits_below (2 ^ base_bits bx) (fst (fst (encode_halves i bx ptr v s))).
Proof.
  intros Hk Hmask. induction i as [|i IH]; intros ptr v s; [constructor|].
  cbn [encode_halves].
  pose proof (encode_window_below bx 33 Hk Hmask
                (Z.lor (Z.shiftr v 32) (wrap 64 (Z.shiftl (hd 0 ptr) 32))) s) as Hw.
  destruct (encode_window 33 bx _ s) as [ds s1]. cbn [fst] in Hw.
  specialize (IH (tl ptr) (Z.lor (Z.shiftr v 32) (wrap 64 (Z.shiftl (hd 0 ptr) 32))) (s1 - 32)).
  destruct (encode_halves i bx _ _ _) as [[ds' v'] s']. cbn [fst] in *.
  apply Forall_app. split; assumption.
Qed.

Lemma encode_flush_below (bx : BaseX) (fuel : nat) :
  0 < base_bits bx <= 8 -> base_mask bx = 2 ^ base_bits bx - 1 ->
  forall v, digits_below (2 ^ base_bits bx) (encode_flush fuel bx v).
Proof.
  intros Hk Hmask. induction fuel as [|fuel IH]; intros v; [constructor|].
  cbn [encode_flush]. destruct (v =? 0); [constructor|].
  rewrite (land_mask bx Hk Hmask).
  pose proof (Z.mod_pos_bound v (2 ^ base_bits bx) (pow2_pos (base_bits bx) ltac:(lia))).
  constructor; [lia | apply IH].
Qed.

(** Whatever the operand, the power-of-two branch pushes digits. *)
Lemma encode_pow2_digits_below (bx : BaseX) (num_sz : nat) (quotient : uint_t) :
  0 < base_bits bx <= 8 -> base_mask bx = 2 ^ base_bits bx - 1 ->
  digits_below (2 ^ base_bits bx) (encode_pow2_digits bx num_sz quotient).
Proof.
  intros Hk Hmask. unfold encode_pow2_digits.
  pose proof (encode_halves_below bx (num_sz * 2 - 1) Hk Hmask
                (tl (half_digits quotient))
                (wrap 64 (Z.shiftl (hd 0 (half_digits quotient)) 32)) 0) as H.
  destruct (encode_halves _ bx _ _ 0) as [[ds v] s]. cbn [fst] in H.
  apply Forall_app. split; [exact H | apply encode_flush_below; assumption].
Qed.

Lemma encode_bp_range (bx : BaseX) (num : uint_t) :
  0 <= block_size bx -> 0 <= encode_bp bx num <= block_size bx.
Proof.
  intros Hb. unfold encode_bp.
  destruct (Z.eqb_spec (block_size bx) 0) as [E|E]; cbn [negb]; [lia|].
  pose proof (Z.mod_pos_bound (Z.land (bits num + 7) 248) (block_size bx) ltac:(lia)).
  destruct (Z.eqb_spec (Z.land (bits num + 7) 248 mod block_size bx) 0); cbn [negb]; lia.
Qed.

(** The string [encode] returns for a non-zero value: the characters of a
    list of digits, most significant first, and with [checksum] the
    character of their xor with the two length terms.  Without block
    padding the digits are those of the value. *)
Lemma encode_structure (bx : BaseX) (num : uint_t) (checksum : bool) :
  codec_ok bx = true -> well_formed num -> num <> [] ->
  exists ds,
    digits_below (base bx) ds /\
    encode bx num checksum =
      Ok (map (chr bx) ds
          ++ (if checksum
              then [chr bx (Z.lxor (xor_all ds) (length_sum bx (Z.of_nat (length ds))))]
              else [])) /\
    (block_size bx = 0 -> be_value (base bx) ds = value num).
Proof.
  intros Hok Hnum Hne.
  destruct (codec_ok_spec bx Hok) as (Hb & Hinv & _ & Hmask & Hbits & Hblock).
  unfold encode.
  assert (Hsz : Nat.eqb (size num) 0 = false) by (destruct num; [contradiction | reflexivity]).
  rewrite Hsz. cbn [negb].
  destruct (Z.eqb_spec (base_bits bx) 0) as [Hk0|Hk0]; cbn [negb].
  - (* the general branch; there is no block padding *)
    assert (Hbs : block_size bx = 0) by lia.
    assert (Hbp : encode_bp bx num = 0).
    { unfold encode_bp. rewrite Hbs. reflexivity. }
    rewrite Hbp, bitwise_lshift_0.
    rewrite (uint_of_nonzero (base bx)) by dlia.
    pose proof (value_bound num (proj1 Hnum)) as Hv.
    assert (Hlt : value num < 2 ^ Z.of_nat (S (64 * size num))).
    { eapply Z.lt_le_trans; [apply Hv|]. apply Z.pow_le_mono_r; unfold size; lia. }
    destruct (encode_general_digits_spec (base bx) Hb (64 * size num) num Hnum Hlt)
      as (ds & E & Hval & Hbel & _ & _).
    rewrite E. cbn [bind].
    exists (rev ds). split; [apply digits_below_rev, Hbel|].
    split.
    + rewrite <- map_rev, xor_all_rev, ?length_map, ?length_rev.
      destruct checksum; [reflexivity | rewrite app_nil_r; reflexivity].
    + intros _. rewrite be_value_rev. exact Hval.
  - (* the power-of-two branch *)
    destruct Hbits as [?|[Hk Hbase]]; [contradiction|].
    rewrite Hbase in Hmask. cbn [bind].
    set (quotient := bitwise_lshift num (uint_of (encode_bp bx num))).
    pose proof (encode_pow2_digits_below bx (size num) quotient Hk Hmask) as Hbel.
    rewrite <- Hbase in Hbel.
    set (ds := encode_pow2_digits bx (size num) quotient) in *.
    exists (drop_zeros (rev ds)).
    split; [apply digits_below_drop_zeros, digits_below_rev, Hbel|].
    split.
    + rewrite rev_involutive, <- map_rev.
      rewrite drop_char_map_chr by (try apply digits_below_rev; assumption).
      rewrite xor_all_drop_zeros, xor_all_rev, ?length_map.
      destruct checksum; [reflexivity | rewrite app_nil_r; reflexivity].
    + intros Hbs.
      assert (Hq : quotient = num).
      { unfold quotient, encode_bp. rewrite Hbs. reflexivity. }
      unfold ds. rewrite Hq, be_value_drop_zeros, be_value_rev, Hbase.
      apply (encode_pow2_digits_spec bx Hk Hmask num (proj1 Hnum) Hne).
Qed.

(** ** Decoding what [encode] returned *)

Lemma bitwise_rshift_0 (n : uint_t) : bitwise_rshift n (uint_of 0) = n.
Proof. reflexivity. Qed.

(** Without block padding and without checksum, [decode] gives back the
    non-zero value that [encode] was given. *)
Lemma decode_encode (bx : BaseX) (num : uint_t) :
  codec_ok bx = true -> block_size bx = 0 -> well_formed num -> num <> [] ->
  exists e, encode bx num false = Ok e /\ decode bx e false = Ok num.
Proof.
  intros Hok Hbs Hnum Hne.
  destruct (encode_structure bx num false Hok Hnum Hne) as (ds & Hbel & E & Hval).
  rewrite app_nil_r in E. exists (map (chr bx) ds). split; [exact E|].
  specialize (Hval Hbs).
  destruct (codec_ok_spec bx Hok) as (Hb & _).
  unfold decode. cbn [andb]. rewrite Hbs. cbn [Z.eqb negb].
  rewrite Nat2Z.id, firstn_all.
  assert (Hfold : fold_left (fun a d => a * base bx + d) ds (value []) = value num).
  { exact Hval. }
  destruct (Z.eqb_spec (base_bits bx) 0) as [Hk0|Hk0]; cbn [negb].
  - rewrite (uint_of_nonzero (base bx)) by dlia.
    destruct (decode_general_spec bx ds Hok Hbel [] 0 (Z.of_nat (length (map (chr bx) ds)))
                well_formed_nil) as (acc & Ed & Hv & Hw).
    rewrite Ed. cbn [bind]. rewrite bitwise_rshift_0. f_equal.
    apply value_inj; [assumption | assumption | congruence].
  - destruct (decode_pow2_spec bx ds Hok Hk0 Hbel [] 0 (Z.of_nat (length (map (chr bx) ds)))
                well_formed_nil) as (acc & Ed & Hv & Hw).
    rewrite Ed. cbn [bind]. rewrite bitwise_rshift_0. f_equal.
    apply value_inj; [assumption | assumption | congruence].
Qed.

(** ** Raw bytes: [strtouint] in base 256 and [str(256)] *)

Lemma le_value_bound (bs : list Z) :
  Forall is_byte bs -> 0 <= le_value bs < 256 ^ Z.of_nat (length bs).
Proof.
  unfold is_byte. induction 1 as [|b bs Hb Hbs IH].
  - cbn. lia.
  - cbn [le_value length]. rewrite Nat2Z.inj_succ, Z.pow_succ_r by lia. lia.
Qed.

Lemma le_bytes_le_value (bs : list Z) :
  Forall is_byte bs -> le_bytes (length bs) (le_value bs) = bs.
Proof.
  unfold is_byte. induction 1 as [|b bs Hb Hbs IH]; [reflexivity|].
  cbn [length le_bytes le_value].
  replace (b + 256 * le_value bs) with (b + le_value bs * 256) by ring.
  rewrite Z.mod_add, Z.div_add, Z.mod_small, Z.div_small by lia.
  cbn [Z.add]. rewrite IH. reflexivity.
Qed.

Lemma le_value_zero (bs : list Z) :
  Forall is_byte bs -> le_value bs = 0 -> forall b, In b bs -> b = 0.
Proof.
  unfold is_byte. induction 1 as [|c bs Hc Hbs IH]; intros Hv b Hin; [contradiction|].
  cbn [le_value] in Hv. pose proof (le_value_bound bs Hbs) as Hl.
  destruct Hin as [<-|Hin]; [lia|]. apply IH; [lia | exact Hin].
Qed.

Lemma Forall_firstn {A} (P : A -> Prop) (n : nat) (l : list A) :
  Forall P l -> Forall P (firstn n l).
Proof.
  intros H. rewrite <- (firstn_skipn n l) in H. apply Forall_app in H. apply H.
Qed.

Lemma Forall_skipn {A} (P : A -> Prop) (n : nat) (l : list A) :
  Forall P l -> Forall P (skipn n l).
Proof.
  intros H. rewrite <- (firstn_skipn n l) in H. apply Forall_app in H. apply H.
Qed.

(** Grouping [8 k] bytes into [k] digits and reading the digits as bytes
    gives the bytes back. *)
Lemma bytes_of_digits_of_bytes (k : nat) :
  forall bs, length bs = (8 * k)%nat -> Forall is_byte bs ->
  bytes_of_digits (digits_of_bytes k bs) = bs /\
  digits_ok (digits_of_bytes k bs) /\
  (k <> O -> last (digits_of_bytes k bs) 1 = le_value (skipn (8 * (k - 1)) bs)).
Proof.
  induction k as [|k IH]; intros bs Hlen Hb.
  - destruct bs; [|discriminate]. split; [reflexivity | split; [constructor | congruence]].
  - cbn [digits_of_bytes]. unfold bytes_of_digits. cbn [flat_map].
    fold (bytes_of_digits (digits_of_bytes k (skipn 8 bs))).
    assert (Hl8 : length (firstn 8 bs) = 8%nat) by (rewrite length_firstn; lia).
    assert (Hls : length (skipn 8 bs) = (8 * k)%nat) by (rewrite length_skipn; lia).
    destruct (IH (skipn 8 bs) Hls (Forall_skipn _ _ _ Hb)) as (IHb & IHd & IHl).
    pose proof (le_bytes_le_value (firstn 8 bs) (Forall_firstn _ _ _ Hb)) as Hle.
    rewrite Hl8 in Hle. rewrite Hle, IHb, firstn_skipn.
    split; [reflexivity|].
    pose proof (le_value_bound (firstn 8 bs) (Forall_firstn _ _ _ Hb)) as Hbd.
    rewrite Hl8 in Hbd. change (256 ^ Z.of_nat 8) with (2 ^ 64) in Hbd.
    split; [constructor; [exact Hbd | exact IHd]|].
    intros _. destruct k as [|k].
    + cbn [digits_of_bytes last Nat.sub Nat.mul skipn].
      rewrite firstn_all2 by lia. reflexivity.
    + replace (8 * (S (S k) - 1))%nat with (8 * (S k - 1) + 8)%nat by lia.
      rewrite <- skipn_skipn, <- IHl by discriminate.
      cbn [digits_of_bytes]. reflexivity.
Qed.

Lemma drop_zeros_repeat (n : nat) (l : list Z) :
  drop_zeros (repeat 0 n ++ l) = drop_zeros l.
Proof. induction n as [|n IH]; [reflexivity | exact IH]. Qed.

(** A non-empty byte string that does not start with a zero byte becomes a
    well-formed non-zero value, and [str(256)] gives the string back. *)
Lemma strtouint_256_spec (s : list Z) :
  s <> [] -> Forall is_byte s -> hd 0 s <> 0 ->
  exists n, strtouint s 256 = Ok n /\ well_formed n /\ n <> [] /\ str_256 n = s.
Proof.
  intros Hne Hb Hhd. unfold strtouint. cbn [Z.leb Z.compare andb Z.eqb].
  assert (Hlen : Nat.eqb (length s) 0 = false) by (destruct s; [contradiction | reflexivity]).
  rewrite Hlen. cbn [negb andb].
  set (len := length s).
  assert (Hlen1 : (1 <= len)%nat) by (unfold len; destruct s; [contradiction | cbn; lia]).
  pose proof (Nat.div_mod_eq len 8) as Hdm.
  pose proof (Nat.mod_upper_bound len 8 ltac:(lia)) as Hmod.
  set (pad_k := if Nat.eqb (len mod 8) 0 then ((len mod 8)%nat, (len / 8)%nat)
                else ((8 - len mod 8)%nat, S (len / 8))).
  assert (Hpk : exists pad k, pad_k = (pad, k) /\ (pad + len = 8 * k)%nat /\
                              (pad < 8)%nat /\ k <> O).
  { unfold pad_k. destruct (Nat.eqb_spec (len mod 8) 0) as [E|E].
    - exists (len mod 8)%nat, (len / 8)%nat. split; [reflexivity|]. lia.
    - exists (8 - len mod 8)%nat, (S (len / 8)). split; [reflexivity|]. lia. }
  destruct Hpk as (pad & k & Epk & Hsum & Hpad & Hk). rewrite Epk.
  set (buffer := repeat 0 pad ++ s).
  assert (Hbuf : Forall is_byte (rev buffer)).
  { apply Forall_rev. unfold buffer. apply Forall_app. split; [|exact Hb].
    apply Forall_forall. intros x Hx. apply repeat_spec in Hx. subst. unfold is_byte. lia. }
  assert (Hbl : length (rev buffer) = (8 * k)%nat).
  { rewrite length_rev. unfold buffer. rewrite length_app, repeat_length. exact Hsum. }
  destruct (bytes_of_digits_of_bytes k (rev buffer) Hbl Hbuf) as (Hbytes & Hdig & Hlast).
  exists (digits_of_bytes k (rev buffer)).
  assert (Hnon : digits_of_bytes k (rev buffer) <> []).
  { destruct k; [contradiction | discriminate]. }
  split; [reflexivity|]. split; [|split; [exact Hnon|]].
  - split; [exact Hdig|]. unfold canonical. rewrite (Hlast Hk).
    intros Hz.
    apply Hhd. apply (le_value_zero _ (Forall_skipn _ _ _ Hbuf) Hz).
    unfold buffer. rewrite rev_app_distr.
    destruct s as [|h s']; [contradiction|]. cbn [hd rev].
    rewrite skipn_app. apply in_or_app. left.
    assert (Hs' : len = S (length s')) by reflexivity.
    rewrite skipn_app. apply in_or_app. right.
    replace (8 * (k - 1) - length (rev s'))%nat with O by (rewrite length_rev; lia).
    left. reflexivity.
  - unfold str_256.
    assert (Hsz : Nat.eqb (size (digits_of_bytes k (rev buffer))) 0 = false).
    { unfold size. destruct (digits_of_bytes k (rev buffer)); [contradiction | reflexivity]. }
    rewrite Hsz. cbn [negb]. rewrite Hbytes, !rev_involutive.
    unfold buffer. rewrite drop_zeros_repeat. apply drop_zeros_id.
    destruct s; [contradiction | cbn [hd] in *; exact Hhd].
Qed.

(** ** The round trip through a codec *)

(** C2, amended: for every bundled codec without block padding and every
    non-empty byte string that does not start with a zero byte, decoding
    the encoding (no checksum) gives the string back. *)
Theorem codec_round_trip (bx : BaseX) (s : list Z) :
  In bx bundled -> block_size bx = 0 ->
  s <> [] -> Forall is_byte s -> hd 0 s <> 0 ->
  (e <- encode_bytes bx s false ;; decode_bytes bx e false) = Ok s.
Proof.
  intros Hin Hbs Hne Hb Hhd.
  destruct (strtouint_256_spec s Hne Hb Hhd) as (n & En & Hw & Hn & Hstr).
  destruct (decode_encode bx n (bundled_codec_ok bx Hin) Hbs Hw Hn) as (e & Ee & Ed).
  unfold encode_bytes, decode_bytes, uint_of_bytes.
  rewrite En. cbn [bind]. rewrite Ee. cbn [bind]. rewrite Ed. cbn [bind].
  rewrite Hstr. reflexivity.
Qed.

Lemma codec_round_trip_witness :
  (e <- encode_bytes base58_bitcoin (chars "Hello world!") false ;;
   decode_bytes base58_bitcoin e false) = Ok (chars "Hello world!").
Proof.
  apply (codec_round_trip base58_bitcoin (chars "Hello world!")).
  - do 12 right. left. reflexivity.
  - vm_compute. reflexivity.
  - vm_compute. discriminate.
  - vm_compute. repeat constructor; discriminate.
  - vm_compute. discriminate.
Defined.

(** ** The checksum *)

Lemma lxor_below_256 (a b : Z) :
  0 <= a < 256 -> 0 <= b < 256 -> 0 <= Z.lxor a b < 256.
Proof.
  intros Ha Hb.
  assert (Hnn : 0 <= Z.lxor a b) by (apply Z.lxor_nonneg; lia).
  split; [exact Hnn|].
  destruct (Z.eq_dec (Z.lxor a b) 0) as [->|Hnz]; [lia|].
  change 256 with (2 ^ 8). apply Z.log2_lt_pow2; [lia|].
  pose proof (Z.log2_lxor a b ltac:(lia) ltac:(lia)) as Hl.
  assert (Hla : Z.log2 a < 8).
  { destruct (Z.eq_dec a 0) as [->|]; [cbn; lia|]. apply Z.log2_lt_pow2; lia. }
  assert (Hlb : Z.log2 b < 8).
  { destruct (Z.eq_dec b 0) as [->|]; [cbn; lia|]. apply Z.log2_lt_pow2; lia. }
  lia.
Qed.

Lemma xor_all_below_256 (ds : list Z) :
  digits_below 256 ds -> 0 <= xor_all ds < 256.
Proof.
  induction 1 as [|d ds Hd Hds IH]; [cbn; lia|].
  rewrite xor_all_cons. apply lxor_below_256; assumption.
Qed.

Lemma length_sum_below (bx : BaseX) (sz : Z) :
  2 <= base bx <= 256 -> 0 <= length_sum bx sz < 256.
Proof.
  intros Hb. unfold length_sum.
  pose proof (Z.mod_pos_bound (sz / base bx) (base bx) ltac:(lia)).
  pose proof (Z.mod_pos_bound sz (base bx) ltac:(lia)).
  apply lxor_below_256; lia.
Qed.

Lemma digits_below_weaken (b b' : Z) (ds : list Z) :
  b <= b' -> digits_below b ds -> digits_below b' ds.
Proof.
  intros Hb H. eapply Forall_impl; [|exact H]. cbn. intros; lia.
Qed.

Lemma length_store (a : list Z) (i : nat) (v : Z) : length (store a i v) = length a.
Proof.
  revert i. induction a as [|x a IH]; intros i; [reflexivity|].
  destruct i; cbn [store length]; [reflexivity | rewrite IH; reflexivity].
Qed.

Lemma map_store (f : Z -> Z) (a : list Z) (i : nat) (v : Z) :
  map f (store a i v) = store (map f a) i (f v).
Proof.
  revert i. induction a as [|x a IH]; intros i; [reflexivity|].
  destruct i; cbn [store map]; [reflexivity | rewrite IH; reflexivity].
Qed.

Lemma xor_all_store (xs : list Z) (i : nat) (x : Z) :
  (i < length xs)%nat ->
  xor_all (store xs i x) = Z.lxor (xor_all xs) (Z.lxor (nth i xs 0) x).
Proof.
  revert i. induction xs as [|y xs IH]; intros i Hi; [cbn in Hi; lia|].
  destruct i; cbn [store nth].
  - rewrite !xor_all_cons. xor_tac.
  - rewrite !xor_all_cons, IH by (cbn in Hi; lia). xor_tac.
Qed.

Lemma In_store (xs : list Z) (i : nat) (x y : Z) :
  In y xs -> y = nth i xs 0 \/ In y (store xs i x).
Proof.
  revert i. induction xs as [|z xs IH]; intros i Hin; [contradiction|].
  destruct i; cbn [store nth].
  - destruct Hin as [<-|Hin]; [left; reflexivity | right; right; exact Hin].
  - destruct Hin as [<-|Hin]; [right; left; reflexivity|].
    destruct (IH i Hin) as [E|H]; [left; exact E | right; right; exact H].
Qed.

Lemma In_store_new (xs : list Z) (i : nat) (x : Z) :
  (i < length xs)%nat -> In x (store xs i x).
Proof.
  revert i. induction xs as [|z xs IH]; intros i Hi; [cbn in Hi; lia|].
  destruct i; cbn [store]; [left; reflexivity | right; apply IH; cbn in Hi; lia].
Qed.

(** What the loop of [is_valid] accepts, in terms of the digit values. *)
Lemma is_valid_loop_spec (bx : BaseX) (e : list Z) :
  forall s t, is_valid_loop bx e s = Some t ->
  t = Z.lxor s (xor_all (map (ord bx) e)) /\
  forall x, In x (map (ord bx) e) -> x < base bx.
Proof.
  induction e as [|c e IH]; intros s t H.
  - cbn in H. injection H as <-. split; [cbn; rewrite Z.lxor_0_r; reflexivity | contradiction].
  - cbn [is_valid_loop] in H. destruct (Z.geb_spec (ord bx c) (base bx)); [discriminate|].
    destruct (IH _ _ H) as [-> Hall]. cbn [map]. rewrite xor_all_cons.
    split; [xor_tac|]. intros x [<-|Hx]; [lia | apply Hall, Hx].
Qed.

(** A string accepted with checksum has digit values, all below the base,
    whose xor with the length terms is 0. *)
Lemma is_valid_checksum (bx : BaseX) (e : list Z) :
  e <> [] -> is_valid bx e true = true ->
  Z.lxor (length_sum bx (Z.of_nat (length e) - 1)) (xor_all (map (ord bx) e)) = 0 /\
  forall x, In x (map (ord bx) e) -> x < base bx.
Proof.
  intros Hne. unfold is_valid.
  assert (Hl : Nat.eqb (length e) 0 = false) by (destruct e; [contradiction | reflexivity]).
  rewrite Hl.
  destruct (is_valid_loop bx e _) as [t|] eqn:E; [|discriminate].
  destruct (is_valid_loop_spec bx e _ _ E) as [-> Hall].
  cbn [andb]. intros H. split; [|exact Hall].
  destruct (Z.eqb_spec (Z.lxor (length_sum bx (Z.of_nat (length e) - 1))
                           (xor_all (map (ord bx) e))) 0); [assumption | discriminate].
Qed.

Lemma nth_map_ord (bx : BaseX) (e : list Z) (i : nat) :
  (i < length e)%nat -> nth i (map (ord bx) e) 0 = ord bx (nth i e 0).
Proof.
  revert i. induction e as [|c e IH]; intros i Hi; [cbn in Hi; lia|].
  destruct i; [reflexivity|]. cbn [map nth]. apply IH. cbn in Hi. lia.
Qed.

(** The core of the argument, on the digit values [xs] of the encoded
    string: the digits [ds] and the value [K] of the checksum character. *)
Lemma tamper_detected (b L K y x S : Z) (D : Z) :
  S = Z.lxor D L ->
  (0 <= S < b -> K = S) -> (b <= S -> b <= K) ->
  (* the tampered string is accepted *)
  Z.lxor L (Z.lxor (Z.lxor D K) (Z.lxor y x)) = 0 ->
  x < b -> (y <> K -> K < b) ->
  0 <= S -> x <> y -> False.
Proof.
  intros HS Hlow Hhigh Hsum Hx HK HS0 Hxy.
  assert (E : Z.lxor (Z.lxor S K) (Z.lxor y x) = 0).
  { rewrite <- Hsum, HS. xor_tac. }
  destruct (Z.lt_ge_cases S b) as [Hlt|Hge].
  - rewrite (Hlow ltac:(lia)) in E.
    assert (Z.lxor y x = 0) by (rewrite <- E; xor_tac).
    apply Z.lxor_eq in H. congruence.
  - specialize (Hhigh Hge).
    destruct (Z.eq_dec y K) as [->|Hy]; [|specialize (HK Hy); lia].
    assert (Z.lxor S x = 0) by (rewrite <- E; xor_tac).
    apply Z.lxor_eq in H. lia.
Qed.

(** C6, amended: for every codec that passes [codec_ok] (every bundled
    codec does) and every value, [encode] with checksum returns a string,
    and substituting one of its characters by a character with another
    digit value under [ord] makes [is_valid] with checksum return false.
    (A character with the same digit value, such as the other case of a
    letter under IGNORE_CASE, is not detected.) *)
Theorem checksum_detects_digit_change (bx : BaseX) (num : uint_t) :
  codec_ok bx = true -> well_formed num ->
  exists e, encode bx num true = Ok e /\
  forall (i : nat) (c : Z),
    (i < length e)%nat -> ord bx c <> ord bx (nth i e 0) ->
    is_valid bx (substitute e i c) true = false.
Proof.
  intros Hok Hnum.
  destruct (codec_ok_spec bx Hok) as (Hb & Hinv & Hhigh & _).
  destruct num as [|d0 num'].
  - (* 0 encodes as the one character chr(0), with no checksum character *)
    exists [chr bx 0]. split; [reflexivity|]. intros i c Hi Hc.
    destruct i; [|cbn in Hi; lia]. cbn [nth] in Hc. rewrite (Hinv 0 ltac:(lia)) in Hc.
    unfold substitute, is_valid. cbn [store length Nat.eqb Z.of_nat is_valid_loop].
    destruct (Z.geb_spec (ord bx c) (base bx)); [reflexivity|].
    unfold length_sum. cbn [Z.sub Z.add Z.opp Z.pos_sub].
    rewrite Z.div_0_l, !Zmod_0_l by lia. cbn [Z.lxor andb negb].
    destruct (Z.eqb_spec (ord bx c) 0); [contradiction | reflexivity].
  - destruct (encode_structure bx (d0 :: num') true Hok Hnum ltac:(discriminate))
      as (ds & Hbel & E & _).
    eexists. split; [exact E|]. intros i c Hi Hc.
    set (cs := Z.lxor (xor_all ds) (length_sum bx (Z.of_nat (length ds)))) in *.
    set (e := map (chr bx) ds ++ [chr bx cs]) in *.
    destruct (is_valid bx (substitute e i c) true) eqn:Hv; [exfalso | reflexivity].
    assert (Hlen : length (substitute e i c) = length e) by apply length_store.
    assert (Hne : substitute e i c <> []).
    { intros H. rewrite H in Hlen. cbn in Hlen. lia. }
    destruct (is_valid_checksum bx _ Hne Hv) as [Hsum Hall].
    rewrite Hlen in Hsum. unfold substitute in Hsum, Hall.
    rewrite map_store in Hsum, Hall.
    assert (Hle : length e = Datatypes.S (length ds)).
    { unfold e. rewrite length_app, length_map. cbn [length]. lia. }
    rewrite xor_all_store in Hsum by (rewrite length_map; exact Hi).
    rewrite (nth_map_ord bx e i Hi) in Hsum.
    assert (Hmap : map (ord bx) e = ds ++ [ord bx (chr bx cs)]).
    { unfold e. rewrite map_app, map_map. cbn [map]. f_equal.
      rewrite <- (map_id ds) at 2. apply map_ext_in. intros d Hd.
      apply Hinv. unfold digits_below in Hbel. rewrite Forall_forall in Hbel. auto. }
    rewrite Hmap, xor_all_app in Hsum.
    replace (xor_all [ord bx (chr bx cs)]) with (ord bx (chr bx cs)) in Hsum
      by (unfold xor_all; cbn [fold_left]; rewrite Z.lxor_0_l; reflexivity).
    rewrite Hle in Hsum.
    replace (Z.of_nat (Datatypes.S (length ds)) - 1) with (Z.of_nat (length ds)) in Hsum by lia.
    assert (HS : 0 <= cs < 256).
    { unfold cs. apply lxor_below_256.
      - apply xor_all_below_256. eapply digits_below_weaken; [|exact Hbel]. lia.
      - apply length_sum_below. exact Hb. }
    apply (tamper_detected (base bx) (length_sum bx (Z.of_nat (length ds)))
             (ord bx (chr bx cs)) (ord bx (nth i e 0)) (ord bx c) cs (xor_all ds)).
    + reflexivity.
    + intros H. apply Hinv. exact H.
    + intros H. apply Hhigh. lia.
    + exact Hsum.
    + apply Hall. apply In_store_new. rewrite length_map. exact Hi.
    + intros Hy. apply Hall.
      assert (Hin : In (ord bx (chr bx cs)) (map (ord bx) e)).
      { rewrite Hmap. apply in_or_app. right. left. reflexivity. }
      destruct (In_store _ i (ord bx c) _ Hin) as [Heq|Hin']; [|exact Hin'].
      rewrite (nth_map_ord bx e i Hi) in Heq. congruence.
    + lia.
    + exact Hc.
Qed.

Lemma checksum_detects_digit_change_witness :
  exists e, encode base16 (uint_of 171) true = Ok e /\
  forall (i : nat) (c : Z),
    (i < length e)%nat -> ord base16 c <> ord base16 (nth i e 0) ->
    is_valid base16 (substitute e i c) true = false.
Proof.
  apply (checksum_detects_digit_change base16 (uint_of 171)).
  - vm_compute. reflexivity.
  - apply uint_of_well_formed. unfold is_digit. lia.
Defined.

(** ** The ignored characters *)

Lemma nth_store_zero (a : list Z) (i j : nat) (d : Z) :
  nth i a d = 0 -> nth i (store a j 0) d = 0.
Proof.
  revert i j. induction a as [|x a IH]; intros i j H; [exact H|].
  destruct j, i; cbn [store nth] in *; auto.
Qed.

Lemma nth_store_same (a : list Z) (i : nat) (v d : Z) :
  (i < length a)%nat -> nth i (store a i v) d = v.
Proof.
  revert i. induction a as [|x a IH]; intros i H; [cbn in H; lia|].
  destruct i; cbn [store nth]; [reflexivity | apply IH; cbn in H; lia].
Qed.

Lemma nth_store_other (a : list Z) (i j : nat) (v d : Z) :
  i <> j -> nth j (store a i v) d = nth j a d.
Proof.
  revert i j. induction a as [|x a IH]; intros i j H; [reflexivity|].
  destruct i, j; cbn [store nth]; try reflexivity; [contradiction | apply IH; lia].
Qed.

Lemma ctor_ignored_length (l ord_ : list Z) :
  length (ctor_ignored l ord_) = length ord_.
Proof.
  revert ord_. induction l as [|ch l IH]; intros ord_; [reflexivity|].
  cbn [ctor_ignored]. rewrite IH. apply length_store.
Qed.

Lemma ctor_ignored_keeps_zero (l ord_ : list Z) (i : nat) :
  nth i ord_ 255 = 0 -> nth i (ctor_ignored l ord_) 255 = 0.
Proof.
  revert ord_. induction l as [|ch l IH]; intros ord_ H; [exact H|].
  cbn [ctor_ignored]. apply IH, nth_store_zero, H.
Qed.

(** The first loop of the constructor gives an ignored character the
    digit value 0. *)
Lemma ctor_ignored_zero (l ord_ : list Z) (c : Z) :
  In c l -> (Z.to_nat c < length ord_)%nat ->
  nth (Z.to_nat c) (ctor_ignored l ord_) 255 = 0.
Proof.
  revert ord_. induction l as [|ch l IH]; intros ord_ Hin Hc; [contradiction|].
  cbn [ctor_ignored]. destruct Hin as [->|Hin].
  - apply ctor_ignored_keeps_zero, nth_store_same, Hc.
  - apply IH; [exact Hin | rewrite length_store; exact Hc].
Qed.

(** The second loop leaves alone every entry that is neither an alphabet
    character nor, under IGNORE_CASE, the other case of one. *)
Lemma ctor_alphabet_other (flags : Z) (k : nat) (l : list Z) :
  (forall a, In a l ->
     Z.to_nat a <> k /\
     (folds_case flags = true ->
      forall b, other_case a = Some b -> Z.to_nat b <> k)) ->
  forall i tables,
    nth k (snd (ctor_alphabet l i flags tables)) 255 = nth k (snd tables) 255.
Proof.
  induction l as [|ch l IH]; intros Hl i [chr_ ord_]; [reflexivity|].
  cbn [ctor_alphabet]. rewrite IH by (intros a Ha; apply Hl; right; exact Ha).
  destruct (Hl ch (or_introl eq_refl)) as (H1 & H2). cbn [snd].
  unfold folds_case, other_case in H2.
  destruct (negb (Z.land flags IGNORE_CASE =? 0)).
  - specialize (H2 eq_refl).
    destruct ((65 <=? ch) && (ch <=? 90)) eqn:Eu;
      [|destruct ((97 <=? ch) && (ch <=? 122)) eqn:El].
    + rewrite !nth_store_other by (try apply (H2 _ eq_refl); assumption). reflexivity.
    + rewrite !nth_store_other by (try apply (H2 _ eq_refl); assumption). reflexivity.
    + rewrite nth_store_other by assumption. reflexivity.
  - rewrite nth_store_other by assumption. reflexivity.
Qed.

(** A character of the ignored set that is not an alphabet character nor,
    under IGNORE_CASE, the other case of an alphabet letter, has the digit
    value 0 in the constructed codec. *)
Lemma ctor_ord_ignored (alphabet ignored : list Z) (flags : Z) (bx : BaseX) (c : Z) :
  BaseX_ctor alphabet ignored flags = Ok bx ->
  Forall is_byte alphabet -> is_byte c -> In c ignored ->
  ~ In c alphabet ->
  (folds_case flags = true -> forall a, In a alphabet -> other_case a <> Some c) ->
  ord bx c = 0.
Proof.
  intros Hctor Hal Hc Hin Hn0 Hn1.
  rewrite BaseX_ctor_in_range in Hctor by (eapply BaseX_ctor_Ok_length; exact Hctor).
  cbv zeta in Hctor. unfold is_byte in *.
  pose proof (ctor_alphabet_other flags (Z.to_nat c) (rev alphabet)) as Hother.
  destruct (ctor_alphabet (rev alphabet) _ flags _) as [chr_ ord_] eqn:E.
  injection Hctor as <-. unfold ord. cbn [_ord].
  assert (Hcond : forall a, In a (rev alphabet) ->
            Z.to_nat a <> Z.to_nat c /\
            (folds_case flags = true ->
             forall b, other_case a = Some b -> Z.to_nat b <> Z.to_nat c)).
  { intros a Ha. apply in_rev in Ha.
    pose proof (proj1 (Forall_forall _ _) Hal a Ha) as Hb. cbn beta in Hb.
    split.
    - assert (a <> c) by congruence. lia.
    - intros Hf b Eb Hbc. apply (Hn1 Hf a Ha). rewrite Eb. f_equal.
      assert (0 <= b).
      { unfold other_case in Eb.
        destruct ((65 <=? a) && (a <=? 90)); [injection Eb as <-; lia|].
        destruct ((97 <=? a) && (a <=? 122)) eqn:El; [|discriminate].
        injection Eb as <-. lia. }
      lia. }
  specialize (Hother Hcond (Z.of_nat (length alphabet))
                (repeat 0 256, ctor_ignored (rev ignored) (repeat 255 256))).
  rewrite E in Hother. cbn [snd] in Hother. rewrite Hother.
  apply ctor_ignored_zero; [apply in_rev; rewrite rev_involutive; exact Hin|].
  rewrite repeat_length. lia.
Qed.

(** The loops of [decode] see a character through [ord] only, as long as
    it is a digit. *)
Lemma decode_pow2_subst (bx : BaseX) (c z : Z) (s2 : list Z) :
  ord bx c = ord bx z -> ord bx c < base bx ->
  forall s1 sz result sum,
    decode_pow2 bx (s1 ++ c :: s2) sz result sum
    = decode_pow2 bx (s1 ++ z :: s2) sz result sum.
Proof.
  intros Heq Hlt. induction s1 as [|x s1 IH]; intros sz result sum.
  - cbn [app decode_pow2]. rewrite <- Heq.
    destruct (Z.geb_spec (ord bx c) (base bx)); [lia | reflexivity].
  - cbn [app decode_pow2]. destruct (ord bx x >=? base bx); [reflexivity | apply IH].
Qed.

Lemma decode_general_subst (bx : BaseX) (c z : Z) (s2 : list Z) (uint_base : uint_t) :
  ord bx c = ord bx z -> ord bx c < base bx ->
  forall s1 sz result sum,
    decode_general bx (s1 ++ c :: s2) sz uint_base result sum
    = decode_general bx (s1 ++ z :: s2) sz uint_base result sum.
Proof.
  intros Heq Hlt. induction s1 as [|x s1 IH]; intros sz result sum.
  - cbn [app decode_general]. rewrite <- Heq.
    destruct (Z.geb_spec (ord bx c) (base bx)); [lia | reflexivity].
  - cbn [app decode_general]. destruct (ord bx x >=? base bx); [reflexivity|].
    destruct (mult result uint_base); cbn [bind]; [apply IH | reflexivity].
Qed.

(** [decode] gives the same result, or throws the same exception, when a
    digit is written with another character of the same digit value. *)
Lemma decode_subst (bx : BaseX) (c z : Z) (s1 s2 : list Z) (checksum : bool) :
  ord bx c = ord bx z -> ord bx c < base bx ->
  decode bx (s1 ++ c :: s2) checksum = decode bx (s1 ++ z :: s2) checksum.
Proof.
  intros Heq Hlt. unfold decode.
  rewrite !length_app. cbn [length].
  replace (Nat.eqb (length s1 + S (length s2)) 0) with false
    by (symmetry; apply Nat.eqb_neq; lia).
  rewrite andb_false_r.
  destruct checksum.
  - replace (Z.to_nat (Z.of_nat (length s1 + S (length s2)) - 1))
      with (length s1 + length s2)%nat by lia.
    rewrite !firstn_app.
    replace (length s1 + length s2 - length s1)%nat with (length s2) by lia.
    rewrite !firstn_all2 with (l := s1) by lia.
    rewrite !app_nth2 by lia.
    replace (length s1 + length s2 - length s1)%nat with (length s2) by lia.
    destruct s2 as [|y s2].
    + cbn [length firstn nth]. rewrite <- Heq.
      destruct (negb (base_bits bx =? 0)).
      * destruct (decode_pow2 _ _ _ _ _) as [[r s]|]; cbn [bind]; [|reflexivity].
        destruct (Z.geb_spec (ord bx c) (base bx)); [lia | reflexivity].
      * destruct (decode_general _ _ _ _ _ _) as [[r s]|]; cbn [bind]; [|reflexivity].
        destruct (Z.geb_spec (ord bx c) (base bx)); [lia | reflexivity].
    + cbn [length firstn nth].
      rewrite (decode_pow2_subst bx c z _ Heq Hlt),
              (decode_general_subst bx c z _ _ Heq Hlt).
      reflexivity.
  - rewrite Nat2Z.id.
    rewrite !firstn_all2 by (rewrite length_app; cbn [length]; lia).
    rewrite (decode_pow2_subst bx c z _ Heq Hlt),
            (decode_general_subst bx c z _ _ Heq Hlt).
    reflexivity.
Qed.

(** C3, amended: in a codec constructed from an alphabet and an ignored
    set, a character of the ignored set that is not an alphabet character
    nor, under IGNORE_CASE, the other case of an alphabet letter is not
    skipped by [decode]: it is read as the digit 0.  A string with such a
    character in it decodes, with or without checksum, to what the string
    with any character of digit value 0 in its place decodes to. *)
Theorem ignored_character_is_digit_zero
  (alphabet ignored : list Z) (flags : Z) (bx : BaseX)
  (c z : Z) (s1 s2 : list Z) (checksum : bool) :
  BaseX_ctor alphabet ignored flags = Ok bx ->
  Forall is_byte alphabet -> is_byte c -> In c ignored ->
  ~ In c alphabet ->
  (folds_case flags = true -> forall a, In a alphabet -> other_case a <> Some c) ->
  ord bx z = 0 ->
  ord bx c = 0 /\
  decode bx (s1 ++ c :: s2) checksum = decode bx (s1 ++ z :: s2) checksum.
Proof.
  intros Hctor Hal Hc Hin Hn0 Hn1 Hz.
  pose proof (ctor_ord_ignored alphabet ignored flags bx c Hctor Hal Hc Hin Hn0 Hn1)
    as Hord.
  split; [exact Hord|].
  apply decode_subst; [congruence|].
  rewrite Hord.
  pose proof (BaseX_ctor_Ok_length _ _ _ _ Hctor) as Hlen.
  destruct (ctor_in_range alphabet ignored flags Hlen) as (bx' & E & Hb).
  rewrite E in Hctor. injection Hctor as <-. lia.
Qed.

Lemma ignored_character_is_digit_zero_witness :
  ord base32_rfc4648 13 = 0 /\
  decode base32_rfc4648 (chars "MF" ++ 13 :: chars "RA") false
  = decode base32_rfc4648 (chars "MF" ++ 65 :: chars "RA") false.
Proof.
  apply (ignored_character_is_digit_zero
           (chars "ABCDEFGHIJKLMNOPQRSTUVWXYZ234567") (chars rfc_ignored)
           (Z.lor IGNORE_CASE BLOCK_PADDING)
           base32_rfc4648 13 65 (chars "MF") (chars "RA") false).
  - vm_compute. reflexivity.
  - vm_compute. repeat (constructor; [split; [discriminate | reflexivity]|]). constructor.
  - unfold is_byte. lia.
  - vm_compute. tauto.
  - vm_compute. intuition discriminate.
  - intros _ a Ha Eb.
    assert (Hr : 65 <= 13 <= 122); [|lia].
    unfold other_case in Eb.
    destruct ((65 <=? a) && (a <=? 90)) eqn:Eu;
      [injection Eb as Eb; lia|].
    destruct ((97 <=? a) && (a <=? 122)) eqn:El; [|discriminate].
    injection Eb as Eb. lia.
  - vm_compute. reflexivity.
Defined.

(** * Further properties of [uint_t] *)

(** ** [trim] *)

(** [trim()] removes the zero digits at the most significant end and
    nothing else: what it returns is canonical, has the value and the
    digit range of its argument, and is left alone by another [trim()]. *)
Theorem trim_normalises (n : uint_t) :
  canonical (trim 0 n) /\ value (trim 0 n) = value n /\
  (digits_ok n -> digits_ok (trim 0 n)) /\
  trim 0 (trim 0 n) = trim 0 n /\
  exists k, n = trim 0 n ++ repeat 0 k.
Proof.
  split; [apply trim_canonical|]. split; [apply trim_value|].
  split; [apply trim_digits_ok|].
  split; [apply trim_canonical_id, trim_canonical|].
  rewrite trim_0_eq.
  assert (H : forall r, exists k, rev r = rev (drop_zeros r) ++ repeat 0 k).
  { induction r as [|c r IH]; [exists O; reflexivity|].
    cbn [drop_zeros]. destruct (Z.eqb_spec c 0) as [->|Hc].
    - destruct IH as [k IH]. exists (S k). cbn [rev]. rewrite IH.
      rewrite <- app_assoc. f_equal. change [0] with (repeat 0 1).
      rewrite <- repeat_app. f_equal. lia.
    - exists O. cbn [repeat]. rewrite app_nil_r. reflexivity. }
  destruct (H (rev n)) as [k Hk]. exists k. rewrite rev_involutive in Hk. exact Hk.
Qed.

(** ** [compare] *)

Lemma compare_from_spec (l : list Z) :
  forall r, length l = length r -> digits_ok l -> digits_ok r ->
  compare_from l r =
  match value (rev l) ?= value (rev r) with Eq => 0 | Lt => -1 | Gt => 1 end.
Proof.
  induction l as [|x l IH]; intros [|y r] Hlen Hl Hr; try discriminate.
  - reflexivity.
  - cbn [compare_from]. inversion Hl as [|? ? Hx Hl']; inversion Hr as [|? ? Hy Hr']; subst.
    injection Hlen as Hlen. rewrite !value_rev_cons, <- Hlen.
    pose proof (value_bound (rev l) (proj2 (digits_ok_rev l) Hl')) as Bl.
    pose proof (value_bound (rev r) (proj2 (digits_ok_rev r) Hr')) as Br.
    rewrite length_rev in Bl, Br. rewrite <- Hlen in Br.
    set (P := 2 ^ (64 * Z.of_nat (length l))) in *.
    destruct (Z.eqb_spec x y) as [->|Hxy].
    + rewrite (IH r Hlen Hl' Hr').
      destruct (Z.compare_spec (value (rev l)) (value (rev r)));
        destruct (Z.compare_spec (value (rev l) + P * y) (value (rev r) + P * y));
        try reflexivity; lia.
    + destruct (Z.gtb_spec x y);
        destruct (Z.compare_spec (value (rev l) + P * x) (value (rev r) + P * y));
        try reflexivity; nia.
Qed.

Lemma value_longer (a b : uint_t) :
  well_formed a -> well_formed b -> (length b < length a)%nat -> value b < value a.
Proof.
  intros Ha Hb Hlen.
  assert (Hne : a <> []) by (intros ->; cbn in Hlen; lia).
  pose proof (value_lower a Ha Hne) as Hlow.
  pose proof (value_bound b (proj1 Hb)) as Hup.
  eapply Z.lt_le_trans; [apply Hup|].
  eapply Z.le_trans; [|exact Hlow].
  apply Z.pow_le_mono_r; lia.
Qed.

Lemma compare_spec (a b : uint_t) :
  well_formed a -> well_formed b ->
  compare a b = match value a ?= value b with Eq => 0 | Lt => -1 | Gt => 1 end.
Proof.
  intros Ha Hb. unfold compare, size.
  destruct (Nat.ltb_spec (length b) (length a)) as [H1|H1].
  - pose proof (value_longer a b Ha Hb H1).
    destruct (Z.compare_spec (value a) (value b)); try reflexivity; lia.
  - destruct (Nat.ltb_spec (length a) (length b)) as [H2|H2].
    + pose proof (value_longer b a Hb Ha H2).
      destruct (Z.compare_spec (value a) (value b)); try reflexivity; lia.
    + rewrite compare_from_spec, !rev_involutive;
        [reflexivity | rewrite !length_rev; lia | apply digits_ok_rev, Ha | apply digits_ok_rev, Hb].
Qed.

(** [compare] orders canonical values as the numbers they stand for: it
    returns -1, 0 or 1 as the left value is below, equal to or above the
    right one. *)
Theorem compare_orders_values (a b : uint_t) :
  well_formed a -> well_formed b ->
  compare a b = match value a ?= value b with Eq => 0 | Lt => -1 | Gt => 1 end /\
  (compare a b = 0 <-> a = b).
Proof.
  intros Ha Hb. pose proof (compare_spec a b Ha Hb) as H. split; [exact H|].
  rewrite H. split.
  - intros E. apply value_inj; [assumption | assumption|].
    destruct (Z.compare_spec (value a) (value b)); [assumption | discriminate | discriminate].
  - intros ->. rewrite Z.compare_refl. reflexivity.
Qed.

Lemma compare_orders_values_witness :
  compare [5; 7] [9; 6] = match value [5; 7] ?= value [9; 6] with
                          | Eq => 0 | Lt => -1 | Gt => 1 end /\
  (compare [5; 7] [9; 6] = 0 <-> [5; 7] = [9; 6]).
Proof.
  apply (compare_orders_values [5; 7] [9; 6]).
  - split; [digits_tac | unfold canonical; cbn; lia].
  - split; [digits_tac | unfold canonical; cbn; lia].
Defined.

(** Without canonical form [compare] goes by the length first: a zero
    digit at the top makes a small number compare above a larger one. *)
Lemma compare_needs_canonical : compare [1; 0] [2] = 1 /\ value [1; 0] < value [2].
Proof. split; [reflexivity | cbn; lia]. Qed.

(** ** Addition *)

Lemma add_spec (a b : uint_t) :
  well_formed a -> well_formed b ->
  value (add a b) = value a + value b /\ well_formed (add a b).
Proof.
  intros Ha Hb. unfold add, add_into.
  destruct b as [|y b]; [cbn; split; [lia | exact Ha]|].
  destruct a as [|x a]; [cbn [to_bool size length Nat.eqb negb value]; split; [lia | exact Hb]|].
  cbn [to_bool size length Nat.eqb negb]. unfold long_add.
  cbn [Nat.min skipn size].
  pose proof (add_loop_spec (Nat.max (length (x :: a)) (length (y :: b)))
                (x :: a) (y :: b) 0 (proj1 Ha) (proj1 Hb)
                ltac:(lia) ltac:(lia) ltac:(lia)) as H.
  destruct (add_loop _ (x :: a) (y :: b) 0) as [s c].
  destruct H as (Hv & Hs & Hc & Hlen).
  unfold resize. cbn [firstn repeat Nat.sub length app].
  rewrite trim_value. split.
  - destruct (Z.eqb_spec c 0) as [->|Hc0].
    + rewrite app_nil_r. lia.
    + rewrite value_app, Hlen. assert (c = 1) as -> by lia.
      change (value [1]) with 1. lia.
  - apply trim_well_formed. apply digits_ok_app. split; [exact Hs|].
    destruct (c =? 0); digits_tac.
Qed.

(** [operator+]: the sum of two canonical values is canonical and stands
    for the sum of the numbers, whatever the lengths; no carry is lost. *)
Theorem add_is_sum (a b : uint_t) :
  well_formed a -> well_formed b ->
  value (add a b) = value a + value b /\ well_formed (add a b).
Proof. exact (add_spec a b). Qed.

Lemma add_is_sum_witness :
  value (add [2 ^ 64 - 1; 2 ^ 64 - 1] [1]) = value [2 ^ 64 - 1; 2 ^ 64 - 1] + value [1] /\
  well_formed (add [2 ^ 64 - 1; 2 ^ 64 - 1] [1]).
Proof.
  apply (add_is_sum [2 ^ 64 - 1; 2 ^ 64 - 1] [1]).
  - split; [digits_tac | unfold canonical; cbn; lia].
  - split; [digits_tac | unfold canonical; cbn; lia].
Defined.

(** ** Subtraction *)

Lemma _subborrow_spec (x y c : Z) :
  is_digit 64 x -> is_digit 64 y -> 0 <= c <= 1 ->
  let r := _subborrow x y c in
  snd r - 2 ^ 64 * fst r = x - y - c /\ is_digit 64 (snd r) /\ 0 <= fst r <= 1.
Proof.
  intros Hx Hy Hc r. unfold is_digit in *. unfold r, _subborrow, wrap. cbn [fst snd].
  rewrite Z.shiftr_div_pow2 by lia.
  destruct (Z.le_gt_cases 0 (x - y - c)) as [Hpos|Hneg].
  - rewrite (Z.mod_small (x - y - c) (2 ^ 128)) by (rewrite pow128; nia).
    rewrite Z.div_small, Z.mod_small by lia. cbn [Z.eqb]. lia.
  - assert (E : (x - y - c) mod 2 ^ 128 = x - y - c + 2 ^ 128).
    { symmetry. apply Z.mod_unique with (-1); [left; rewrite pow128; nia | ring]. }
    rewrite E.
    assert (Eq : (x - y - c + 2 ^ 128) / 2 ^ 64 = 2 ^ 64 - 1).
    { symmetry. apply Z.div_unique with (x - y - c + 2 ^ 64); [left; lia|].
      rewrite pow128. ring. }
    rewrite Eq. cbn [Z.eqb].
    assert (Em : (x - y - c + 2 ^ 128) mod 2 ^ 64 = x - y - c + 2 ^ 64).
    { symmetry. apply Z.mod_unique with (2 ^ 64 - 1); [left; lia|].
      rewrite pow128. ring. }
    rewrite Em. change (2 ^ 64 - 1 =? 0) with false. cbn iota. lia.
Qed.

Lemma sub_loop_spec (n : nat) :
  forall l r c, digits_ok l -> digits_ok r ->
  (length l <= n)%nat -> (length r <= n)%nat -> 0 <= c <= 1 ->
  let '(s, c') := sub_loop n l r c in
  value s - 2 ^ (64 * Z.of_nat n) * c' = value l - value r - c /\
  digits_ok s /\ 0 <= c' <= 1 /\ length s = n.
Proof.
  induction n as [|n IH]; intros l r c Hl Hr Hln Hrn Hc.
  - destruct l; [|cbn in Hln; lia]. destruct r; [|cbn in Hrn; lia].
    cbn [sub_loop value]. change (Z.of_nat 0) with 0. rewrite Z.mul_0_r.
    change (2 ^ 0) with 1. split; [lia | split; [constructor | split; [lia | reflexivity]]].
  - cbn [sub_loop].
    destruct (digits_ok_hd_tl l Hl) as [Hhl Htl].
    destruct (digits_ok_hd_tl r Hr) as [Hhr Htr].
    pose proof (_subborrow_spec (hd 0 l) (hd 0 r) c Hhl Hhr Hc) as H.
    destruct (_subborrow (hd 0 l) (hd 0 r) c) as [c1 s1]. cbn [fst snd] in H.
    destruct H as (E & Hs1 & Hc1).
    assert (Hlt : (length (tl l) <= n)%nat) by (destruct l; cbn in *; lia).
    assert (Hrt : (length (tl r) <= n)%nat) by (destruct r; cbn in *; lia).
    specialize (IH (tl l) (tl r) c1 Htl Htr Hlt Hrt Hc1).
    destruct (sub_loop n (tl l) (tl r) c1) as [t c2].
    destruct IH as (IHv & IHd & IHc & IHlen).
    split; [|split; [constructor; assumption | split; [assumption | cbn [length]; congruence]]].
    cbn [value]. rewrite pow64_succ, (value_hd_tl l), (value_hd_tl r).
    nia.
Qed.

(** The digits [long_sub] leaves: the difference modulo the power of the
    digit base that the longer operand has digits. *)
Lemma long_sub_spec (a b : uint_t) :
  digits_ok a -> digits_ok b ->
  value (long_sub [] a b 0 0 0)
  = (value a - value b) mod 2 ^ (64 * Z.of_nat (Nat.max (length a) (length b))) /\
  well_formed (long_sub [] a b 0 0 0).
Proof.
  intros Ha Hb. unfold long_sub. cbn [Nat.min skipn size].
  pose proof (sub_loop_spec (Nat.max (length a) (length b)) a b 0 Ha Hb
                ltac:(lia) ltac:(lia) ltac:(lia)) as H.
  destruct (sub_loop _ a b 0) as [s c]. destruct H as (Hv & Hs & Hc & Hlen).
  unfold resize. cbn [firstn repeat Nat.sub length app].
  rewrite trim_value. split; [|apply trim_well_formed, Hs].
  pose proof (value_bound s Hs) as Bs. rewrite Hlen in Bs.
  apply Z.mod_unique with (- c); [left; exact Bs | lia].
Qed.

Lemma sub_spec (a b : uint_t) :
  well_formed a -> well_formed b ->
  well_formed (sub a b) /\
  (value b <= value a -> value (sub a b) = value a - value b) /\
  (value a < value b ->
   value (sub a b) = value a - value b + 2 ^ (64 * Z.of_nat (length b))).
Proof.
  intros Ha Hb. unfold sub.
  destruct b as [|y b].
  - cbn [to_bool size length Nat.eqb negb value].
    split; [exact Ha|]. split; [intros; lia|].
    pose proof (value_bound a (proj1 Ha)). lia.
  - cbn [to_bool size length Nat.eqb negb].
    destruct (long_sub_spec a (y :: b) (proj1 Ha) (proj1 Hb)) as [Hv Hw].
    split; [exact Hw|].
    pose proof (value_bound a (proj1 Ha)) as Ba.
    pose proof (value_bound (y :: b) (proj1 Hb)) as Bb.
    set (m := Nat.max (length a) (length (y :: b))) in *.
    assert (Pa : 2 ^ (64 * Z.of_nat (length a)) <= 2 ^ (64 * Z.of_nat m))
      by (apply Z.pow_le_mono_r; lia).
    assert (Pb : 2 ^ (64 * Z.of_nat (length (y :: b))) <= 2 ^ (64 * Z.of_nat m))
      by (apply Z.pow_le_mono_r; lia).
    split; intros Hle.
    + rewrite Hv. apply Z.mod_small. lia.
    + assert (Hm : m = length (y :: b)).
      { unfold m. destruct (Nat.le_gt_cases (length a) (length (y :: b))) as [?|Hgt]; [lia|].
        pose proof (value_longer a (y :: b) Ha Hb Hgt). lia. }
      rewrite Hv, Hm. rewrite Hm in Pb. symmetry.
      change (S (length b)) with (length (y :: b)).
      set (P := 2 ^ (64 * Z.of_nat (length (y :: b)))) in *.
      apply Z.mod_unique with (-1); [left; lia | ring].
Qed.

(** [operator-]: the difference of two canonical values is canonical; it
    stands for the difference of the numbers when the left one is not the
    smaller, and otherwise it wraps: the difference plus [2 ^ (64 n)],
    [n] the digit count of the right operand. *)
Theorem sub_is_difference (a b : uint_t) :
  well_formed a -> well_formed b ->
  well_formed (sub a b) /\
  (value b <= value a -> value (sub a b) = value a - value b) /\
  (value a < value b ->
   value (sub a b) = value a - value b + 2 ^ (64 * Z.of_nat (length b))).
Proof. exact (sub_spec a b). Qed.

Lemma sub_is_difference_witness :
  well_formed (sub [0; 1] [1]) /\
  (value [1] <= value [0; 1] -> value (sub [0; 1] [1]) = value [0; 1] - value [1]) /\
  (value [0; 1] < value [1] ->
   value (sub [0; 1] [1]) = value [0; 1] - value [1] + 2 ^ (64 * Z.of_nat (length [1]))).
Proof.
  apply (sub_is_difference [0; 1] [1]).
  - split; [digits_tac | unfold canonical; cbn; lia].
  - split; [digits_tac | unfold canonical; cbn; lia].
Defined.

(** [operator-()] is [0 - n]: for a non-zero canonical [n] it returns the
    two's complement of [n] on the digits [n] has, [2 ^ (64 size) - n];
    [-0] is 0. *)
Theorem operator_neg_twos_complement (n : uint_t) :
  well_formed n ->
  well_formed (operator_neg n) /\
  value (operator_neg n)
  = if value n =? 0 then 0 else 2 ^ (64 * Z.of_nat (length n)) - value n.
Proof.
  intros Hn. unfold operator_neg.
  destruct (sub_spec uint_0 n well_formed_nil Hn) as (Hw & Hge & Hlt).
  split; [exact Hw|].
  pose proof (value_bound n (proj1 Hn)) as B.
  change (value uint_0) with 0 in *.
  destruct (Z.eqb_spec (value n) 0) as [E|E].
  - rewrite Hge by lia. lia.
  - rewrite Hlt by lia. lia.
Qed.

Lemma operator_neg_twos_complement_witness :
  well_formed (operator_neg [1]) /\
  value (operator_neg [1])
  = if value [1] =? 0 then 0 else 2 ^ (64 * Z.of_nat (length [1])) - value [1].
Proof.
  apply (operator_neg_twos_complement [1]).
  split; [digits_tac | unfold canonical; cbn; lia].
Defined.

(** ** Multiplication *)

(** One row of [long_mult]: the accumulator window gains the product of
    the digit and [rhs]; the slot after the row takes the last carry. *)
Lemma mult_row_spec (d : Z) (rest : list Z) :
  is_digit 64 d ->
  forall rhs A carry,
    length A = length rhs -> digits_ok rhs -> digits_ok A -> is_digit 64 carry ->
    exists A' c,
      mult_row rhs d (A ++ 0 :: rest) carry = A' ++ c :: rest /\
      value A' + 2 ^ (64 * Z.of_nat (length rhs)) * c = value A + d * value rhs + carry /\
      digits_ok A' /\ is_digit 64 c /\ length A' = length rhs.
Proof.
  intros Hd. induction rhs as [|y rhs IH]; intros A carry Hlen Hr HA Hc.
  - destruct A; [|discriminate]. cbn [app mult_row].
    exists [], carry. split.
    + destruct (Z.eqb_spec carry 0) as [->|]; reflexivity.
    + cbn [value length]. change (Z.of_nat 0) with 0. rewrite Z.mul_0_r.
      change (2 ^ 0) with 1. split; [lia|]. split; [constructor | split; [exact Hc | reflexivity]].
  - destruct A as [|a A]; [discriminate|]. injection Hlen as Hlen.
    inversion Hr as [|? ? Hy Hr']; inversion HA as [|? ? Ha HA']; subst.
    cbn [app mult_row].
    pose proof (_multadd_spec y d a carry Hy Hd Ha Hc) as H.
    destruct (_multadd gcc64 y d a carry) as [hi lo]. cbn [fst snd] in H.
    destruct H as (E & Hhi & Hlo).
    destruct (IH A hi Hlen Hr' HA' Hhi) as (A' & c & Er & Ev & HdA & Hcd & HlA).
    exists (lo :: A'), c. rewrite Er. split; [reflexivity|].
    split; [|split; [constructor; assumption | split; [exact Hcd | cbn [length]; congruence]]].
    cbn [value length]. rewrite pow64_succ. nia.
Qed.

Lemma repeat_S_cons {A} (x : A) (n : nat) : repeat x (S n) = x :: repeat x n.
Proof. reflexivity. Qed.

(** The rows of [long_mult] add [lhs * rhs] to what the accumulator holds;
    the zero digits of [lhs] are skipped. *)
Lemma long_mult_rows_spec (rhs : list Z) :
  digits_ok rhs ->
  forall lhs A, length A = length rhs -> digits_ok lhs -> digits_ok A ->
  value (long_mult_rows lhs rhs (A ++ repeat 0 (length lhs)))
  = value A + value lhs * value rhs /\
  digits_ok (long_mult_rows lhs rhs (A ++ repeat 0 (length lhs))).
Proof.
  intros Hr. induction lhs as [|d lhs IH]; intros A Hlen Hl HA.
  - cbn [long_mult_rows length repeat value]. rewrite app_nil_r. split; [lia | exact HA].
  - inversion Hl as [|? ? Hd Hl']; subst.
    cbn [length long_mult_rows]. rewrite repeat_S_cons.
    assert (Hrow : exists B, (if d =? 0 then A ++ 0 :: repeat 0 (length lhs)
                              else mult_row rhs d (A ++ 0 :: repeat 0 (length lhs)) 0)
                             = B ++ repeat 0 (length lhs) /\
                             value B = value A + d * value rhs /\
                             digits_ok B /\ length B = S (length rhs)).
    { destruct (Z.eqb_spec d 0) as [->|Hd0].
      - exists (A ++ [0]). rewrite <- app_assoc. split; [reflexivity|].
        rewrite value_app. cbn [value]. split; [lia|].
        split; [apply digits_ok_app; split; [exact HA | digits_tac]|].
        rewrite length_app. cbn [length]. lia.
      - destruct (mult_row_spec d (repeat 0 (length lhs)) Hd rhs A 0 Hlen Hr HA ltac:(dlia))
          as (A' & c & Er & Ev & HdA & Hc & HlA).
        exists (A' ++ [c]). rewrite Er, <- app_assoc. split; [reflexivity|].
        rewrite value_app, HlA. cbn [value]. split; [lia|].
        split; [apply digits_ok_app; split; [exact HdA | digits_tac]|].
        rewrite length_app. cbn [length]. lia. }
    destruct Hrow as (B & -> & Hv & HdB & HlB).
    destruct B as [|b0 B]; [discriminate|]. injection HlB as HlB.
    inversion HdB as [|? ? Hb0 HdB']; subst. cbn [app].
    destruct (IH B HlB Hl' HdB') as [IHv IHd].
    split; [|constructor; assumption].
    cbn [value] in *. rewrite IHv. nia.
Qed.

Lemma long_mult_spec (a b : uint_t) :
  digits_ok a -> digits_ok b ->
  value (long_mult a b) = value a * value b /\ well_formed (long_mult a b).
Proof.
  assert (H : forall l r, digits_ok l -> digits_ok r ->
            value (if Nat.eqb (size l) 1 then single_mult r l
                   else trim 0 (long_mult_rows l r (repeat 0 (size l + size r))))
            = value l * value r /\
            well_formed (if Nat.eqb (size l) 1 then single_mult r l
                         else trim 0 (long_mult_rows l r (repeat 0 (size l + size r))))).
  { intros l r Hl Hr. destruct (Nat.eqb_spec (size l) 1) as [E|E].
    - destruct l as [|n [|? ?]]; try discriminate.
      inversion Hl as [|? ? Hn _]; subst.
      destruct (single_mult_spec r n Hn Hr) as [Hv Hw].
      split; [rewrite Hv; cbn [value]; lia | exact Hw].
    - unfold size. rewrite Nat.add_comm, repeat_app.
      destruct (long_mult_rows_spec r Hr l (repeat 0 (length r))
                  (repeat_length _ _) Hl (digits_ok_repeat_0 _)) as [Hv Hd].
      rewrite trim_value, Hv, value_repeat_0.
      split; [lia | apply trim_well_formed, Hd]. }
  intros Ha Hb. unfold long_mult.
  destruct (size b <? size a)%nat.
  - destruct (H b a Hb Ha) as [Hv Hw]. split; [rewrite Hv; ring | exact Hw].
  - apply H; assumption.
Qed.

Lemma mult_spec_small (a b : uint_t) :
  well_formed a -> well_formed b ->
  (size a <= karatsuba_cutoff \/ size b <= karatsuba_cutoff)%nat ->
  exists m, mult a b = Ok m /\ value m = value a * value b /\ well_formed m.
Proof.
  intros Ha Hb Hsz. unfold mult.
  destruct a as [|x a]; [exists uint_0; split; [reflexivity | split; [reflexivity | apply well_formed_nil]]|].
  destruct b as [|y b].
  { exists uint_0. split; [reflexivity|].
    split; [change (value uint_0) with 0; change (value []) with 0; lia
           | apply well_formed_nil]. }
  cbn [to_bool size length Nat.eqb negb orb].
  destruct (compare (x :: a) uint_1 =? 0) eqn:E1.
  { apply compare_1 in E1; [|apply Ha]. rewrite E1. exists (y :: b).
    split; [reflexivity|]. split; [change (value [1]) with 1; lia | exact Hb]. }
  destruct (compare (y :: b) uint_1 =? 0) eqn:E2.
  { apply compare_1 in E2; [|apply Hb]. rewrite E2. exists (x :: a).
    split; [reflexivity|]. split; [change (value [1]) with 1; lia | exact Ha]. }
  cbn [karatsuba_mult].
  destruct (size (y :: b) <? size (x :: a))%nat eqn:Es.
  - apply Nat.ltb_lt in Es.
    assert (Hc : (size (y :: b) <=? karatsuba_cutoff)%nat = true)
      by (apply Nat.leb_le; lia).
    rewrite Hc. destruct (long_mult_spec (y :: b) (x :: a) (proj1 Hb) (proj1 Ha)) as [Hv Hw].
    eexists. split; [reflexivity|]. split; [rewrite Hv; ring | exact Hw].
  - apply Nat.ltb_ge in Es.
    assert (Hc : (size (x :: a) <=? karatsuba_cutoff)%nat = true)
      by (apply Nat.leb_le; lia).
    rewrite Hc. destruct (long_mult_spec (x :: a) (y :: b) (proj1 Ha) (proj1 Hb)) as [Hv Hw].
    eexists. split; [reflexivity|]. split; [exact Hv | exact Hw].
Qed.

(** [long_mult]: the schoolbook product of two digit sequences, canonical
    or not, is canonical and stands for the product of the numbers. *)
Theorem long_mult_is_product (a b : uint_t) :
  digits_ok a -> digits_ok b ->
  value (long_mult a b) = value a * value b /\ well_formed (long_mult a b).
Proof. exact (long_mult_spec a b). Qed.

Lemma long_mult_is_product_witness :
  value (long_mult [2 ^ 64 - 1; 3] [7; 2 ^ 64 - 1; 1])
  = value [2 ^ 64 - 1; 3] * value [7; 2 ^ 64 - 1; 1] /\
  well_formed (long_mult [2 ^ 64 - 1; 3] [7; 2 ^ 64 - 1; 1]).
Proof.
  apply (long_mult_is_product [2 ^ 64 - 1; 3] [7; 2 ^ 64 - 1; 1]); digits_tac.
Defined.

(** [operator*]: when one of two canonical operands has at most
    [karatsuba_cutoff] (16) digits, the product is returned, canonical, and
    stands for the product of the numbers. *)
Theorem mult_is_product_small (a b : uint_t) :
  well_formed a -> well_formed b ->
  (size a <= karatsuba_cutoff \/ size b <= karatsuba_cutoff)%nat ->
  exists m, mult a b = Ok m /\ value m = value a * value b /\ well_formed m.
Proof. exact (mult_spec_small a b). Qed.

Lemma mult_is_product_small_witness :
  exists m, mult [2 ^ 64 - 1; 3] [7; 5] = Ok m /\
            value m = value [2 ^ 64 - 1; 3] * value [7; 5] /\ well_formed m.
Proof.
  apply (mult_is_product_small [2 ^ 64 - 1; 3] [7; 5]).
  - split; [digits_tac | unfold canonical; cbn; lia].
  - split; [digits_tac | unfold canonical; cbn; lia].
  - left. unfold size, karatsuba_cutoff. cbn [length]. lia.
Defined.

(** ** Division: the cases short of Algorithm D *)

Lemma divmod_digit_1 (general : uint_t -> uint_t -> uint_t * uint_t) (lhs : uint_t) :
  well_formed lhs -> divmod_with general lhs [1] = Ok (lhs, uint_0).
Proof.
  intros Hl. unfold divmod_with. cbn [to_bool size length Nat.eqb negb].
  destruct lhs as [|a [|b lhs]]; try reflexivity.
  cbn [length Nat.eqb andb hd]. rewrite Z.div_1_r, Z.mod_1_r.
  destruct Hl as [Hd Hc]. inversion Hd as [|? ? Ha _]; subst.
  unfold canonical in Hc. cbn [last] in Hc.
  rewrite (uint_of_nonzero a Ha Hc). reflexivity.
Qed.

Lemma divmod_one_digit (lhs : uint_t) (d : Z) :
  well_formed lhs -> 1 <= d < 2 ^ 64 ->
  exists q r, divmod lhs [d] = Ok (q, r) /\
              well_formed q /\ well_formed r /\
              value lhs = value q * d + value r /\ 0 <= value r < d.
Proof.
  intros Hl Hd. unfold divmod.
  destruct (Z.eq_dec d 1) as [->|Hd1].
  - rewrite divmod_digit_1 by exact Hl. exists lhs, uint_0.
    split; [reflexivity|]. split; [exact Hl|]. split; [apply well_formed_nil|].
    change (value uint_0) with 0. lia.
  - destruct (divmod_digit knuth_divmod lhs d Hl ltac:(lia)) as (q & r & E & Hq & Hr & Vq & Vr).
    exists q, r. split; [exact E|]. split; [exact Hq|]. split; [exact Hr|].
    rewrite Vq, Vr. pose proof (Z.div_mod (value lhs) d ltac:(lia)).
    pose proof (Z.mod_pos_bound (value lhs) d ltac:(lia)). lia.
Qed.

(** [divmod] by a divisor of one digit, which is the single-digit sweep
    and the fast paths before it: for every canonical dividend it returns
    canonical [q] and [r] with [q * d + r] the dividend and [r < d];
    [operator/] and [operator%] return the two. *)
Theorem divmod_by_one_digit (lhs : uint_t) (d : Z) :
  well_formed lhs -> 1 <= d < 2 ^ 64 ->
  exists q r, divmod lhs [d] = Ok (q, r) /\
              operator_div lhs [d] = Ok q /\ operator_mod lhs [d] = Ok r /\
              well_formed q /\ well_formed r /\
              value lhs = value q * d + value r /\ 0 <= value r < d.
Proof.
  intros Hl Hd.
  destruct (divmod_one_digit lhs d Hl Hd) as (q & r & E & Hq & Hr & Hv & Hb).
  exists q, r. unfold operator_div, operator_mod. rewrite E.
  repeat (split; [first [reflexivity | assumption]|]). exact Hb.
Qed.

Lemma divmod_by_one_digit_witness :
  exists q r, divmod [5; 7; 1] [10] = Ok (q, r) /\
              operator_div [5; 7; 1] [10] = Ok q /\ operator_mod [5; 7; 1] [10] = Ok r /\
              well_formed q /\ well_formed r /\
              value [5; 7; 1] = value q * 10 + value r /\ 0 <= value r < 10.
Proof.
  apply (divmod_by_one_digit [5; 7; 1] 10).
  - split; [digits_tac | unfold canonical; cbn; lia].
  - lia.
Defined.

Lemma size_1 (n : uint_t) : Nat.eqb (size n) 1 = true -> exists x, n = [x].
Proof.
  destruct n as [|x [|? ?]]; try discriminate. intros _. exists x. reflexivity.
Qed.

Lemma well_formed_digit (x : Z) : well_formed [x] -> 0 < x < 2 ^ 64.
Proof.
  intros [Hd Hc]. inversion Hd as [|? ? Hx _]; subst.
  unfold canonical in Hc. cbn [last] in Hc. unfold is_digit in Hx. lia.
Qed.

Lemma compare_uint_1 (n : uint_t) :
  well_formed n -> (compare n uint_1 =? 0) = (value n =? 1).
Proof.
  intros Hn.
  assert (H1 : well_formed uint_1) by (apply uint_of_well_formed; unfold is_digit; lia).
  rewrite (compare_spec n uint_1 Hn H1). change (value uint_1) with 1.
  destruct (Z.compare_spec (value n) 1) as [E|E|E];
    destruct (Z.eqb_spec (value n) 1); try reflexivity; lia.
Qed.

Lemma divmod_below_spec (a b : uint_t) :
  well_formed a -> well_formed b -> b <> [] -> value a < value b ->
  divmod a b = Ok (uint_0, a).
Proof.
  intros Ha Hb Hne Hlt. unfold divmod, divmod_with.
  assert (Hnb : negb (to_bool b) = false) by (destruct b; [contradiction | reflexivity]).
  rewrite Hnb.
  destruct (Nat.eqb (size a) 1) eqn:Ea; [destruct (Nat.eqb (size b) 1) eqn:Eb|]; cbn [andb].
  - destruct (size_1 a Ea) as [x ->]. destruct (size_1 b Eb) as [y ->].
    pose proof (well_formed_digit x Ha). pose proof (well_formed_digit y Hb).
    cbn [value] in Hlt. cbn [hd].
    rewrite Z.div_small, Z.mod_small by lia.
    rewrite (uint_of_nonzero x) by dlia. reflexivity.
  - rewrite (compare_uint_1 b Hb).
    destruct (Z.eqb_spec (value b) 1) as [E|E].
    + assert (value a = 0) by (pose proof (value_bound a (proj1 Ha)); lia).
      apply (well_formed_zero a Ha) in H. subst a. discriminate Ea.
    + rewrite (compare_spec a b Ha Hb).
      apply Z.compare_lt_iff in Hlt. rewrite Hlt. cbn [Z.eqb Z.ltb Z.compare].
      rewrite orb_true_r. reflexivity.
  - rewrite (compare_uint_1 b Hb).
    destruct (Z.eqb_spec (value b) 1) as [E|E].
    + assert (value a = 0) by (pose proof (value_bound a (proj1 Ha)); lia).
      apply (well_formed_zero a Ha) in H. subst a. reflexivity.
    + rewrite (compare_spec a b Ha Hb).
      apply Z.compare_lt_iff in Hlt. rewrite Hlt. cbn [Z.eqb Z.ltb Z.compare].
      rewrite orb_true_r. reflexivity.
Qed.

Lemma divmod_same_spec (a : uint_t) :
  well_formed a -> a <> [] -> divmod a a = Ok (uint_1, uint_0).
Proof.
  intros Ha Hne. unfold divmod, divmod_with.
  assert (Hnb : negb (to_bool a) = false) by (destruct a; [contradiction | reflexivity]).
  rewrite Hnb.
  destruct (Nat.eqb (size a) 1) eqn:Ea; cbn [andb].
  - destruct (size_1 a Ea) as [x ->]. pose proof (well_formed_digit x Ha).
    cbn [hd]. rewrite Z.div_same, Z.mod_same by lia. reflexivity.
  - rewrite (compare_uint_1 a Ha).
    destruct (Z.eqb_spec (value a) 1) as [E|E].
    + assert (a = uint_1).
      { apply value_inj; [exact Ha | apply uint_of_well_formed; unfold is_digit; lia | exact E]. }
      subst a. discriminate Ea.
    + rewrite (compare_spec a a Ha Ha), Z.compare_refl. reflexivity.
Qed.

(** The paths of [divmod] before any digit is divided: a zero divisor
    throws [domain_error], whatever the dividend; a dividend below the
    divisor gives quotient 0 and itself as remainder; a value divided by
    itself gives quotient 1 and remainder 0. *)
Theorem divmod_trivial_cases (a b : uint_t) :
  well_formed a -> well_formed b ->
  (b = [] -> divmod a b = Throw domain_error) /\
  (b <> [] -> value a < value b -> divmod a b = Ok (uint_0, a)) /\
  (b <> [] -> a = b -> divmod a b = Ok (uint_1, uint_0)).
Proof.
  intros Ha Hb. split; [intros ->; reflexivity|]. split.
  - intros Hne Hlt. apply divmod_below_spec; assumption.
  - intros Hne ->. apply divmod_same_spec; assumption.
Qed.

Lemma divmod_trivial_cases_witness :
  ([9; 4] = [] -> divmod [3] [9; 4] = Throw domain_error) /\
  ([9; 4] <> [] -> value [3] < value [9; 4] -> divmod [3] [9; 4] = Ok (uint_0, [3])) /\
  ([9; 4] <> [] -> [3] = [9; 4] -> divmod [3] [9; 4] = Ok (uint_1, uint_0)).
Proof.
  apply (divmod_trivial_cases [3] [9; 4]).
  - split; [digits_tac | unfold canonical; cbn; lia].
  - split; [digits_tac | unfold canonical; cbn; lia].
Defined.

(** ** Bit length *)

Lemma _bits_spec (x : Z) : 0 < x -> _bits x = Z.log2 x + 1.
Proof.
  intros Hx. unfold _bits, clz.
  destruct (Z.eqb_spec x 0); lia.
Qed.

Lemma bits_spec (n : uint_t) :
  well_formed n -> n <> [] ->
  2 ^ (bits n - 1) <= value n < 2 ^ bits n /\ 0 < bits n.
Proof.
  intros [Hd Hc] Hne. unfold bits, canonical in *.
  destruct (rev n) as [|back r] eqn:E.
  { apply (f_equal (@rev Z)) in E. rewrite rev_involutive in E. contradiction. }
  assert (En : n = rev r ++ [back]).
  { rewrite <- (rev_involutive n), E. reflexivity. }
  subst n. rewrite last_last in Hc.
  apply digits_ok_app in Hd. destruct Hd as [Hr Hb].
  inversion Hb as [|? ? Hback _]; subst. unfold is_digit in Hback.
  unfold size. rewrite length_app. cbn [length].
  replace (Z.of_nat (length (rev r) + 1) - 1) with (Z.of_nat (length (rev r))) by lia.
  rewrite _bits_spec by lia.
  pose proof (Z.log2_spec back ltac:(lia)) as [L1 L2].
  pose proof (Z.log2_nonneg back) as L0.
  pose proof (value_bound (rev r) Hr) as B.
  rewrite value_app. cbn [value]. rewrite Z.mul_0_r, Z.add_0_r.
  set (m := Z.of_nat (length (rev r))) in *.
  replace (Z.log2 back + 1 + m * 64 - 1) with (Z.log2 back + 64 * m) by lia.
  replace (Z.log2 back + 1 + m * 64) with (Z.succ (Z.log2 back) + 64 * m) by lia.
  rewrite !Z.pow_add_r by lia.
  pose proof (pow2_pos (64 * m) ltac:(lia)) as Pm.
  split; [|lia]. split; nia.
Qed.

(** [bits()] is the bit length of the value: 0 for 0, and otherwise the
    [b] with [2 ^ (b - 1) <= value < 2 ^ b], which is [log2 value + 1]. *)
Theorem bits_is_bit_length (n : uint_t) :
  well_formed n ->
  bits n = (if value n =? 0 then 0 else Z.log2 (value n) + 1) /\
  (n <> [] -> 2 ^ (bits n - 1) <= value n < 2 ^ bits n).
Proof.
  intros Hn. destruct n as [|x n'] eqn:E.
  - split; [reflexivity | congruence].
  - rewrite <- E in *. assert (Hne : n <> []) by (rewrite E; discriminate).
    destruct (bits_spec n Hn Hne) as [Hb Hpos]. split; [|intros _; exact Hb].
    assert (Hv : 0 < value n).
    { pose proof (pow2_pos (bits n - 1) ltac:(lia)). lia. }
    destruct (Z.eqb_spec (value n) 0); [lia|].
    assert (Z.log2 (value n) = bits n - 1); [|lia].
    apply Z.log2_unique; [lia|].
    replace (Z.succ (bits n - 1)) with (bits n) by lia. exact Hb.
Qed.

Lemma bits_is_bit_length_witness :
  bits [0; 5] = (if value [0; 5] =? 0 then 0 else Z.log2 (value [0; 5]) + 1) /\
  ([0; 5] <> [] -> 2 ^ (bits [0; 5] - 1) <= value [0; 5] < 2 ^ bits [0; 5]).
Proof.
  apply (bits_is_bit_length [0; 5]).
  split; [digits_tac | unfold canonical; cbn; lia].
Defined.

(** ** The bits of a value *)

Lemma digit_bits_high (d i : Z) : is_digit 64 d -> 64 <= i -> Z.testbit d i = false.
Proof.
  unfold is_digit. intros Hd Hi.
  rewrite <- (Z.mod_small d (2 ^ 64)) by lia.
  apply Z.mod_pow2_bits_high. lia.
Qed.

Lemma bits_high_digit (x : Z) :
  0 <= x -> (forall i, 64 <= i -> Z.testbit x i = false) -> is_digit 64 x.
Proof.
  intros Hx H. unfold is_digit.
  assert (E : x mod 2 ^ 64 = x).
  { apply Z.bits_inj'. intros i Hi.
    destruct (Z.lt_ge_cases i 64).
    - apply Z.mod_pow2_bits_low. lia.
    - rewrite Z.mod_pow2_bits_high by lia. symmetry. apply H. lia. }
  rewrite <- E. apply Z.mod_pos_bound. lia.
Qed.

(** Bit [i] of the value is bit [i mod 64] of digit [i / 64]. *)
Lemma value_testbit (l : list Z) :
  digits_ok l -> forall i, 0 <= i ->
  Z.testbit (value l) i = Z.testbit (nth (Z.to_nat (i / 64)) l 0) (i mod 64).
Proof.
  induction 1 as [|d l Hd Hl IH]; intros i Hi.
  - cbn [value]. destruct (Z.to_nat (i / 64)); cbn [nth]; rewrite !Z.bits_0; reflexivity.
  - cbn [value].
    assert (E : d + 2 ^ 64 * value l = Z.lor (value l * 2 ^ 64) d).
    { rewrite lor_high_low by (unfold is_digit in Hd; lia). ring. }
    rewrite E, Z.lor_spec.
    destruct (Z.lt_ge_cases i 64) as [Hlt|Hge].
    + rewrite Z.mul_pow2_bits_low by lia.
      rewrite Z.div_small, Z.mod_small by lia. reflexivity.
    + rewrite (digit_bits_high d i Hd Hge), orb_false_r.
      replace i with (64 + (i - 64)) at 1 by lia.
      rewrite Z.mul_pow2_bits_add by lia.
      rewrite IH by lia.
      replace (i / 64) with ((i - 64) / 64 + 1).
      2:{ replace i with ((i - 64) + 1 * 64) at 2 by lia. rewrite Z.div_add by lia. reflexivity. }
      replace (i mod 64) with ((i - 64) mod 64).
      2:{ replace i with ((i - 64) + 1 * 64) at 2 by lia. rewrite Z.mod_add by lia. reflexivity. }
      pose proof (Z.div_pos (i - 64) 64 ltac:(lia) ltac:(lia)).
      rewrite Z2Nat.inj_add by lia. rewrite Nat.add_comm. reflexivity.
Qed.

Lemma land_1_testbit (a m : Z) :
  0 <= m -> negb (Z.land (Z.shiftr a m) 1 =? 0) = Z.testbit a m.
Proof.
  intros Hm. change 1 with (Z.ones 1). rewrite Z.land_ones by lia.
  change (2 ^ 1) with 2.
  replace (Z.testbit a m) with (Z.testbit (Z.shiftr a m) 0)
    by (rewrite Z.shiftr_spec by lia; f_equal; lia).
  rewrite Z.bit0_eqb.
  pose proof (Z.mod_pos_bound (Z.shiftr a m) 2 ltac:(lia)).
  destruct (Z.eqb_spec (Z.shiftr a m mod 2) 0) as [->|]; [reflexivity|].
  replace (Z.shiftr a m mod 2) with 1 by lia. reflexivity.
Qed.

(** [operator[]] reads the bits of the value: bit [n] of the number the
    digits stand for, and 0 past the last digit. *)
Theorem operator_index_is_testbit (x : uint_t) (n : Z) :
  digits_ok x -> 0 <= n ->
  operator_index x n = Z.testbit (value x) n.
Proof.
  intros Hx Hn. unfold operator_index.
  pose proof (Z.mod_pos_bound n 64 ltac:(lia)) as Hm.
  rewrite (value_testbit x Hx n Hn).
  destruct (Nat.ltb_spec (Z.to_nat (n / 64)) (size x)) as [Hlt|Hge].
  - apply land_1_testbit. lia.
  - rewrite nth_overflow by exact Hge. rewrite Z.bits_0. reflexivity.
Qed.

Lemma operator_index_is_testbit_witness :
  operator_index [0; 5] 66 = Z.testbit (value [0; 5]) 66.
Proof.
  apply (operator_index_is_testbit [0; 5] 66); [digits_tac | lia].
Defined.

(** ** The bitwise operations *)

Lemma nth_or_loop (a : list Z) :
  forall b k, nth k (or_loop a b) 0 = Z.lor (nth k a 0) (nth k b 0).
Proof.
  induction a as [|x a IH]; intros [|y b] k; cbn [or_loop].
  - destruct k; reflexivity.
  - destruct k; cbn [nth]; reflexivity.
  - destruct k; cbn [nth]; rewrite Z.lor_0_r; reflexivity.
  - destruct k; cbn [nth]; [reflexivity | apply IH].
Qed.

Lemma nth_xor_loop (a : list Z) :
  forall b k, nth k (xor_loop a b) 0 = Z.lxor (nth k a 0) (nth k b 0).
Proof.
  induction a as [|x a IH]; intros [|y b] k; cbn [xor_loop].
  - destruct k; reflexivity.
  - destruct k; cbn [nth]; reflexivity.
  - destruct k; cbn [nth]; rewrite Z.lxor_0_r; reflexivity.
  - destruct k; cbn [nth]; [reflexivity | apply IH].
Qed.

Lemma nth_map_zero (l : list Z) (k : nat) : nth k (map (fun _ : Z => 0) l) 0 = 0.
Proof.
  revert k. induction l as [|x l IH]; intros [|k]; cbn [map nth]; auto.
Qed.

Lemma nth_and_loop (a : list Z) :
  forall b k, nth k (and_loop a b) 0 = Z.land (nth k a 0) (nth k b 0).
Proof.
  induction a as [|x a IH]; intros [|y b] k; cbn [and_loop].
  - destruct k; reflexivity.
  - rewrite nth_map_zero. destruct k; reflexivity.
  - rewrite nth_map_zero. destruct k; cbn [nth]; rewrite Z.land_0_r; reflexivity.
  - destruct k; cbn [nth]; [reflexivity | apply IH].
Qed.

Lemma digit_lor (x y : Z) : is_digit 64 x -> is_digit 64 y -> is_digit 64 (Z.lor x y).
Proof.
  intros Hx Hy. apply bits_high_digit.
  - apply Z.lor_nonneg. unfold is_digit in *. lia.
  - intros i Hi. rewrite Z.lor_spec, !digit_bits_high by assumption. reflexivity.
Qed.

Lemma digit_lxor (x y : Z) : is_digit 64 x -> is_digit 64 y -> is_digit 64 (Z.lxor x y).
Proof.
  intros Hx Hy. apply bits_high_digit.
  - apply Z.lxor_nonneg. unfold is_digit in *. lia.
  - intros i Hi. rewrite Z.lxor_spec, !digit_bits_high by assumption. reflexivity.
Qed.

Lemma digit_land (x y : Z) : is_digit 64 x -> is_digit 64 y -> is_digit 64 (Z.land x y).
Proof.
  intros Hx Hy. apply bits_high_digit.
  - apply Z.land_nonneg. unfold is_digit in *. lia.
  - intros i Hi. rewrite Z.land_spec, !digit_bits_high by assumption. reflexivity.
Qed.

Lemma digits_ok_or_loop (a : list Z) :
  forall b, digits_ok a -> digits_ok b -> digits_ok (or_loop a b).
Proof.
  induction a as [|x a IH]; intros [|y b] Ha Hb; cbn [or_loop]; try assumption.
  inversion Ha; inversion Hb; subst. constructor; [apply digit_lor; assumption | apply IH; assumption].
Qed.

Lemma digits_ok_xor_loop (a : list Z) :
  forall b, digits_ok a -> digits_ok b -> digits_ok (xor_loop a b).
Proof.
  induction a as [|x a IH]; intros [|y b] Ha Hb; cbn [xor_loop]; try assumption.
  inversion Ha; inversion Hb; subst. constructor; [apply digit_lxor; assumption | apply IH; assumption].
Qed.

Lemma digits_ok_map_zero (l : list Z) : digits_ok (map (fun _ : Z => 0) l).
Proof. induction l; cbn [map]; constructor; [unfold is_digit; lia | assumption]. Qed.

Lemma digits_ok_and_loop (a : list Z) :
  forall b, digits_ok a -> digits_ok b -> digits_ok (and_loop a b).
Proof.
  induction a as [|x a IH]; intros [|y b] Ha Hb; cbn [and_loop];
    try apply digits_ok_map_zero.
  inversion Ha; inversion Hb; subst. constructor; [apply digit_land; assumption | apply IH; assumption].
Qed.

(** A digitwise operation on the digits is the operation on the values. *)
Lemma value_digitwise (f : Z -> Z -> Z) (g : bool -> bool -> bool) (a b c : list Z) :
  (forall x y i, Z.testbit (f x y) i = g (Z.testbit x i) (Z.testbit y i)) ->
  (forall k, nth k c 0 = f (nth k a 0) (nth k b 0)) ->
  digits_ok a -> digits_ok b -> digits_ok c ->
  value c = f (value a) (value b).
Proof.
  intros Hf Hc Ha Hb Hdc. apply Z.bits_inj'. intros i Hi.
  rewrite Hf, !value_testbit by assumption. rewrite Hc, Hf. reflexivity.
Qed.

(** [operator&], [operator|] and [operator^] on digit sequences of any
    two lengths are the bitwise operations on the numbers, and their
    results are canonical. *)
Theorem bitwise_and_or_xor (a b : uint_t) :
  digits_ok a -> digits_ok b ->
  (value (bitwise_and a b) = Z.land (value a) (value b) /\ well_formed (bitwise_and a b)) /\
  (value (bitwise_or a b) = Z.lor (value a) (value b) /\ well_formed (bitwise_or a b)) /\
  (value (bitwise_xor a b) = Z.lxor (value a) (value b) /\ well_formed (bitwise_xor a b)).
Proof.
  intros Ha Hb. unfold bitwise_and, bitwise_or, bitwise_xor. rewrite !trim_value.
  pose proof (digits_ok_and_loop a b Ha Hb) as Dand.
  pose proof (digits_ok_or_loop a b Ha Hb) as Dor.
  pose proof (digits_ok_xor_loop a b Ha Hb) as Dxor.
  split; [|split]; (split; [|apply trim_well_formed; assumption]).
  - apply (value_digitwise Z.land andb); auto using Z.land_spec, nth_and_loop.
  - apply (value_digitwise Z.lor orb); auto using Z.lor_spec, nth_or_loop.
  - apply (value_digitwise Z.lxor xorb); auto using Z.lxor_spec, nth_xor_loop.
Qed.

Lemma bitwise_and_or_xor_witness :
  (value (bitwise_and [12; 1] [10]) = Z.land (value [12; 1]) (value [10]) /\
   well_formed (bitwise_and [12; 1] [10])) /\
  (value (bitwise_or [12; 1] [10]) = Z.lor (value [12; 1]) (value [10]) /\
   well_formed (bitwise_or [12; 1] [10])) /\
  (value (bitwise_xor [12; 1] [10]) = Z.lxor (value [12; 1]) (value [10]) /\
   well_formed (bitwise_xor [12; 1] [10])).
Proof.
  apply (bitwise_and_or_xor [12; 1] [10]); digits_tac.
Defined.

(** ** Shifts *)

Lemma to_digit_uint_of (x : Z) : is_digit 64 x -> to_digit (uint_of x) = x.
Proof.
  unfold is_digit, to_digit, uint_of, wrap. intros Hx.
  destruct (Z.eqb_spec x 0) as [->|]; [reflexivity|].
  cbn [hd]. apply Z.mod_small. lia.
Qed.

(** A shift amount of one digit splits into whole digits and bits. *)
Lemma shift_amounts_spec (s : Z) :
  0 < s < 2 ^ 64 -> shift_amounts (uint_of s) = (Z.to_nat (s / 64), s mod 64).
Proof.
  intros Hs. unfold shift_amounts, divmod_with.
  rewrite (uint_of_nonzero s) by dlia.
  change (uint_of 64) with [64].
  cbn [to_bool size length Nat.eqb negb andb hd].
  pose proof (Z.mod_pos_bound s 64 ltac:(lia)).
  assert (0 <= s / 64 < 2 ^ 64).
  { split; [apply Z.div_pos; lia | apply Z.div_lt_upper_bound; lia]. }
  rewrite !to_digit_uint_of by dlia. reflexivity.
Qed.

Lemma value_zeros_app (k : nat) (l : list Z) :
  value (repeat 0 k ++ l) = 2 ^ (64 * Z.of_nat k) * value l.
Proof.
  rewrite value_app, value_repeat_0, repeat_length. lia.
Qed.

Lemma bitwise_lshift_spec (n : uint_t) (s : Z) :
  well_formed n -> 0 <= s < 2 ^ 64 ->
  value (bitwise_lshift n (uint_of s)) = value n * 2 ^ s /\
  well_formed (bitwise_lshift n (uint_of s)).
Proof.
  intros Hn Hs. destruct (Z.eq_dec s 0) as [->|Hs0].
  - rewrite bitwise_lshift_0. split; [change (2 ^ 0) with 1; lia | exact Hn].
  - unfold bitwise_lshift. rewrite shift_amounts_spec by lia.
    rewrite (uint_of_nonzero s) by dlia.
    cbn [to_bool size length Nat.eqb negb].
    pose proof (Z.mod_pos_bound s 64 ltac:(lia)) as Hr.
    pose proof (Z.div_pos s 64 ltac:(lia) ltac:(lia)) as Hq.
    pose proof (Z.div_mod s 64 ltac:(lia)) as Hdm.
    rewrite trim_value, value_zeros_app, Z2Nat.id by lia.
    assert (Hp : 2 ^ s = 2 ^ (64 * (s / 64)) * 2 ^ (s mod 64)).
    { rewrite <- Z.pow_add_r by lia. f_equal. exact Hdm. }
    destruct (Z.eqb_spec (s mod 64) 0) as [E|E].
    + split.
      * rewrite Hp, E. change (2 ^ 0) with 1. lia.
      * apply trim_well_formed, digits_ok_app.
        split; [apply digits_ok_repeat_0 | apply Hn].
    + destruct (lshift_loop_spec (s mod 64) n ltac:(lia) (proj1 Hn) 0
                  ltac:(pose proof (pow2_pos (s mod 64) ltac:(lia)); lia)) as [Hv Hd].
      split.
      * rewrite Hv, Hp. lia.
      * apply trim_well_formed, digits_ok_app.
        split; [apply digits_ok_repeat_0 | exact Hd].
Qed.

(** [operator<<] by a shift amount of one digit: the value times
    [2 ^ s], canonical, for every amount; no bit is lost at the top. *)
Theorem lshift_is_multiplication (n : uint_t) (s : Z) :
  well_formed n -> 0 <= s < 2 ^ 64 ->
  value (bitwise_lshift n (uint_of s)) = value n * 2 ^ s /\
  well_formed (bitwise_lshift n (uint_of s)).
Proof. exact (bitwise_lshift_spec n s). Qed.

Lemma lshift_is_multiplication_witness :
  value (bitwise_lshift [2 ^ 63; 3] (uint_of 130)) = value [2 ^ 63; 3] * 2 ^ 130 /\
  well_formed (bitwise_lshift [2 ^ 63; 3] (uint_of 130)).
Proof.
  apply (lshift_is_multiplication [2 ^ 63; 3] 130).
  - split; [digits_tac | unfold canonical; cbn; lia].
  - lia.
Defined.

(** The loop of [bitwise_rshift], from the most significant digit: [c]
    holds the bits the digit before left behind. *)
Lemma rshift_loop_spec (k : Z) :
  0 < k < 64 ->
  forall rl c, digits_ok rl -> 0 <= c < 2 ^ k ->
  value (rev (rshift_loop rl k (c * 2 ^ (64 - k))))
  = (c * 2 ^ (64 * Z.of_nat (length rl)) + value (rev rl)) / 2 ^ k /\
  digits_ok (rshift_loop rl k (c * 2 ^ (64 - k))) /\
  length (rshift_loop rl k (c * 2 ^ (64 - k))) = length rl.
Proof.
  intros Hk.
  pose proof (pow2_pos k ltac:(lia)) as PK.
  pose proof (pow2_pos (64 - k) ltac:(lia)) as PJ.
  assert (HKJ : 2 ^ 64 = 2 ^ k * 2 ^ (64 - k)).
  { rewrite <- Z.pow_add_r by lia. f_equal. lia. }
  induction rl as [|x rl IH]; intros c Hrl Hc.
  - cbn [rshift_loop rev value length]. change (Z.of_nat 0) with 0.
    rewrite Z.mul_0_r. change (2 ^ 0) with 1.
    rewrite Z.mul_1_r, Z.add_0_r, Z.div_small by lia.
    split; [reflexivity | split; [constructor | reflexivity]].
  - inversion Hrl as [|? ? Hx Hrl']; subst. cbn [rshift_loop].
    assert (Ecarry : wrap 64 (Z.shiftl x (64 - k)) = (x mod 2 ^ k) * 2 ^ (64 - k)).
    { unfold wrap. rewrite Z.shiftl_mul_pow2 by lia. rewrite HKJ.
      apply Z.mul_mod_distr_r; lia. }
    rewrite Ecarry.
    pose proof (Z.mod_pos_bound x (2 ^ k) ltac:(lia)) as Hxr.
    destruct (IH (x mod 2 ^ k) Hrl' Hxr) as (IHv & IHd & IHl).
    rewrite Z.shiftr_div_pow2 by lia.
    pose proof (Z.div_mod x (2 ^ k) ltac:(lia)) as Ex.
    assert (Hxq : 0 <= x / 2 ^ k < 2 ^ (64 - k)).
    { unfold is_digit in Hx.
      split; [apply Z.div_pos; lia | apply Z.div_lt_upper_bound; lia]. }
    assert (Eo : Z.lor (x / 2 ^ k) (c * 2 ^ (64 - k)) = c * 2 ^ (64 - k) + x / 2 ^ k).
    { rewrite Z.lor_comm. apply lor_high_low; lia. }
    rewrite Eo.
    split; [|split].
    + rewrite !value_rev_cons, IHv, IHl. cbn [length]. rewrite pow64_succ.
      set (P := 2 ^ (64 * Z.of_nat (length rl))) in *.
      set (V := value (rev rl)) in *.
      set (xq := x / 2 ^ k) in *. set (xr := x mod 2 ^ k) in *.
      set (K := 2 ^ k) in *. set (J := 2 ^ (64 - k)) in *.
      replace (c * (2 ^ 64 * P) + (V + P * x))
        with (P * (c * J + xq) * K + (xr * P + V))
        by (rewrite HKJ;
            replace (P * x) with (P * (K * xq + xr)) by (rewrite <- Ex; reflexivity);
            ring).
      rewrite Z.div_add_l by lia. ring.
    + constructor; [|exact IHd]. unfold is_digit. rewrite HKJ. nia.
    + cbn [length]. rewrite IHl. reflexivity.
Qed.

Lemma value_skipn (k : nat) (n : list Z) :
  digits_ok n -> value (skipn k n) = value n / 2 ^ (64 * Z.of_nat k).
Proof.
  intros Hn. destruct (Nat.le_gt_cases (length n) k) as [Hle|Hlt].
  - rewrite skipn_all2 by exact Hle. cbn [value]. symmetry. apply Z.div_small.
    pose proof (value_bound n Hn) as B. split; [lia|].
    eapply Z.lt_le_trans; [apply B|]. apply Z.pow_le_mono_r; lia.
  - rewrite <- (firstn_skipn k n) in Hn. apply digits_ok_app in Hn. destruct Hn as [Hf Hsk].
    rewrite <- (firstn_skipn k n) at 2. rewrite value_app.
    pose proof (value_bound _ Hf) as B. rewrite length_firstn in *.
    replace (Nat.min k (length n)) with k in * by lia.
    pose proof (pow2_pos (64 * Z.of_nat k) ltac:(lia)).
    rewrite Z.mul_comm, Z.div_add by lia. rewrite Z.div_small by lia. lia.
Qed.

Lemma canonical_skipn (k : nat) (n : list Z) :
  (k < length n)%nat -> canonical n -> canonical (skipn k n).
Proof.
  unfold canonical. revert k. induction n as [|x n IH]; intros k Hk Hc; [cbn in Hk; lia|].
  destruct k as [|k]; [exact Hc|]. cbn [skipn]. cbn [length] in Hk.
  apply IH; [lia|]. destruct n as [|y n]; [cbn in Hk; lia | exact Hc].
Qed.

Lemma bitwise_rshift_spec (n : uint_t) (s : Z) :
  well_formed n -> 0 <= s < 2 ^ 64 -> Z.of_nat (size n) * 64 < 2 ^ 64 ->
  value (bitwise_rshift n (uint_of s)) = value n / 2 ^ s /\
  well_formed (bitwise_rshift n (uint_of s)).
Proof.
  intros Hn Hs Hsz. destruct (Z.eq_dec s 0) as [->|Hs0].
  - rewrite bitwise_rshift_0. change (2 ^ 0) with 1. rewrite Z.div_1_r.
    split; [reflexivity | exact Hn].
  - unfold bitwise_rshift.
    assert (Hws : well_formed (uint_of s)) by (apply uint_of_well_formed; dlia).
    assert (Hwz : well_formed (uint_of (Z.of_nat (size n) * 64)))
      by (apply uint_of_well_formed; dlia).
    rewrite (compare_spec _ _ Hws Hwz), !uint_of_value by dlia.
    assert (Hnz : negb (to_bool (uint_of s)) = false)
      by (rewrite (uint_of_nonzero s) by dlia; reflexivity).
    rewrite Hnz.
    pose proof (value_bound n (proj1 Hn)) as B. unfold size in *.
    destruct (Z.compare_spec s (Z.of_nat (length n) * 64)) as [E|E|E];
      cbn [Z.geb Z.compare].
    + change (value uint_0) with 0. split; [|apply well_formed_nil].
      symmetry. apply Z.div_small. split; [lia|].
      eapply Z.lt_le_trans; [apply B|]. apply Z.pow_le_mono_r; lia.
    + rewrite shift_amounts_spec by lia.
      pose proof (Z.mod_pos_bound s 64 ltac:(lia)) as Hr.
      pose proof (Z.div_pos s 64 ltac:(lia) ltac:(lia)) as Hq.
      pose proof (Z.div_mod s 64 ltac:(lia)) as Hdm.
      assert (Hlt : (Z.to_nat (s / 64) < length n)%nat).
      { assert (s / 64 < Z.of_nat (length n)) by (apply Z.div_lt_upper_bound; lia). lia. }
      assert (Hp : 2 ^ s = 2 ^ (64 * (s / 64)) * 2 ^ (s mod 64)).
      { rewrite <- Z.pow_add_r by lia. f_equal. exact Hdm. }
      pose proof (pow2_pos (64 * (s / 64)) ltac:(lia)).
      pose proof (pow2_pos (s mod 64) ltac:(lia)).
      assert (Hsk : digits_ok (skipn (Z.to_nat (s / 64)) n)).
      { destruct Hn as [Hd _]. rewrite <- (firstn_skipn (Z.to_nat (s / 64)) n) in Hd.
        apply digits_ok_app in Hd. apply Hd. }
      destruct (Z.eqb_spec (s mod 64) 0) as [E0|E0].
      * split.
        -- rewrite value_skipn by apply Hn. rewrite Z2Nat.id by lia.
           rewrite Hp, E0. change (2 ^ 0) with 1. rewrite Z.mul_1_r. reflexivity.
        -- split; [exact Hsk | apply canonical_skipn; [exact Hlt | apply Hn]].
      * destruct (rshift_loop_spec (s mod 64) ltac:(lia)
                    (rev (skipn (Z.to_nat (s / 64)) n)) 0
                    (proj2 (digits_ok_rev _) Hsk) ltac:(lia)) as (Hv & Hd & _).
        rewrite Z.mul_0_l in Hv, Hd.
        rewrite trim_value, Hv, Z.add_0_l, rev_involutive.
        split.
        -- rewrite value_skipn by apply Hn. rewrite Z2Nat.id by lia.
           rewrite Z.div_div by lia. rewrite <- Hp. reflexivity.
        -- apply trim_well_formed, digits_ok_rev, Hd.
    + change (value uint_0) with 0. split; [|apply well_formed_nil].
      symmetry. apply Z.div_small. split; [lia|].
      eapply Z.lt_le_trans; [apply B|]. apply Z.pow_le_mono_r; lia.
Qed.

(** [operator>>=] by a shift amount of one digit: the value divided by
    [2 ^ s], rounded down and canonical; shifting by the bit size of the
    digits or more gives 0.  The digit count times 64 has to fit a
    [std::size_t], as it does for any vector in memory. *)
Theorem rshift_is_division (n : uint_t) (s : Z) :
  well_formed n -> 0 <= s < 2 ^ 64 -> Z.of_nat (size n) * 64 < 2 ^ 64 ->
  value (bitwise_rshift n (uint_of s)) = value n / 2 ^ s /\
  well_formed (bitwise_rshift n (uint_of s)).
Proof. exact (bitwise_rshift_spec n s). Qed.

Lemma rshift_is_division_witness :
  value (bitwise_rshift [5; 2 ^ 63; 3] (uint_of 70)) = value [5; 2 ^ 63; 3] / 2 ^ 70 /\
  well_formed (bitwise_rshift [5; 2 ^ 63; 3] (uint_of 70)).
Proof.
  apply (rshift_is_division [5; 2 ^ 63; 3] 70).
  - split; [digits_tac | unfold canonical; cbn; lia].
  - lia.
  - unfold size. cbn [length]. lia.
Defined.

(** ** [operator~] on a value that is not 0 *)

Lemma wrap_lnot (d : Z) : is_digit 64 d -> wrap 64 (Z.lnot d) = 2 ^ 64 - 1 - d.
Proof.
  unfold is_digit, wrap, Z.lnot. intros Hd.
  symmetry. apply Z.mod_unique with (-1); [left; lia | lia].
Qed.

Lemma value_map_lnot (l : list Z) :
  digits_ok l ->
  value (map (fun d => wrap 64 (Z.lnot d)) l) = 2 ^ (64 * Z.of_nat (length l)) - 1 - value l /\
  digits_ok (map (fun d => wrap 64 (Z.lnot d)) l).
Proof.
  induction 1 as [|d l Hd Hl [IHv IHd]].
  - cbn. split; [reflexivity | constructor].
  - cbn [map value length]. rewrite pow64_succ, IHv, (wrap_lnot d Hd).
    split; [ring|]. constructor; [unfold is_digit in *; lia | exact IHd].
Qed.

(** The mask of [trim(b)] on the top digit, for [b] the bit length of a
    value with top digit [back]: the inverted digit keeps its low
    [_bits back] bits. *)
Lemma masked_top (back rest : Z) :
  0 < back < 2 ^ 64 -> 0 <= rest -> rest mod 64 = 0 ->
  let b := _bits back + rest in
  let mask := Z.land b (64 - 1) in
  (if mask =? 0 then 2 ^ 64 - 1 - back
   else Z.land (2 ^ 64 - 1 - back) (wrap 64 (Z.shiftl 1 mask) - 1))
  = 2 ^ _bits back - 1 - back /\ 0 < _bits back <= 64 /\ back < 2 ^ _bits back.
Proof.
  intros Hb Hrest Hmod b mask.
  rewrite _bits_spec in * by lia.
  pose proof (Z.log2_spec back ltac:(lia)) as [L1 L2].
  pose proof (Z.log2_nonneg back) as L0.
  assert (L63 : Z.log2 back < 64) by (apply Z.log2_lt_pow2; lia).
  replace (Z.succ (Z.log2 back)) with (Z.log2 back + 1) in L2 by lia.
  split; [|split; [lia | exact L2]].
  assert (Em : mask = (Z.log2 back + 1) mod 64).
  { unfold mask, b. change (64 - 1) with (Z.ones 6). rewrite Z.land_ones by lia.
    change (2 ^ 6) with 64. rewrite Z.add_mod, Hmod, Z.add_0_r, Z.mod_mod by lia.
    rewrite _bits_spec by lia. reflexivity. }
  rewrite Em. set (m := Z.log2 back + 1) in *.
  destruct (Z.eq_dec m 64) as [E64|N64].
  - rewrite E64. reflexivity.
  - rewrite (Z.mod_small m 64) by lia.
    destruct (Z.eqb_spec m 0); [lia|].
    unfold wrap. rewrite Z.shiftl_1_l.
    pose proof (pow2_pos m ltac:(lia)) as Pm.
    assert (P64 : 2 ^ m < 2 ^ 64) by (apply Z.pow_lt_mono_r; lia).
    rewrite Z.mod_small by lia.
    replace (Z.land (2 ^ 64 - 1 - back) (2 ^ m - 1))
      with ((2 ^ 64 - 1 - back) mod 2 ^ m)
      by (rewrite <- Z.land_ones by lia; f_equal; rewrite Z.ones_equiv; lia).
    symmetry. apply Z.mod_unique with (2 ^ (64 - m) - 1); [left; lia|].
    replace (2 ^ 64) with (2 ^ m * 2 ^ (64 - m))
      by (rewrite <- Z.pow_add_r by lia; f_equal; lia).
    ring.
Qed.

Lemma operator_not_spec (n : uint_t) :
  well_formed n -> n <> [] ->
  value (operator_not n) = 2 ^ bits n - 1 - value n /\ well_formed (operator_not n).
Proof.
  intros [Hd Hc] Hne. unfold operator_not, bitwise_inv, canonical in *.
  destruct (rev n) as [|back r] eqn:E.
  { apply (f_equal (@rev Z)) in E. rewrite rev_involutive in E. contradiction. }
  assert (En : n = rev r ++ [back]).
  { rewrite <- (rev_involutive n), E. reflexivity. }
  assert (Eb : bits n = _bits back + Z.of_nat (length (rev r)) * 64).
  { unfold bits. rewrite E. unfold size. rewrite En, length_app. cbn [length]. f_equal. lia. }
  rewrite Eb. clear E. subst n. rewrite last_last in Hc.
  apply digits_ok_app in Hd. destruct Hd as [Hr Hb].
  inversion Hb as [|? ? Hback _]; subst.
  assert (Hback' : 0 < back < 2 ^ 64) by (unfold is_digit in Hback; lia).
  set (front := rev r) in *. unfold size.
  assert (Hsz : Nat.eqb (length (front ++ [back])) 0 = false)
    by (rewrite length_app; cbn [length]; apply Nat.eqb_neq; lia).
  rewrite Hsz, Nat.sub_diag. cbn [repeat]. rewrite app_nil_r, map_app. cbn [map].
  destruct (masked_top back (Z.of_nat (length front) * 64) Hback' ltac:(lia)
              ltac:(apply Z.mod_mul; lia)) as (Etop & Hm & Hlt).
  cbv zeta in Etop.
  assert (Hbpos : (_bits back + Z.of_nat (length front) * 64 =? 0) = false)
    by (apply Z.eqb_neq; lia).
  rewrite Hbpos. unfold trim. rewrite rev_app_distr. cbn [rev app].
  rewrite (wrap_lnot back Hback).
  set (top := if Z.land (_bits back + Z.of_nat (length front) * 64) (64 - 1) =? 0
              then 2 ^ 64 - 1 - back
              else Z.land (2 ^ 64 - 1 - back)
                     (wrap 64 (Z.shiftl 1 (Z.land (_bits back + Z.of_nat (length front) * 64)
                                              (64 - 1))) - 1)) in *.
  assert (Etrim : (if Z.land (_bits back + Z.of_nat (length front) * 64) (64 - 1) =? 0
                   then (2 ^ 64 - 1 - back) :: rev (map (fun d => wrap 64 (Z.lnot d)) front)
                   else Z.land (2 ^ 64 - 1 - back)
                          (wrap 64 (Z.shiftl 1 (Z.land (_bits back
                                                        + Z.of_nat (length front) * 64)
                                                   (64 - 1))) - 1)
                        :: rev (map (fun d => wrap 64 (Z.lnot d)) front))
                  = top :: rev (map (fun d => wrap 64 (Z.lnot d)) front)).
  { unfold top. destruct (_ =? 0); reflexivity. }
  rewrite Etrim, Etop.
  destruct (value_map_lnot front Hr) as [Hv Hdm].
  pose proof (pow2_pos (_bits back) ltac:(lia)) as Pb.
  assert (P64 : 2 ^ _bits back <= 2 ^ 64) by (apply Z.pow_le_mono_r; lia).
  split.
  - rewrite drop_zeros_value. cbn [rev]. rewrite rev_involutive, value_app, length_map, Hv.
    rewrite value_app. cbn [value]. rewrite Z.pow_add_r by lia.
    replace (Z.of_nat (length front) * 64) with (64 * Z.of_nat (length front)) by lia.
    ring.
  - split.
    + apply digits_ok_rev, drop_zeros_digits_ok. constructor.
      * unfold is_digit. lia.
      * apply digits_ok_rev, Hdm.
    + unfold canonical. rewrite last_rev. apply drop_zeros_hd.
Qed.

(** [operator~] on a canonical value that is not 0 inverts the bits of
    its bit length and no more: the result is [2 ^ bits - 1 - value],
    canonical.  (On 0 it returns 1.) *)
Theorem operator_not_inverts_bit_length (n : uint_t) :
  well_formed n -> n <> [] ->
  value (operator_not n) = 2 ^ bits n - 1 - value n /\ well_formed (operator_not n).
Proof. exact (operator_not_spec n). Qed.

Lemma operator_not_inverts_bit_length_witness :
  value (operator_not [5; 9]) = 2 ^ bits [5; 9] - 1 - value [5; 9] /\
  well_formed (operator_not [5; 9]).
Proof.
  apply (operator_not_inverts_bit_length [5; 9]).
  - split; [digits_tac | unfold canonical; cbn; lia].
  - discriminate.
Defined.

(** ** The word primitives *)

(** [_multadd] on the branches that compute in a wider type - the
    [__uint128_t] branch for 64-bit digits and the branches for 32, 16 and
    8-bit digits - returns the high and low digit of [x * y + a + c] for
    all digits [x], [y], [a], [c]. *)
Theorem multadd_wide_branches (p : platform) (w x y a c : Z) :
  (p = gcc64 /\ w = 64) \/ (p = plain w /\ (w = 32 \/ w = 16 \/ w = 8)) ->
  is_digit w x -> is_digit w y -> is_digit w a -> is_digit w c ->
  muladd_wide_ok w x y a c (_multadd p x y a c).
Proof.
  intros [[-> ->] | [-> Hw]] Hx Hy Ha Hc.
  - apply _multadd_int128_ok; assumption.
  - apply _multadd_narrow_ok; assumption.
Qed.

Lemma multadd_wide_branches_witness :
  muladd_wide_ok 64 (2 ^ 64 - 1) (2 ^ 64 - 1) (2 ^ 64 - 1) (2 ^ 64 - 1)
    (_multadd gcc64 (2 ^ 64 - 1) (2 ^ 64 - 1) (2 ^ 64 - 1) (2 ^ 64 - 1)).
Proof.
  apply (multadd_wide_branches gcc64 64 (2 ^ 64 - 1) (2 ^ 64 - 1) (2 ^ 64 - 1) (2 ^ 64 - 1));
    [left; split; reflexivity | unfold is_digit; lia ..].
Defined.

(** [_divmod] divides the two-digit number [(x_hi, x_lo)] by [y] when
    [x_hi < y]: quotient and remainder are exact and the quotient is a
    digit.  With [x_hi >= y] the quotient does not fit and is cut to its
    low digit. *)
Theorem divmod_primitive (x_hi x_lo y : Z) :
  is_digit 64 x_hi -> is_digit 64 x_lo -> is_digit 64 y -> 0 < y ->
  let x := x_hi * 2 ^ 64 + x_lo in
  _divmod x_hi x_lo y = ((x / y) mod 2 ^ 64, x mod y) /\
  (x_hi < y -> _divmod x_hi x_lo y = (x / y, x mod y)) /\
  (y <= x_hi -> 2 ^ 64 <= x / y).
Proof.
  intros Hhi Hlo Hy Hy0 x. unfold is_digit in *.
  assert (E : _divmod x_hi x_lo y = ((x / y) mod 2 ^ 64, x mod y)).
  { unfold _divmod, wrap. rewrite Z.shiftl_mul_pow2 by lia.
    rewrite (Z.mod_small (x_hi * 2 ^ 64)) by (rewrite pow128; nia).
    rewrite lor_high_low by lia. fold x.
    pose proof (Z.mod_pos_bound x y ltac:(lia)).
    rewrite (Z.mod_small (x mod y)) by lia. reflexivity. }
  split; [exact E|]. split.
  - intros Hlt. rewrite E. f_equal. apply Z.mod_small.
    split; [apply Z.div_pos; unfold x; nia | apply Z.div_lt_upper_bound; unfold x; nia].
  - intros Hge. apply Z.div_le_lower_bound; [lia | unfold x; nia].
Qed.

Lemma divmod_primitive_witness :
  let x := 2 ^ 63 * 2 ^ 64 + 0 in
  _divmod (2 ^ 63) 0 (2 ^ 63) = ((x / 2 ^ 63) mod 2 ^ 64, x mod 2 ^ 63) /\
  (2 ^ 63 < 2 ^ 63 -> _divmod (2 ^ 63) 0 (2 ^ 63) = (x / 2 ^ 63, x mod 2 ^ 63)) /\
  (2 ^ 63 <= 2 ^ 63 -> 2 ^ 64 <= x / 2 ^ 63).
Proof.
  apply (divmod_primitive (2 ^ 63) 0 (2 ^ 63)); unfold is_digit; lia.
Defined.

(** ** The tables of the bases *)

Lemma in_bases (b : Z) : 1 <= b <= 256 -> In b (map Z.of_nat (seq 1 256)).
Proof.
  intros Hb. apply in_map_iff. exists (Z.to_nat b). split; [lia|].
  apply in_seq. lia.
Qed.

Lemma base_tables_spec (b : Z) :
  1 <= b <= 256 ->
  (base_bits_of b <> 0 -> 1 <= base_bits_of b <= 8 /\ b = 2 ^ base_bits_of b) /\
  (forall k, 1 <= k <= 8 -> b = 2 ^ k -> base_bits_of b = k) /\
  (2 <= b -> b ^ (base_size_of b - 1) < 2 ^ 64 <= b ^ base_size_of b).
Proof.
  intros Hb.
  assert (H : forallb (fun b =>
                let k := base_bits_of b in
                let s := base_size_of b in
                (if k =? 0 then forallb (fun j => negb (b =? 2 ^ j)) [1; 2; 3; 4; 5; 6; 7; 8]
                 else (1 <=? k) && (k <=? 8) && (b =? 2 ^ k))
                && ((b <? 2) || (b ^ (s - 1) <? 2 ^ 64) && (2 ^ 64 <=? b ^ s)))
              (map Z.of_nat (seq 1 256)) = true) by (vm_compute; reflexivity).
  rewrite forallb_forall in H. specialize (H b (in_bases b Hb)). cbv zeta in H.
  apply andb_prop in H. destruct H as [H1 H2].
  split; [|split].
  - intros Hk. destruct (Z.eqb_spec (base_bits_of b) 0); [contradiction|].
    apply andb_prop in H1. destruct H1 as [H1 H3]. apply andb_prop in H1. lia.
  - intros k Hk Ek. destruct (Z.eqb_spec (base_bits_of b) 0) as [E0|E0].
    + rewrite forallb_forall in H1.
      assert (Hin : In k [1; 2; 3; 4; 5; 6; 7; 8]) by (cbn; lia).
      specialize (H1 k Hin). apply negb_true_iff in H1. lia.
    + apply andb_prop in H1. destruct H1 as [H1 H3]. apply andb_prop in H1.
      apply Z.eqb_eq in H3. rewrite H3 in Ek at 1.
      apply Z.pow_inj_r in Ek; lia.
  - intros H2b. destruct (Z.ltb_spec b 2); [lia|]. cbn [orb] in H2.
    apply andb_prop in H2. lia.
Qed.

(** The tables [_base_bits] and [_base_size] hold what their names say,
    for every base from 1 to 256: [base_bits] is the exponent of a base
    that is a power of two from 2 to 256 and 0 for every other base, and
    [base_size], for a base from 2 on, is the least number of digits of
    that base that hold a 64-bit word. *)
Theorem base_tables (b : Z) :
  1 <= b <= 256 ->
  (base_bits_of b <> 0 -> 1 <= base_bits_of b <= 8 /\ b = 2 ^ base_bits_of b) /\
  (forall k, 1 <= k <= 8 -> b = 2 ^ k -> base_bits_of b = k) /\
  (2 <= b -> b ^ (base_size_of b - 1) < 2 ^ 64 <= b ^ base_size_of b).
Proof. exact (base_tables_spec b). Qed.

Lemma base_tables_witness :
  (base_bits_of 58 <> 0 -> 1 <= base_bits_of 58 <= 8 /\ 58 = 2 ^ base_bits_of 58) /\
  (forall k, 1 <= k <= 8 -> 58 = 2 ^ k -> base_bits_of 58 = k) /\
  (2 <= 58 -> 58 ^ (base_size_of 58 - 1) < 2 ^ 64 <= 58 ^ base_size_of 58).
Proof. apply (base_tables 58). lia. Defined.

(** * Further properties of [BaseX] *)

(** ** What [decode] and [is_valid] accept *)

Lemma ord_byte (bx : BaseX) (c : Z) : Forall is_byte (_ord bx) -> 0 <= ord bx c < 256.
Proof.
  intros H. unfold ord.
  destruct (Nat.lt_ge_cases (Z.to_nat c) (length (_ord bx))) as [Hlt|Hge].
  - rewrite Forall_forall in H. apply H, nth_In, Hlt.
  - rewrite nth_overflow by exact Hge. lia.
Qed.

Lemma forallb_is_byte (l : list Z) :
  forallb (fun c => (0 <=? c) && (c <? 256)) l = true -> Forall is_byte l.
Proof.
  intros H. rewrite forallb_forall in H. apply Forall_forall. intros x Hx.
  specialize (H x Hx). unfold is_byte. lia.
Qed.

(** The loops of [decode] over a run of digits: the accumulator takes the
    digits in, most significant first, and the checksum their xor. *)
Lemma decode_pow2_total (bx : BaseX) :
  codec_ok bx = true -> base_bits bx <> 0 ->
  forall e, Forall (fun c => 0 <= ord bx c < base bx) e ->
  forall acc sum sz, well_formed acc ->
  exists acc', decode_pow2 bx e sz acc sum
               = Ok (acc', fold_left Z.lxor (map (ord bx) e) sum) /\
               value acc' = fold_left (fun a d => a * base bx + d) (map (ord bx) e) (value acc) /\
               well_formed acc'.
Proof.
  intros Hok Hbits.
  destruct (codec_ok_spec bx Hok) as (Hb & _ & _ & _ & [Hk0|[Hk Hbase]] & _);
    [contradiction|].
  induction 1 as [|c e Hc He IH]; intros acc sum sz Hacc.
  - exists acc. split; [reflexivity | split; [reflexivity | exact Hacc]].
  - cbn [map decode_pow2 fold_left].
    destruct (Z.geb_spec (ord bx c) (base bx)); [lia|].
    destruct (bitwise_lshift_small acc (base_bits bx) ltac:(lia) (proj1 Hacc)) as [Hsv Hsw].
    assert (Hmod : value (bitwise_lshift acc (uint_of (base_bits bx))) mod 2 ^ base_bits bx = 0).
    { rewrite Hsv. apply Z.mod_mul. pose proof (pow2_pos (base_bits bx) ltac:(lia)). lia. }
    destruct (bitwise_or_digit _ (base_bits bx) (ord bx c) ltac:(lia) (proj1 Hsw) Hmod ltac:(lia))
      as [Hov How].
    destruct (IH _ (Z.lxor sum (ord bx c)) (sz - 1) How) as (acc' & E & Hv & Hw).
    exists acc'. rewrite E. split; [reflexivity|]. split; [|exact Hw].
    rewrite Hv, Hov, Hsv, Hbase. reflexivity.
Qed.

Lemma decode_general_total (bx : BaseX) :
  codec_ok bx = true ->
  forall e, Forall (fun c => 0 <= ord bx c < base bx) e ->
  forall acc sum sz, well_formed acc ->
  exists acc', decode_general bx e sz [base bx] acc sum
               = Ok (acc', fold_left Z.lxor (map (ord bx) e) sum) /\
               value acc' = fold_left (fun a d => a * base bx + d) (map (ord bx) e) (value acc) /\
               well_formed acc'.
Proof.
  intros Hok. destruct (codec_ok_spec bx Hok) as (Hb & _).
  induction 1 as [|c e Hc He IH]; intros acc sum sz Hacc.
  - exists acc. split; [reflexivity | split; [reflexivity | exact Hacc]].
  - cbn [map decode_general fold_left].
    destruct (Z.geb_spec (ord bx c) (base bx)); [lia|].
    destruct (mult_digit acc (base bx) Hacc ltac:(lia)) as (m & Em & Hmv & Hmw).
    rewrite Em. cbn [bind].
    destruct (add_digit m (ord bx c) Hmw ltac:(unfold is_digit; lia)) as [Hav Haw].
    destruct (IH _ (Z.lxor sum (ord bx c)) (sz - 1) Haw) as (acc' & E & Hv & Hw).
    exists acc'. rewrite E. split; [reflexivity|]. split; [|exact Hw].
    rewrite Hv, Hav, Hmv. reflexivity.
Qed.

(** What a loop that returned has read. *)
Lemma decode_pow2_inv (bx : BaseX) (e : list Z) :
  forall sz acc sum r s, decode_pow2 bx e sz acc sum = Ok (r, s) ->
  Forall (fun c => ord bx c < base bx) e /\ s = fold_left Z.lxor (map (ord bx) e) sum.
Proof.
  induction e as [|c e IH]; intros sz acc sum r s H.
  - cbn in H. injection H as _ <-. split; [constructor | reflexivity].
  - cbn [decode_pow2] in H. destruct (Z.geb_spec (ord bx c) (base bx)); [discriminate|].
    destruct (IH _ _ _ _ _ H) as [Hall Hs].
    split; [constructor; [lia | exact Hall] | exact Hs].
Qed.

Lemma decode_general_inv (bx : BaseX) (ub : uint_t) (e : list Z) :
  forall sz acc sum r s, decode_general bx e sz ub acc sum = Ok (r, s) ->
  Forall (fun c => ord bx c < base bx) e /\ s = fold_left Z.lxor (map (ord bx) e) sum.
Proof.
  induction e as [|c e IH]; intros sz acc sum r s H.
  - cbn in H. injection H as _ <-. split; [constructor | reflexivity].
  - cbn [decode_general] in H. destruct (Z.geb_spec (ord bx c) (base bx)); [discriminate|].
    destruct (mult acc ub); [|discriminate]. cbn [bind] in H.
    destruct (IH _ _ _ _ _ H) as [Hall Hs].
    split; [constructor; [lia | exact Hall] | exact Hs].
Qed.

(** The two loops under the test of [base_bits] that [decode] makes. *)
Lemma decode_loop_total (bx : BaseX) (e : list Z) (sz sum : Z) :
  codec_ok bx = true -> Forall is_byte (_ord bx) ->
  Forall (fun c => ord bx c < base bx) e ->
  exists acc,
    (if negb (base_bits bx =? 0)
     then decode_pow2 bx e sz [] sum
     else decode_general bx e sz (uint_of (base bx)) [] sum)
    = Ok (acc, fold_left Z.lxor (map (ord bx) e) sum) /\
    value acc = be_value (base bx) (map (ord bx) e) /\ well_formed acc.
Proof.
  intros Hok Hbytes Hall. destruct (codec_ok_spec bx Hok) as (Hb & _).
  assert (Hall' : Forall (fun c => 0 <= ord bx c < base bx) e).
  { eapply Forall_impl; [|exact Hall]. cbn. intros c Hc.
    pose proof (ord_byte bx c Hbytes). lia. }
  destruct (Z.eqb_spec (base_bits bx) 0) as [Hk|Hk]; cbn [negb].
  - rewrite (uint_of_nonzero (base bx)) by dlia.
    exact (decode_general_total bx Hok e Hall' [] sum sz well_formed_nil).
  - exact (decode_pow2_total bx Hok Hk e Hall' [] sum sz well_formed_nil).
Qed.

Lemma decode_loop_inv (bx : BaseX) (e : list Z) (sz sum : Z) (r : uint_t) (s : Z) :
  (if negb (base_bits bx =? 0)
   then decode_pow2 bx e sz [] sum
   else decode_general bx e sz (uint_of (base bx)) [] sum) = Ok (r, s) ->
  Forall (fun c => ord bx c < base bx) e /\ s = fold_left Z.lxor (map (ord bx) e) sum.
Proof.
  destruct (negb (base_bits bx =? 0)).
  - apply decode_pow2_inv.
  - apply decode_general_inv.
Qed.

Lemma is_valid_loop_total (bx : BaseX) (e : list Z) :
  Forall (fun c => ord bx c < base bx) e ->
  forall s, is_valid_loop bx e s = Some (fold_left Z.lxor (map (ord bx) e) s).
Proof.
  induction 1 as [|c e Hc He IH]; intros s; [reflexivity|].
  cbn [is_valid_loop map fold_left].
  destruct (Z.geb_spec (ord bx c) (base bx)); [lia | apply IH].
Qed.

Lemma is_valid_loop_inv (bx : BaseX) (e : list Z) :
  forall s t, is_valid_loop bx e s = Some t ->
  Forall (fun c => ord bx c < base bx) e /\ t = fold_left Z.lxor (map (ord bx) e) s.
Proof.
  induction e as [|c e IH]; intros s t H.
  - cbn in H. injection H as <-. split; [constructor | reflexivity].
  - cbn [is_valid_loop] in H. destruct (Z.geb_spec (ord bx c) (base bx)); [discriminate|].
    destruct (IH _ _ H) as [Hall Ht]. split; [constructor; [lia | exact Hall] | exact Ht].
Qed.

(** A non-empty string is its characters before the last and the last. *)
Lemma split_last (e : list Z) :
  e <> [] ->
  e = firstn (length e - 1) e ++ [nth (length e - 1) e 0] /\
  length (firstn (length e - 1) e) = (length e - 1)%nat.
Proof.
  intros Hne. destruct (exists_last Hne) as (l & x & ->).
  rewrite length_app. cbn [length].
  replace (length l + 1 - 1)%nat with (length l) by lia.
  rewrite firstn_app, Nat.sub_diag, firstn_all. cbn [firstn]. rewrite app_nil_r.
  rewrite app_nth2, Nat.sub_diag by lia. split; reflexivity.
Qed.

Lemma is_valid_decode_iff (bx : BaseX) (e : list Z) (checksum : bool) :
  codec_ok bx = true -> Forall is_byte (_ord bx) ->
  (checksum = true -> e <> []) ->
  (is_valid bx e checksum = true <-> exists n, decode bx e checksum = Ok n).
Proof.
  intros Hok Hbytes Hne. unfold is_valid, decode.
  destruct checksum.
  - specialize (Hne eq_refl).
    assert (Hl : Nat.eqb (length e) 0 = false) by (destruct e; [contradiction | reflexivity]).
    rewrite Hl. cbn [andb].
    destruct (split_last e Hne) as [Esplit Hlen].
    assert (Hlz : (0 < length e)%nat) by (destruct e; [contradiction | cbn; lia]).
    replace (Z.to_nat (Z.of_nat (length e) - 1)) with (length e - 1)%nat by lia.
    set (payload := firstn (length e - 1) e) in *.
    set (c := nth (length e - 1) e 0) in *.
    set (sum0 := length_sum bx (Z.of_nat (length e) - 1)).
    assert (Efold : fold_left Z.lxor (map (ord bx) e) sum0
                    = Z.lxor (fold_left Z.lxor (map (ord bx) payload) sum0) (ord bx c)).
    { rewrite Esplit at 1. rewrite map_app, fold_left_app. reflexivity. }
    split.
    + intros H. destruct (is_valid_loop bx e sum0) as [t|] eqn:El; [|discriminate].
      destruct (is_valid_loop_inv bx e _ _ El) as [Hall ->].
      assert (Hp : Forall (fun c => ord bx c < base bx) payload) by (apply Forall_firstn, Hall).
      assert (Hc : ord bx c < base bx).
      { rewrite Esplit in Hall. apply Forall_app in Hall. destruct Hall as [_ Hall].
        inversion Hall; assumption. }
      destruct (decode_loop_total bx payload (Z.of_nat (length e) - 1) sum0 Hok Hbytes Hp)
        as (acc & E & _).
      rewrite E. cbn [bind].
      destruct (Z.geb_spec (ord bx c) (base bx)); [lia|].
      rewrite <- Efold. destruct (Z.eqb_spec (fold_left Z.lxor (map (ord bx) e) sum0) 0);
        [cbn [negb]; eexists; reflexivity | discriminate H].
    + intros [n H].
      destruct (if negb (base_bits bx =? 0) then _ else _) as [[r s]|] eqn:El; [|discriminate].
      cbn [bind] in H.
      destruct (decode_loop_inv bx payload _ _ r s El) as [Hp ->].
      destruct (Z.geb_spec (ord bx c) (base bx)) as [|Hc]; [discriminate|].
      rewrite <- Efold in H.
      assert (Hall : Forall (fun c => ord bx c < base bx) e).
      { rewrite Esplit. apply Forall_app. split; [exact Hp | repeat constructor; exact Hc]. }
      rewrite (is_valid_loop_total bx e Hall).
      destruct (Z.eqb_spec (fold_left Z.lxor (map (ord bx) e) sum0) 0);
        [reflexivity | discriminate H].
  - cbn [andb]. rewrite Nat2Z.id, firstn_all. split.
    + intros H. destruct (is_valid_loop bx e 0) as [t|] eqn:El; [|discriminate].
      destruct (is_valid_loop_inv bx e _ _ El) as [Hall _].
      destruct (decode_loop_total bx e (Z.of_nat (length e)) 0 Hok Hbytes Hall) as (acc & E & _).
      rewrite E. cbn [bind]. eexists. reflexivity.
    + intros [n H].
      destruct (if negb (base_bits bx =? 0) then _ else _) as [[r s]|] eqn:El; [|discriminate].
      destruct (decode_loop_inv bx e _ _ r s El) as [Hall _].
      rewrite (is_valid_loop_total bx e Hall). reflexivity.
Qed.

(** [is_valid] and [decode] agree: for a codec with consistent tables and
    a string that is not empty when a checksum is asked for, [is_valid]
    returns true exactly when [decode] returns a value, with and without
    checksum. *)
Theorem is_valid_iff_decode_returns (bx : BaseX) (e : list Z) (checksum : bool) :
  codec_ok bx = true -> Forall is_byte (_ord bx) ->
  (checksum = true -> e <> []) ->
  (is_valid bx e checksum = true <-> exists n, decode bx e checksum = Ok n).
Proof. exact (is_valid_decode_iff bx e checksum). Qed.

Lemma is_valid_iff_decode_returns_witness :
  is_valid base58_bitcoin (chars "2NEpo7TZRhna7vSvL") false = true <->
  exists n, decode base58_bitcoin (chars "2NEpo7TZRhna7vSvL") false = Ok n.
Proof.
  apply (is_valid_iff_decode_returns base58_bitcoin (chars "2NEpo7TZRhna7vSvL") false).
  - vm_compute. reflexivity.
  - apply forallb_is_byte. vm_compute. reflexivity.
  - discriminate.
Defined.

(** ** What [decode] returns and where it stops *)

Lemma decode_value_spec (bx : BaseX) (e : list Z) :
  codec_ok bx = true -> Forall is_byte (_ord bx) -> block_size bx = 0 ->
  is_valid bx e false = true ->
  exists n, decode bx e false = Ok n /\ well_formed n /\
            value n = be_value (base bx) (map (ord bx) e).
Proof.
  intros Hok Hbytes Hbs Hv. unfold is_valid in Hv.
  destruct (is_valid_loop bx e 0) as [t|] eqn:El; [|discriminate].
  destruct (is_valid_loop_inv bx e _ _ El) as [Hall _].
  destruct (decode_loop_total bx e (Z.of_nat (length e)) 0 Hok Hbytes Hall) as (acc & E & Hval & Hw).
  unfold decode. cbn [andb]. rewrite Hbs, Nat2Z.id, firstn_all. cbn [Z.eqb negb].
  rewrite E. cbn [bind]. rewrite bitwise_rshift_0.
  exists acc. split; [reflexivity | split; assumption].
Qed.

(** Without block padding, [decode] reads a valid string as a number in
    the base of the codec, the first character the most significant
    digit, each character standing for its value under [ord]; the result
    is canonical. *)
Theorem decode_is_positional (bx : BaseX) (e : list Z) :
  codec_ok bx = true -> Forall is_byte (_ord bx) -> block_size bx = 0 ->
  is_valid bx e false = true ->
  exists n, decode bx e false = Ok n /\ well_formed n /\
            value n = be_value (base bx) (map (ord bx) e).
Proof. exact (decode_value_spec bx e). Qed.

Lemma decode_is_positional_witness :
  exists n, decode base58_gmp (chars "1TFvCj") false = Ok n /\ well_formed n /\
            value n = be_value (base base58_gmp) (map (ord base58_gmp) (chars "1TFvCj")).
Proof.
  apply (decode_is_positional base58_gmp (chars "1TFvCj")).
  - vm_compute. reflexivity.
  - apply forallb_is_byte. vm_compute. reflexivity.
  - vm_compute. reflexivity.
  - vm_compute. reflexivity.
Defined.

Lemma decode_pow2_stops (bx : BaseX) (c : Z) (s2 : list Z) :
  codec_ok bx = true -> base_bits bx <> 0 -> base bx <= ord bx c ->
  forall s1, Forall (fun x => 0 <= ord bx x < base bx) s1 ->
  forall acc sum sz, well_formed acc ->
  decode_pow2 bx (s1 ++ c :: s2) sz acc sum
  = Throw (invalid_character c (sz - Z.of_nat (length s1))).
Proof.
  intros Hok Hbits Hc.
  destruct (codec_ok_spec bx Hok) as (Hb & _ & _ & _ & [Hk0|[Hk Hbase]] & _);
    [contradiction|].
  induction 1 as [|x s1 Hx Hs1 IH]; intros acc sum sz Hacc.
  - cbn [app decode_pow2 length]. destruct (Z.geb_spec (ord bx c) (base bx)); [|lia].
    f_equal. f_equal. lia.
  - cbn [app decode_pow2 length].
    destruct (Z.geb_spec (ord bx x) (base bx)); [lia|].
    destruct (bitwise_lshift_small acc (base_bits bx) ltac:(lia) (proj1 Hacc)) as [Hsv Hsw].
    assert (Hmod : value (bitwise_lshift acc (uint_of (base_bits bx))) mod 2 ^ base_bits bx = 0).
    { rewrite Hsv. apply Z.mod_mul. pose proof (pow2_pos (base_bits bx) ltac:(lia)). lia. }
    destruct (bitwise_or_digit _ (base_bits bx) (ord bx x) ltac:(lia) (proj1 Hsw) Hmod ltac:(lia))
      as [_ How].
    rewrite (IH _ (Z.lxor sum (ord bx x)) (sz - 1) How). f_equal. f_equal. lia.
Qed.

Lemma decode_general_stops (bx : BaseX) (c : Z) (s2 : list Z) :
  codec_ok bx = true -> base bx <= ord bx c ->
  forall s1, Forall (fun x => 0 <= ord bx x < base bx) s1 ->
  forall acc sum sz, well_formed acc ->
  decode_general bx (s1 ++ c :: s2) sz [base bx] acc sum
  = Throw (invalid_character c (sz - Z.of_nat (length s1))).
Proof.
  intros Hok Hc. destruct (codec_ok_spec bx Hok) as (Hb & _).
  induction 1 as [|x s1 Hx Hs1 IH]; intros acc sum sz Hacc.
  - cbn [app decode_general length]. destruct (Z.geb_spec (ord bx c) (base bx)); [|lia].
    f_equal. f_equal. lia.
  - cbn [app decode_general length].
    destruct (Z.geb_spec (ord bx x) (base bx)); [lia|].
    destruct (mult_digit acc (base bx) Hacc ltac:(lia)) as (m & Em & _ & Hmw).
    rewrite Em. cbn [bind].
    destruct (add_digit m (ord bx x) Hmw ltac:(unfold is_digit; lia)) as [_ Haw].
    rewrite (IH _ (Z.lxor sum (ord bx x)) (sz - 1) Haw). f_equal. f_equal. lia.
Qed.

(** [decode] stops at the first character that is not a digit of the
    codec and throws with that character and the count of characters from
    it to the end; [is_valid] returns false on such a string. *)
Theorem decode_reports_first_invalid (bx : BaseX) (s1 s2 : list Z) (c : Z) :
  codec_ok bx = true -> Forall is_byte (_ord bx) ->
  Forall (fun x => ord bx x < base bx) s1 -> base bx <= ord bx c ->
  decode bx (s1 ++ c :: s2) false
  = Throw (invalid_character c (Z.of_nat (length s2) + 1)) /\
  is_valid bx (s1 ++ c :: s2) false = false.
Proof.
  intros Hok Hbytes Hs1 Hc. destruct (codec_ok_spec bx Hok) as (Hb & _).
  assert (Hs1' : Forall (fun x => 0 <= ord bx x < base bx) s1).
  { eapply Forall_impl; [|exact Hs1]. cbn. intros x Hx.
    pose proof (ord_byte bx x Hbytes). lia. }
  split.
  - unfold decode. cbn [andb]. rewrite Nat2Z.id, firstn_all.
    replace (Z.of_nat (length s2) + 1)
      with (Z.of_nat (length (s1 ++ c :: s2)) - Z.of_nat (length s1))
      by (rewrite length_app; cbn [length]; lia).
    destruct (Z.eqb_spec (base_bits bx) 0) as [Hk|Hk]; cbn [negb].
    + rewrite (uint_of_nonzero (base bx)) by dlia.
      rewrite (decode_general_stops bx c s2 Hok Hc s1 Hs1' [] 0 _ well_formed_nil).
      reflexivity.
    + rewrite (decode_pow2_stops bx c s2 Hok Hk Hc s1 Hs1' [] 0 _ well_formed_nil).
      reflexivity.
  - unfold is_valid.
    destruct (is_valid_loop bx (s1 ++ c :: s2) _) as [t|] eqn:El; [|reflexivity].
    destruct (is_valid_loop_inv bx _ _ _ El) as [Hall _].
    apply Forall_app in Hall. destruct Hall as [_ Hall]. inversion Hall; subst. lia.
Qed.

Lemma decode_reports_first_invalid_witness :
  decode base58_bitcoin (chars "2N" ++ 48 :: chars "po") false
  = Throw (invalid_character 48 (Z.of_nat (length (chars "po")) + 1)) /\
  is_valid base58_bitcoin (chars "2N" ++ 48 :: chars "po") false = false.
Proof.
  apply (decode_reports_first_invalid base58_bitcoin (chars "2N") (chars "po") 48).
  - vm_compute. reflexivity.
  - apply forallb_is_byte. vm_compute. reflexivity.
  - repeat constructor; vm_compute; reflexivity.
  - vm_compute. discriminate.
Defined.

(** ** What [encode] returns *)

Lemma be_value_nil (b : Z) : be_value b [] = 0.
Proof. reflexivity. Qed.

(** Without block padding: the digits [encode] writes for a value that is
    not 0, the most significant first and not 0. *)
Lemma encode_digits (bx : BaseX) (num : uint_t) :
  codec_ok bx = true -> block_size bx = 0 -> well_formed num -> num <> [] ->
  exists ds,
    digits_below (base bx) ds /\
    encode bx num false = Ok (map (chr bx) ds) /\
    be_value (base bx) ds = value num /\ hd 0 ds <> 0.
Proof.
  intros Hok Hbs Hnum Hne.
  destruct (codec_ok_spec bx Hok) as (Hb & Hinv & _ & Hmask & Hbits & Hblock).
  assert (Hvnz : value num <> 0).
  { intros H. apply (well_formed_zero num Hnum) in H. contradiction. }
  unfold encode.
  assert (Hsz : Nat.eqb (size num) 0 = false) by (destruct num; [contradiction | reflexivity]).
  rewrite Hsz. cbn [negb].
  assert (Hbp : encode_bp bx num = 0) by (unfold encode_bp; rewrite Hbs; reflexivity).
  rewrite Hbp, bitwise_lshift_0.
  destruct (Z.eqb_spec (base_bits bx) 0) as [Hk0|Hk0]; cbn [negb].
  - rewrite (uint_of_nonzero (base bx)) by dlia.
    pose proof (value_bound num (proj1 Hnum)) as Hv.
    assert (Hlt : value num < 2 ^ Z.of_nat (S (64 * size num))).
    { eapply Z.lt_le_trans; [apply Hv|]. apply Z.pow_le_mono_r; unfold size; lia. }
    destruct (encode_general_digits_spec (base bx) Hb (64 * size num) num Hnum Hlt)
      as (ds & E & Hval & Hbel & Hhd & Hn0).
    rewrite E. cbn [bind].
    exists (rev ds). split; [apply digits_below_rev, Hbel|].
    split; [rewrite map_rev; reflexivity|].
    split; [rewrite be_value_rev; exact Hval | apply Hhd, Hvnz].
  - destruct Hbits as [?|[Hk Hbase]]; [contradiction|].
    rewrite Hbase in Hmask. cbn [bind].
    pose proof (encode_pow2_digits_below bx (size num) num Hk Hmask) as Hbel.
    rewrite <- Hbase in Hbel.
    set (ds := encode_pow2_digits bx (size num) num) in *.
    assert (Hval : be_value (base bx) (drop_zeros (rev ds)) = value num).
    { unfold ds. rewrite be_value_drop_zeros, be_value_rev, Hbase.
      apply (encode_pow2_digits_spec bx Hk Hmask num (proj1 Hnum) Hne). }
    exists (drop_zeros (rev ds)).
    split; [apply digits_below_drop_zeros, digits_below_rev, Hbel|].
    split.
    + rewrite rev_involutive, <- map_rev.
      rewrite drop_char_map_chr by (try apply digits_below_rev; assumption).
      reflexivity.
    + split; [exact Hval|].
      pose proof (drop_zeros_hd (rev ds)) as Hhd.
      destruct (drop_zeros (rev ds)) as [|d r]; [|exact Hhd].
      rewrite be_value_nil in Hval. lia.
Qed.

Lemma is_valid_of_digits (bx : BaseX) (ds : list Z) :
  codec_ok bx = true -> digits_below (base bx) ds ->
  Forall (fun c => ord bx c < base bx) (map (chr bx) ds) /\
  map (ord bx) (map (chr bx) ds) = ds.
Proof.
  intros Hok Hds. destruct (codec_ok_spec bx Hok) as (_ & Hinv & _).
  induction Hds as [|d ds Hd Hds [IH1 IH2]]; [split; [constructor | reflexivity]|].
  cbn [map]. rewrite (Hinv d Hd), IH2. split; [|reflexivity].
  constructor; [rewrite (Hinv d Hd); lia | exact IH1].
Qed.

Lemma encode_valid_spec (bx : BaseX) (num : uint_t) :
  codec_ok bx = true -> well_formed num ->
  exists e, encode bx num false = Ok e /\ is_valid bx e false = true /\
            (block_size bx = 0 ->
             e <> [] /\ be_value (base bx) (map (ord bx) e) = value num /\
             (num <> [] -> ord bx (hd 0 e) <> 0)).
Proof.
  intros Hok Hnum. destruct (codec_ok_spec bx Hok) as (Hb & Hinv & _).
  destruct num as [|d0 num'].
  - exists [chr bx 0]. split; [reflexivity|]. split.
    + unfold is_valid. cbn [length Nat.eqb is_valid_loop]. rewrite (Hinv 0 ltac:(lia)).
      destruct (Z.geb_spec 0 (base bx)); [lia | reflexivity].
    + intros _. split; [discriminate|]. split; [|congruence].
      cbn [map]. rewrite (Hinv 0 ltac:(lia)). reflexivity.
  - assert (Hne : d0 :: num' <> []) by discriminate.
    destruct (Z.eq_dec (block_size bx) 0) as [Hbs|Hbs].
    + destruct (encode_digits bx _ Hok Hbs Hnum Hne) as (ds & Hbel & E & Hval & Hhd).
      destruct (is_valid_of_digits bx ds Hok Hbel) as [Hall Hmap].
      exists (map (chr bx) ds). split; [exact E|]. split.
      * unfold is_valid. rewrite (is_valid_loop_total bx _ Hall). reflexivity.
      * intros _. rewrite Hmap. split; [destruct ds; [contradiction | discriminate]|].
        split; [exact Hval|]. intros _.
        destruct ds as [|d ds]; [contradiction|]. cbn [map hd] in *.
        inversion Hbel; subst. rewrite (Hinv d) by assumption. exact Hhd.
    + destruct (encode_structure bx _ false Hok Hnum Hne) as (ds & Hbel & E & _).
      rewrite app_nil_r in E.
      destruct (is_valid_of_digits bx ds Hok Hbel) as [Hall _].
      exists (map (chr bx) ds). split; [exact E|]. split; [|contradiction].
      unfold is_valid. rewrite (is_valid_loop_total bx _ Hall). reflexivity.
Qed.

(** [encode] without checksum returns, for every codec with consistent
    tables and every canonical value, a string that [is_valid] accepts.
    Without block padding the string is not empty, reads as the value in
    the base of the codec, and for a value that is not 0 does not start
    with the zero digit. *)
Theorem encode_is_valid_and_minimal (bx : BaseX) (num : uint_t) :
  codec_ok bx = true -> well_formed num ->
  exists e, encode bx num false = Ok e /\ is_valid bx e false = true /\
            (block_size bx = 0 ->
             e <> [] /\ be_value (base bx) (map (ord bx) e) = value num /\
             (num <> [] -> ord bx (hd 0 e) <> 0)).
Proof. exact (encode_valid_spec bx num). Qed.

Lemma encode_is_valid_and_minimal_witness :
  exists e, encode base58_bitcoin (uint_of 987654321) false = Ok e /\
            is_valid base58_bitcoin e false = true /\
            (block_size base58_bitcoin = 0 ->
             e <> [] /\
             be_value (base base58_bitcoin) (map (ord base58_bitcoin) e)
             = value (uint_of 987654321) /\
             (uint_of 987654321 <> [] -> ord base58_bitcoin (hd 0 e) <> 0)).
Proof.
  apply (encode_is_valid_and_minimal base58_bitcoin (uint_of 987654321)).
  - vm_compute. reflexivity.
  - apply uint_of_well_formed. unfold is_digit. lia.
Defined.

(** ** Round trips on values *)

Lemma decode_of_digits (bx : BaseX) (ds : list Z) (num : uint_t) :
  codec_ok bx = true -> block_size bx = 0 -> digits_below (base bx) ds ->
  well_formed num -> be_value (base bx) ds = value num ->
  decode bx (map (chr bx) ds) false = Ok num.
Proof.
  intros Hok Hbs Hbel Hnum Hval. destruct (codec_ok_spec bx Hok) as (Hb & _).
  unfold decode. cbn [andb]. rewrite Hbs. cbn [Z.eqb negb].
  rewrite Nat2Z.id, firstn_all.
  destruct (Z.eqb_spec (base_bits bx) 0) as [Hk0|Hk0]; cbn [negb].
  - rewrite (uint_of_nonzero (base bx)) by dlia.
    destruct (decode_general_spec bx ds Hok Hbel [] 0 (Z.of_nat (length (map (chr bx) ds)))
                well_formed_nil) as (acc & Ed & Hv & Hw).
    rewrite Ed. cbn [bind]. rewrite bitwise_rshift_0. f_equal.
    apply value_inj; [assumption | assumption|]. rewrite Hv. exact Hval.
  - destruct (decode_pow2_spec bx ds Hok Hk0 Hbel [] 0 (Z.of_nat (length (map (chr bx) ds)))
                well_formed_nil) as (acc & Ed & Hv & Hw).
    rewrite Ed. cbn [bind]. rewrite bitwise_rshift_0. f_equal.
    apply value_inj; [assumption | assumption|]. rewrite Hv. exact Hval.
Qed.

Lemma value_round_trip_spec (bx : BaseX) (num : uint_t) :
  codec_ok bx = true -> block_size bx = 0 -> well_formed num ->
  exists e, encode bx num false = Ok e /\ decode bx e false = Ok num.
Proof.
  intros Hok Hbs Hnum. destruct (codec_ok_spec bx Hok) as (Hb & _).
  destruct num as [|d0 num'].
  - exists [chr bx 0]. split; [reflexivity|].
    apply (decode_of_digits bx [0] [] Hok Hbs); [repeat constructor; lia | exact Hnum|].
    cbn. lia.
  - apply decode_encode; [assumption | assumption | assumption | discriminate].
Qed.

(** On values the round trip is exact: for every codec with consistent
    tables and without block padding, and every canonical value, 0
    included, [decode] of what [encode] returned is the value; so [encode]
    does not map two values to one string. *)
Theorem value_round_trip (bx : BaseX) (a b : uint_t) :
  codec_ok bx = true -> block_size bx = 0 -> well_formed a -> well_formed b ->
  (exists e, encode bx a false = Ok e /\ decode bx e false = Ok a) /\
  (encode bx a false = encode bx b false -> a = b).
Proof.
  intros Hok Hbs Ha Hb.
  destruct (value_round_trip_spec bx a Hok Hbs Ha) as (ea & Ea & Da).
  destruct (value_round_trip_spec bx b Hok Hbs Hb) as (eb & Eb & Db).
  split; [exists ea; split; assumption|].
  intros H. rewrite Ea, Eb in H. injection H as ->. congruence.
Qed.

Lemma value_round_trip_witness :
  (exists e, encode base62 (uint_of 987654321) false = Ok e /\
             decode base62 e false = Ok (uint_of 987654321)) /\
  (encode base62 (uint_of 987654321) false = encode base62 [] false ->
   uint_of 987654321 = []).
Proof.
  apply (value_round_trip base62 (uint_of 987654321) []).
  - vm_compute. reflexivity.
  - vm_compute. reflexivity.
  - apply uint_of_well_formed. unfold is_digit. lia.
  - apply well_formed_nil.
Defined.

(** ** The round trip with checksum *)

Lemma lxor_below_pow2 (k a b : Z) :
  0 <= k -> 0 <= a < 2 ^ k -> 0 <= b < 2 ^ k -> 0 <= Z.lxor a b < 2 ^ k.
Proof.
  intros Hk Ha Hb.
  assert (Hnn : 0 <= Z.lxor a b) by (apply Z.lxor_nonneg; lia).
  split; [exact Hnn|].
  destruct (Z.eq_dec (Z.lxor a b) 0) as [->|Hnz]; [lia|].
  apply Z.log2_lt_pow2; [lia|].
  pose proof (Z.log2_lxor a b ltac:(lia) ltac:(lia)) as Hl.
  assert (Hla : Z.log2 a < k \/ a = 0).
  { destruct (Z.eq_dec a 0); [right; assumption | left; apply Z.log2_lt_pow2; lia]. }
  assert (Hlb : Z.log2 b < k \/ b = 0).
  { destruct (Z.eq_dec b 0); [right; assumption | left; apply Z.log2_lt_pow2; lia]. }
  destruct Hla as [Hla| ->], Hlb as [Hlb| ->];
    rewrite ?Z.lxor_0_r, ?Z.lxor_0_l in *; try lia;
    try (apply Z.log2_lt_pow2; lia).
Qed.

Lemma xor_all_below_pow2 (k : Z) (ds : list Z) :
  0 <= k -> digits_below (2 ^ k) ds -> 0 <= xor_all ds < 2 ^ k.
Proof.
  intros Hk. induction 1 as [|d ds Hd Hds IH].
  - cbn. pose proof (pow2_pos k Hk). lia.
  - rewrite xor_all_cons. apply lxor_below_pow2; assumption.
Qed.

(** The checksum digit [encode] appends, for the digits [ds]. *)
Lemma checksum_digit_range (bx : BaseX) (ds : list Z) :
  codec_ok bx = true -> digits_below (base bx) ds ->
  let cs := Z.lxor (xor_all ds) (length_sum bx (Z.of_nat (length ds))) in
  0 <= cs < 256 /\ (base_bits bx <> 0 -> cs < base bx).
Proof.
  intros Hok Hbel cs.
  destruct (codec_ok_spec bx Hok) as (Hb & _ & _ & _ & Hbits & _).
  split.
  - apply lxor_below_256.
    + apply xor_all_below_256. eapply digits_below_weaken; [|exact Hbel]. lia.
    + apply length_sum_below. exact Hb.
  - intros Hk. destruct Hbits as [?|[Hk8 Hbase]]; [contradiction|].
    rewrite Hbase in *. apply lxor_below_pow2; [lia | apply xor_all_below_pow2; [lia | exact Hbel]|].
    unfold length_sum. rewrite Hbase.
    pose proof (pow2_pos (base_bits bx) ltac:(lia)) as P.
    apply lxor_below_pow2; [lia | apply Z.mod_pos_bound; lia | apply Z.mod_pos_bound; lia].
Qed.

Lemma decode_of_digits_checked (bx : BaseX) (ds : list Z) (num : uint_t) :
  codec_ok bx = true -> block_size bx = 0 -> digits_below (base bx) ds ->
  well_formed num -> be_value (base bx) ds = value num ->
  let cs := Z.lxor (xor_all ds) (length_sum bx (Z.of_nat (length ds))) in
  0 <= cs < base bx ->
  decode bx (map (chr bx) ds ++ [chr bx cs]) true = Ok num /\
  is_valid bx (map (chr bx) ds ++ [chr bx cs]) true = true.
Proof.
  intros Hok Hbs Hbel Hnum Hval cs HS.
  destruct (codec_ok_spec bx Hok) as (Hb & Hinv & _).
  assert (Hlen : length (map (chr bx) ds ++ [chr bx cs]) = Datatypes.S (length ds)).
  { rewrite length_app, length_map. cbn [length]. lia. }
  split.
  - unfold decode. rewrite Hlen. cbn [andb Nat.eqb]. rewrite Hbs. cbn [Z.eqb negb].
    replace (Z.of_nat (Datatypes.S (length ds)) - 1) with (Z.of_nat (length ds)) by lia.
    rewrite Nat2Z.id.
    rewrite firstn_app, length_map, Nat.sub_diag, firstn_all2 by (rewrite length_map; lia).
    cbn [firstn]. rewrite app_nil_r.
    rewrite app_nth2 by (rewrite length_map; lia).
    rewrite length_map, Nat.sub_diag. cbn [nth].
    rewrite (Hinv cs HS).
    assert (Hfin : (if cs >=? base bx then Throw (invalid_character (chr bx cs) 0)
                    else if negb (Z.lxor (fold_left Z.lxor ds
                                           (length_sum bx (Z.of_nat (length ds)))) cs =? 0)
                         then Throw invalid_checksum else Ok num) = Ok num).
    { destruct (Z.geb_spec cs (base bx)); [lia|].
      rewrite xor_all_from.
      replace (Z.lxor (Z.lxor (length_sum bx (Z.of_nat (length ds))) (xor_all ds)) cs) with 0
        by (unfold cs; xor_tac).
      reflexivity. }
    destruct (Z.eqb_spec (base_bits bx) 0) as [Hk0|Hk0]; cbn [negb].
    + rewrite (uint_of_nonzero (base bx)) by dlia.
      destruct (decode_general_spec bx ds Hok Hbel [] (length_sum bx (Z.of_nat (length ds)))
                  (Z.of_nat (length ds)) well_formed_nil) as (acc & Ed & Hv & Hw).
      rewrite Ed. cbn [bind]. rewrite bitwise_rshift_0.
      assert (acc = num) as -> by (apply value_inj; [assumption | assumption|]; rewrite Hv; exact Hval).
      exact Hfin.
    + destruct (decode_pow2_spec bx ds Hok Hk0 Hbel [] (length_sum bx (Z.of_nat (length ds)))
                  (Z.of_nat (length ds)) well_formed_nil) as (acc & Ed & Hv & Hw).
      rewrite Ed. cbn [bind]. rewrite bitwise_rshift_0.
      assert (acc = num) as -> by (apply value_inj; [assumption | assumption|]; rewrite Hv; exact Hval).
      exact Hfin.
  - destruct (is_valid_of_digits bx ds Hok Hbel) as [Hall Hmap].
    assert (Hall' : Forall (fun c => ord bx c < base bx) (map (chr bx) ds ++ [chr bx cs])).
    { apply Forall_app. split; [exact Hall|]. repeat constructor. rewrite (Hinv cs HS). lia. }
    unfold is_valid. rewrite Hlen. cbn [Nat.eqb].
    rewrite (is_valid_loop_total bx _ Hall').
    replace (Z.of_nat (Datatypes.S (length ds)) - 1) with (Z.of_nat (length ds)) by lia.
    rewrite map_app, Hmap. cbn [map]. rewrite (Hinv cs HS).
    rewrite fold_left_app. cbn [fold_left]. rewrite xor_all_from.
    replace (Z.lxor (Z.lxor (length_sum bx (Z.of_nat (length ds))) (xor_all ds)) cs) with 0
      by (unfold cs; xor_tac).
    reflexivity.
Qed.

Lemma checked_round_trip_spec (bx : BaseX) (num : uint_t) :
  codec_ok bx = true -> block_size bx = 0 -> well_formed num ->
  exists e, encode bx num true = Ok e /\
            (base_bits bx <> 0 -> is_valid bx e true = true) /\
            (is_valid bx e true = true -> decode bx e true = Ok num).
Proof.
  intros Hok Hbs Hnum.
  destruct (codec_ok_spec bx Hok) as (Hb & Hinv & Hhigh & _).
  destruct num as [|d0 num'].
  - exists [chr bx 0]. split; [reflexivity|].
    assert (H0 : Z.lxor (xor_all []) (length_sum bx (Z.of_nat (length (@nil Z)))) = 0).
    { unfold length_sum. cbn [length Z.of_nat xor_all fold_left].
      rewrite Z.div_0_l, !Zmod_0_l by lia. reflexivity. }
    destruct (decode_of_digits_checked bx [] [] Hok Hbs ltac:(constructor) Hnum eq_refl) as [Hd Hv].
    { cbv zeta. rewrite H0. lia. }
    cbv zeta in Hd, Hv. rewrite H0 in Hd, Hv. cbn [map app] in Hd, Hv.
    split; [intros _; exact Hv | intros _; exact Hd].
  - assert (Hne : d0 :: num' <> []) by discriminate.
    destruct (encode_structure bx _ true Hok Hnum Hne) as (ds & Hbel & E & Hval).
    specialize (Hval Hbs).
    destruct (checksum_digit_range bx ds Hok Hbel) as [HS Hpow]. cbv zeta in HS, Hpow.
    set (cs := Z.lxor (xor_all ds) (length_sum bx (Z.of_nat (length ds)))) in *.
    eexists. split; [exact E|]. split.
    + intros Hk.
      apply (decode_of_digits_checked bx ds _ Hok Hbs Hbel Hnum Hval).
      fold cs. split; [lia | apply Hpow, Hk].
    + intros Hv.
      assert (Hnil : map (chr bx) ds ++ [chr bx cs] <> [])
        by (intros H; apply app_eq_nil in H; destruct H; discriminate).
      destruct (is_valid_checksum bx _ Hnil Hv) as [_ Hall].
      assert (Hcs : cs < base bx).
      { destruct (Z.lt_ge_cases cs (base bx)) as [|Hge]; [assumption|].
        specialize (Hhigh cs ltac:(lia)).
        assert (ord bx (chr bx cs) < base bx); [|lia].
        apply Hall. rewrite map_app. apply in_or_app. right. left. reflexivity. }
      apply (decode_of_digits_checked bx ds _ Hok Hbs Hbel Hnum Hval).
      fold cs. lia.
Qed.

(** With checksum and without block padding: whenever the string
    [encode] returned passes [is_valid], [decode] gives the value back;
    and for a base that is a power of two it always passes.  (For another
    base the checksum, an xor of digits, can come out at or above the
    base, where the table [chr] holds no digit.) *)
Theorem checked_round_trip (bx : BaseX) (num : uint_t) :
  codec_ok bx = true -> block_size bx = 0 -> well_formed num ->
  exists e, encode bx num true = Ok e /\
            (base_bits bx <> 0 -> is_valid bx e true = true) /\
            (is_valid bx e true = true -> decode bx e true = Ok num).
Proof. exact (checked_round_trip_spec bx num). Qed.

Lemma checked_round_trip_witness :
  exists e, encode base16 (uint_of 171) true = Ok e /\
            (base_bits base16 <> 0 -> is_valid base16 e true = true) /\
            (is_valid base16 e true = true -> decode base16 e true = Ok (uint_of 171)).
Proof.
  apply (checked_round_trip base16 (uint_of 171)).
  - vm_compute. reflexivity.
  - vm_compute. reflexivity.
  - apply uint_of_well_formed. unfold is_digit. lia.
Defined.

(** ** The tables the constructor builds *)

Lemma Forall_store (P : Z -> Prop) (a : list Z) (i : nat) (v : Z) :
  Forall P a -> P v -> Forall P (store a i v).
Proof.
  intros Ha Hv. revert i. induction Ha as [|x a Hx Ha IH]; intros i; [constructor|].
  destruct i; cbn [store]; constructor; auto.
Qed.

Lemma wrap8_byte (v : Z) : is_byte (wrap 8 v).
Proof. unfold is_byte, wrap. change (2 ^ 8) with 256. apply Z.mod_pos_bound. lia. Qed.

Lemma other_case_range (ch b : Z) :
  other_case ch = Some b -> 65 <= ch <= 122 /\ 65 <= b <= 122 /\ b <> ch.
Proof.
  unfold other_case.
  destruct ((65 <=? ch) && (ch <=? 90)) eqn:E1.
  - intros H. injection H as <-. apply andb_prop in E1. lia.
  - destruct ((97 <=? ch) && (ch <=? 122)) eqn:E2; [|discriminate].
    intros H. injection H as <-. apply andb_prop in E2. lia.
Qed.

Lemma other_case_inj (x y b : Z) :
  other_case x = Some b -> other_case y = Some b -> x = y.
Proof.
  intros Hx Hy.
  pose proof (other_case_range x b Hx) as Rx.
  pose proof (other_case_range y b Hy) as Ry.
  unfold other_case in Hx, Hy.
  destruct ((65 <=? x) && (x <=? 90)) eqn:X1;
    [|destruct ((97 <=? x) && (x <=? 122)) eqn:X2; [|discriminate]];
    injection Hx as Hx;
    (destruct ((65 <=? y) && (y <=? 90)) eqn:Y1;
     [|destruct ((97 <=? y) && (y <=? 122)) eqn:Y2; [|discriminate]]);
    injection Hy as Hy;
    repeat match goal with
           | H : (_ && _) = true |- _ => apply andb_prop in H
           | H : (_ && _) = false |- _ => apply andb_false_iff in H
           end; lia.
Qed.

(** One turn of the loop over the alphabet. *)
Lemma ctor_alphabet_cons (ch : Z) (rest : list Z) (i flags : Z) (C O : list Z) :
  ctor_alphabet (ch :: rest) i flags (C, O)
  = ctor_alphabet rest (i - 1) flags
      (store C (Z.to_nat (i - 1)) ch, ord_turn flags ch (i - 1) O).
Proof.
  cbn [ctor_alphabet]. unfold ord_turn, folds_case, other_case.
  destruct (negb (Z.land flags IGNORE_CASE =? 0)); [|reflexivity].
  destruct ((65 <=? ch) && (ch <=? 90)); [reflexivity|].
  destruct ((97 <=? ch) && (ch <=? 122)); reflexivity.
Qed.

Lemma ord_turn_length (flags ch v : Z) (O : list Z) :
  length (ord_turn flags ch v O) = length O.
Proof.
  unfold ord_turn. destruct (if folds_case flags then other_case ch else None);
    rewrite ?length_store; reflexivity.
Qed.

Lemma ord_turn_bytes (flags ch v : Z) (O : list Z) :
  Forall is_byte O -> Forall is_byte (ord_turn flags ch v O).
Proof.
  intros H. unfold ord_turn.
  destruct (if folds_case flags then other_case ch else None);
    repeat apply Forall_store; auto using wrap8_byte.
Qed.

Lemma ord_turn_other (flags ch v : Z) (O : list Z) (k : nat) :
  ~ writes_ord flags ch k -> nth k (ord_turn flags ch v O) 255 = nth k O 255.
Proof.
  intros H. unfold writes_ord in H. unfold ord_turn.
  assert (H1 : Z.to_nat ch <> k) by tauto.
  destruct (folds_case flags); [|apply nth_store_other, H1].
  destruct (other_case ch) as [b|] eqn:E; [|apply nth_store_other, H1].
  rewrite nth_store_other; [apply nth_store_other, H1|].
  intros Hb. apply H. right. split; [reflexivity|]. exists b. split; [reflexivity | exact Hb].
Qed.

Lemma ord_turn_same (flags ch v : Z) (O : list Z) :
  (Z.to_nat ch < length O)%nat ->
  nth (Z.to_nat ch) (ord_turn flags ch v O) 255 = wrap 8 v.
Proof.
  intros H. unfold ord_turn.
  destruct (folds_case flags); [|apply nth_store_same, H].
  destruct (other_case ch) as [b|] eqn:E; [|apply nth_store_same, H].
  destruct (other_case_range ch b E) as (Hc & Hb & Hne).
  rewrite nth_store_other by lia. apply nth_store_same, H.
Qed.

Lemma ord_turn_case (flags ch v b : Z) (O : list Z) :
  folds_case flags = true -> other_case ch = Some b -> (Z.to_nat b < length O)%nat ->
  nth (Z.to_nat b) (ord_turn flags ch v O) 255 = wrap 8 v.
Proof.
  intros Hf E H. unfold ord_turn. rewrite Hf, E.
  apply nth_store_same. rewrite length_store. exact H.
Qed.

(** The loop over the reversed alphabet [r], started at [i = length r]
    as the constructor starts it. *)
Lemma ctor_alphabet_spec (flags : Z) :
  forall r C O,
    length C = 256%nat -> length O = 256%nat -> (length r <= 256)%nat ->
    Forall (fun c => 0 < c < 256) r -> NoDup r ->
    (forall a b, In a r -> In b r -> a <> b -> ~ writes_ord flags a (Z.to_nat b)) ->
    let T' := ctor_alphabet r (Z.of_nat (length r)) flags (C, O) in
    (forall p, (p < length r)%nat -> nth (length r - 1 - p) (fst T') 0 = nth p r 0) /\
    (forall j, (length r <= j)%nat -> nth j (fst T') 0 = nth j C 0) /\
    (forall p, (p < length r)%nat ->
       nth (Z.to_nat (nth p r 0)) (snd T') 255 = Z.of_nat (length r - 1 - p)) /\
    (forall p b, (p < length r)%nat -> folds_case flags = true ->
       other_case (nth p r 0) = Some b ->
       nth (Z.to_nat b) (snd T') 255 = Z.of_nat (length r - 1 - p)) /\
    (forall k, (forall a, In a r -> ~ writes_ord flags a k) ->
       nth k (snd T') 255 = nth k O 255) /\
    (Forall is_byte O -> Forall is_byte (snd T')).
Proof.
  induction r as [|ch rest IH]; intros C O HC HO Hlen Hbytes Hnd Hcol T'.
  - unfold T'. cbn [ctor_alphabet fst snd length].
    split; [intros p Hp; lia|]. split; [reflexivity|].
    split; [intros p Hp; lia|]. split; [intros p b Hp; lia|].
    split; [reflexivity | auto].
  - cbn [length] in *. unfold T'. rewrite ctor_alphabet_cons.
    replace (Z.of_nat (S (length rest)) - 1) with (Z.of_nat (length rest)) by lia.
    rewrite Nat2Z.id.
    inversion Hbytes as [|? ? Hch Hrest]; subst.
    inversion Hnd as [|? ? Hnotin Hnd']; subst.
    assert (Hw : wrap 8 (Z.of_nat (length rest)) = Z.of_nat (length rest)).
    { unfold wrap. change (2 ^ 8) with 256. apply Z.mod_small. lia. }
    assert (Hcol' : forall a b, In a rest -> In b rest -> a <> b ->
                                ~ writes_ord flags a (Z.to_nat b)).
    { intros a b Ha Hb. apply Hcol; right; assumption. }
    destruct (IH (store C (length rest) ch) (ord_turn flags ch (Z.of_nat (length rest)) O)
                ltac:(rewrite length_store; exact HC)
                ltac:(rewrite ord_turn_length; exact HO)
                ltac:(lia) Hrest Hnd' Hcol')
      as (Ia & Ib & Ic & Icase & Id & Ie).
    set (R := ctor_alphabet rest (Z.of_nat (length rest)) flags
                (store C (length rest) ch,
                 ord_turn flags ch (Z.of_nat (length rest)) O)) in *.
    assert (Hch_untouched : forall a, In a rest -> ~ writes_ord flags a (Z.to_nat ch)).
    { intros a Ha. apply Hcol; [right; exact Ha | left; reflexivity|].
      intros ->. contradiction. }
    split; [|split; [|split; [|split; [|split]]]].
    + intros [|p] Hp.
      * replace (S (length rest) - 1 - 0)%nat with (length rest) by lia.
        rewrite Ib by lia. cbn [nth]. apply nth_store_same. lia.
      * replace (S (length rest) - 1 - S p)%nat with (length rest - 1 - p)%nat by lia.
        cbn [nth]. apply Ia. lia.
    + intros j Hj. rewrite Ib by lia. apply nth_store_other. lia.
    + intros [|p] Hp.
      * cbn [nth]. rewrite (Id _ Hch_untouched), ord_turn_same by lia.
        rewrite Hw. f_equal. lia.
      * cbn [nth]. rewrite Ic by lia. f_equal. lia.
    + intros [|p] b Hp Hf Eb.
      * cbn [nth] in Eb. destruct (other_case_range ch b Eb) as (Hc & Hb & Hne).
        rewrite Id.
        -- rewrite (ord_turn_case flags ch _ b O Hf Eb) by lia. rewrite Hw. f_equal. lia.
        -- intros a Ha [Heq | (_ & b' & Eb' & Heq)].
           ++ assert (a = b).
              { apply Forall_forall with (x := a) in Hrest; [|exact Ha]. lia. }
              subst a.
              apply (Hcol ch b (or_introl eq_refl) (or_intror Ha) ltac:(lia)).
              right. split; [exact Hf|]. exists b. split; [exact Eb | reflexivity].
           ++ destruct (other_case_range a b' Eb') as (_ & Hb' & _).
              assert (b' = b) by lia. subst b'.
              assert (a = ch) by (eapply other_case_inj; eassumption).
              subst a. contradiction.
      * cbn [nth] in Eb |- *. rewrite (Icase p b) by (try lia; assumption). f_equal. lia.
    + intros k Hk. rewrite Id by (intros a Ha; apply Hk; right; exact Ha).
      apply ord_turn_other. apply Hk. left. reflexivity.
    + intros HOb. apply Ie, ord_turn_bytes, HOb.
Qed.

Lemma ctor_ignored_other (l O : list Z) (k : nat) :
  (forall c, In c l -> Z.to_nat c <> k) ->
  nth k (ctor_ignored l O) 255 = nth k O 255.
Proof.
  revert O. induction l as [|ch l IH]; intros O H; [reflexivity|].
  cbn [ctor_ignored]. rewrite IH by (intros c Hc; apply H; right; exact Hc).
  apply nth_store_other. apply H. left. reflexivity.
Qed.

Lemma ctor_ignored_bytes (l O : list Z) :
  Forall is_byte O -> Forall is_byte (ctor_ignored l O).
Proof.
  revert O. induction l as [|ch l IH]; intros O H; [exact H|].
  cbn [ctor_ignored]. apply IH, Forall_store; [exact H | unfold is_byte; lia].
Qed.

Lemma codes_from_0_range (d : Z) : In d (codes_from 0) -> 0 <= d < 256.
Proof.
  unfold codes_from. intros H. apply in_map_iff in H. destruct H as (n & <- & Hn).
  apply in_seq in Hn. cbn in Hn. lia.
Qed.

(** The converse of [codec_ok_spec]. *)
Lemma codec_ok_intro (bx : BaseX) :
  2 <= base bx <= 256 ->
  (forall d, 0 <= d < base bx -> ord bx (chr bx d) = d) ->
  (forall d, base bx <= d < 256 -> base bx <= ord bx (chr bx d)) ->
  base_mask bx = base bx - 1 ->
  (base_bits bx = 0 \/ 0 < base_bits bx <= 8 /\ base bx = 2 ^ base_bits bx) ->
  (block_size bx = 0 \/ block_size bx = base_bits bx) ->
  codec_ok bx = true.
Proof.
  intros Hb Hinv Hhigh Hmask Hbits Hblock. unfold codec_ok.
  apply andb_true_intro; split;
    [apply andb_true_intro; split;
     [apply andb_true_intro; split;
      [apply andb_true_intro; split; [apply andb_true_intro; split|]|]|]|];
    try lia.
  apply forallb_forall. intros d Hd. apply codes_from_0_range in Hd.
    destruct (Z.lt_ge_cases d (base bx)) as [Hlt|Hge].
  - rewrite (Hinv d ltac:(lia)). lia.
  - specialize (Hhigh d ltac:(lia)). lia.
Qed.

Lemma ctor_codec_spec (alphabet ignored : list Z) (flags : Z) (bx : BaseX) :
  BaseX_ctor alphabet ignored flags = Ok bx ->
  alphabet_ok flags alphabet -> Forall (fun c => 0 < c < 256) ignored ->
  (forall i, (i < length alphabet)%nat ->
     chr bx (Z.of_nat i) = nth i alphabet 0 /\ ord bx (nth i alphabet 0) = Z.of_nat i) /\
  (folds_case flags = true ->
   forall a b, In a alphabet -> other_case a = Some b -> ord bx b = ord bx a) /\
  Forall is_byte (_ord bx) /\ codec_ok bx = true.
Proof.
  intros Hctor (Hnd & Hbytes & Hlen & Hcol) Hign.
  rewrite BaseX_ctor_in_range in Hctor by lia. cbv zeta in Hctor.
  set (O := ctor_ignored (rev ignored) (repeat 255 256)) in *.
  assert (HOb : Forall is_byte O).
  { apply ctor_ignored_bytes. apply Forall_forall. intros x Hx.
    apply repeat_spec in Hx. subst. unfold is_byte. lia. }
  assert (HOl : length O = 256%nat).
  { unfold O. rewrite ctor_ignored_length. apply repeat_length. }
  pose proof (ctor_alphabet_spec flags (rev alphabet) (repeat 0 256) O
                (repeat_length _ _) HOl ltac:(rewrite length_rev; lia)
                ltac:(apply Forall_rev; exact Hbytes)
                ltac:(apply NoDup_rev; exact Hnd)
                ltac:(intros a b Ha Hb; apply Hcol; apply in_rev; assumption)) as Hspec.
  cbv zeta in Hspec. rewrite length_rev in Hspec.
  destruct (ctor_alphabet (rev alphabet) (Z.of_nat (length alphabet)) flags (repeat 0 256, O))
    as [C' O'] eqn:E.
  cbn [fst snd] in Hspec. destruct Hspec as (Sa & Sb & Sc & Scase & Sd & Se).
  injection Hctor as <-. unfold chr, ord. cbn [_chr _ord base base_bits base_mask block_size].
  assert (Hnth : forall i, (i < length alphabet)%nat ->
                 nth (length alphabet - 1 - i) (rev alphabet) 0 = nth i alphabet 0).
  { intros i Hi. rewrite rev_nth by lia. f_equal. lia. }
  assert (Hchr : forall i, (i < length alphabet)%nat -> nth i C' 0 = nth i alphabet 0).
  { intros i Hi. rewrite <- (Hnth i Hi), <- Sa by lia. f_equal. lia. }
  assert (Hord : forall i, (i < length alphabet)%nat ->
                 nth (Z.to_nat (nth i alphabet 0)) O' 255 = Z.of_nat i).
  { intros i Hi. rewrite <- (Hnth i Hi), Sc by lia. f_equal. lia. }
  assert (H0 : nth 0 O' 255 = 255).
  { rewrite Sd.
    - unfold O. rewrite ctor_ignored_other.
      + reflexivity.
      + intros c Hc. apply in_rev in Hc.
        apply Forall_forall with (x := c) in Hign; [lia | exact Hc].
    - intros a Ha [Heq | (_ & b & Eb & Heq)].
      + apply in_rev in Ha. apply Forall_forall with (x := a) in Hbytes; [lia | exact Ha].
      + destruct (other_case_range a b Eb) as (_ & Hb & _). lia. }
  split; [|split; [|split]].
  - intros i Hi. rewrite Nat2Z.id. split; [apply Hchr, Hi | apply Hord, Hi].
  - intros Hf a b Ha Eb. destruct (In_nth alphabet a 0 Ha) as (i & Hi & <-).
    rewrite (Hord i Hi). rewrite <- (Hnth i Hi) in Eb.
    rewrite (Scase (length alphabet - 1 - i)%nat b ltac:(lia) Hf Eb). f_equal. lia.
  - apply Se, HOb.
  - apply codec_ok_intro; unfold chr, ord;
      cbn [_chr _ord base base_bits base_mask block_size].
    + lia.
    + intros d Hd. rewrite (Hchr (Z.to_nat d)) by lia.
      rewrite (Hord (Z.to_nat d)) by lia. lia.
    + intros d Hd. rewrite Sb by lia.
      rewrite nth_repeat. cbn [Z.to_nat]. rewrite H0. lia.
    + unfold wrap. apply Z.mod_small. lia.
    + destruct (base_tables_spec (Z.of_nat (length alphabet)) ltac:(lia)) as (Hk & _).
      destruct (Z.eq_dec (base_bits_of (Z.of_nat (length alphabet))) 0) as [E0|E0];
        [left; exact E0 | right]. specialize (Hk E0). lia.
    + destruct (negb (Z.land flags BLOCK_PADDING =? 0)); [right | left]; reflexivity.
Qed.

(** For an alphabet of 2 to 255 distinct characters, none NUL and, under
    IGNORE_CASE, no letter in both cases, and an ignored set without NUL,
    the constructor returns a codec with consistent tables: [chr] lists the alphabet,
    [ord] is its inverse, under IGNORE_CASE the other case of a letter has
    the letter's digit, and the codec passes [codec_ok]. *)
Theorem ctor_gives_consistent_codec (alphabet ignored : list Z) (flags : Z) :
  alphabet_ok flags alphabet -> Forall (fun c => 0 < c < 256) ignored ->
  exists bx,
    BaseX_ctor alphabet ignored flags = Ok bx /\
    (forall i, (i < length alphabet)%nat ->
       chr bx (Z.of_nat i) = nth i alphabet 0 /\ ord bx (nth i alphabet 0) = Z.of_nat i) /\
    (folds_case flags = true ->
     forall a b, In a alphabet -> other_case a = Some b -> ord bx b = ord bx a) /\
    Forall is_byte (_ord bx) /\ codec_ok bx = true.
Proof.
  intros Hal Hig.
  destruct (ctor_in_range alphabet ignored flags) as (bx & E & _);
    [destruct Hal as (_ & _ & Hlen & _); lia|].
  exists bx. split; [exact E|].
  exact (ctor_codec_spec alphabet ignored flags bx E Hal Hig).
Qed.

Lemma alphabet_ok_plain (flags : Z) (alphabet : list Z) :
  folds_case flags = false -> NoDup alphabet ->
  Forall (fun c => 0 < c < 256) alphabet -> (2 <= length alphabet <= 255)%nat ->
  alphabet_ok flags alphabet.
Proof.
  intros Hf Hnd Hb Hl. split; [exact Hnd|]. split; [exact Hb|]. split; [exact Hl|].
  intros a b Ha Hb' Hne [H | [H _]]; [|congruence].
  rewrite Forall_forall in Hb. pose proof (Hb a Ha). pose proof (Hb b Hb'). lia.
Qed.

Lemma ctor_gives_consistent_codec_witness :
  exists bx,
    BaseX_ctor (chars "01234567") (chars "") 0 = Ok bx /\
    (forall i, (i < length (chars "01234567"))%nat ->
       chr bx (Z.of_nat i) = nth i (chars "01234567") 0 /\
       ord bx (nth i (chars "01234567") 0) = Z.of_nat i) /\
    (folds_case 0 = true ->
     forall a b, In a (chars "01234567") -> other_case a = Some b ->
                 ord bx b = ord bx a) /\
    Forall is_byte (_ord bx) /\ codec_ok bx = true.
Proof.
  apply (ctor_gives_consistent_codec (chars "01234567") (chars "") 0).
  - apply alphabet_ok_plain.
    + reflexivity.
    + vm_compute. repeat (constructor; [cbn [In]; lia|]). constructor.
    + vm_compute. repeat (constructor; [split; reflexivity|]). constructor.
    + cbn. lia.
  - vm_compute. constructor.
Defined.

(** ** Reading and writing numbers in the bases 2 to 36 *)

Lemma bitwise_or_spec (a b : uint_t) :
  digits_ok a -> digits_ok b ->
  value (bitwise_or a b) = Z.lor (value a) (value b) /\ well_formed (bitwise_or a b).
Proof.
  intros Ha Hb. unfold bitwise_or. rewrite trim_value.
  pose proof (digits_ok_or_loop a b Ha Hb) as Dor.
  split; [|apply trim_well_formed; assumption].
  apply (value_digitwise Z.lor orb); auto using Z.lor_spec, nth_or_loop.
Qed.

Lemma uint_ord_range (c : Z) : 0 <= uint_ord c < 36 \/ uint_ord c = 255.
Proof.
  unfold uint_ord.
  destruct ((48 <=? c) && (c <=? 57)) eqn:E1; [lia|].
  destruct ((65 <=? c) && (c <=? 90)) eqn:E2; [lia|].
  destruct ((97 <=? c) && (c <=? 122)) eqn:E3; [lia|].
  right. reflexivity.
Qed.

Lemma strtouint_digit (b c : Z) :
  2 <= b <= 36 ->
  (compare (uint_of (uint_ord c)) (uint_of b) >=? 0) = (b <=? uint_ord c).
Proof.
  intros Hb. pose proof (uint_ord_range c) as Hc.
  rewrite compare_spec by (apply uint_of_well_formed; unfold is_digit; lia).
  rewrite !uint_of_value by (unfold is_digit; lia).
  destruct (Z.compare_spec (uint_ord c) b); lia.
Qed.

Lemma strtouint_pow2_spec (b k : Z) (s : list Z) :
  2 <= b <= 36 -> 1 <= k <= 8 -> b = 2 ^ k ->
  forall sz acc, well_formed acc ->
  (Forall (fun c => uint_ord c < b) s ->
   exists n, strtouint_pow2 s sz b (uint_of k) acc = Ok n /\ well_formed n /\
             value n = fold_left (fun a d => a * b + d) (map uint_ord s) (value acc)) /\
  (Exists (fun c => b <= uint_ord c) s ->
   strtouint_pow2 s sz b (uint_of k) acc = Throw runtime_error).
Proof.
  intros Hb Hk Ebk. induction s as [|c s IH]; intros sz acc Hacc.
  - split; [intros _; exists acc; cbn; auto | intros H; inversion H].
  - cbn [strtouint_pow2]. cbv zeta. rewrite strtouint_digit by exact Hb.
    pose proof (uint_ord_range c) as Hc.
    destruct (Z.leb_spec b (uint_ord c)) as [Hge|Hlt].
    + split; [intros H; inversion H; lia | intros _; reflexivity].
    + destruct (bitwise_lshift_spec acc k Hacc ltac:(lia)) as [Hv Hw].
      assert (Hd : well_formed (uint_of (uint_ord c)))
        by (apply uint_of_well_formed; unfold is_digit; lia).
      destruct (bitwise_or_spec _ _ (proj1 Hw) (proj1 Hd)) as [Hv' Hw'].
      specialize (IH (sz - 1) _ Hw').
      rewrite Hv', Hv, uint_of_value in IH by (unfold is_digit; lia).
      rewrite lor_high_low in IH by lia. rewrite <- Ebk in IH.
      cbn [map fold_left]. split.
      * intros H. inversion H; subst. apply (proj1 IH). assumption.
      * intros H. inversion H; subst; [lia|]. apply (proj2 IH). assumption.
Qed.

Lemma size_uint_of (d : Z) : (size (uint_of d) <= 1)%nat.
Proof. unfold uint_of, size. destruct (_ =? 0); cbn; lia. Qed.

Lemma strtouint_general_spec (b : Z) (s : list Z) :
  2 <= b <= 36 ->
  forall sz acc, well_formed acc ->
  (Forall (fun c => uint_ord c < b) s ->
   exists n, strtouint_general s sz b acc = Ok n /\ well_formed n /\
             value n = fold_left (fun a d => a * b + d) (map uint_ord s) (value acc)) /\
  (Exists (fun c => b <= uint_ord c) s ->
   strtouint_general s sz b acc = Throw runtime_error).
Proof.
  intros Hb. induction s as [|c s IH]; intros sz acc Hacc.
  - split; [intros _; exists acc; cbn; auto | intros H; inversion H].
  - cbn [strtouint_general]. cbv zeta. rewrite strtouint_digit by exact Hb.
    pose proof (uint_ord_range c) as Hc.
    destruct (Z.leb_spec b (uint_ord c)) as [Hge|Hlt].
    + split; [intros H; inversion H; lia | intros _; reflexivity].
    + assert (Hbw : well_formed (uint_of b))
        by (apply uint_of_well_formed; unfold is_digit; lia).
      assert (Hd : well_formed (uint_of (uint_ord c)))
        by (apply uint_of_well_formed; unfold is_digit; lia).
      destruct (mult_spec_small acc (uint_of b) Hacc Hbw) as (m & Em & Hm & Hmw).
      { right. pose proof (size_uint_of b). unfold karatsuba_cutoff. lia. }
      rewrite Em. cbn [bind].
      destruct (add_spec m _ Hmw Hd) as [Hv Hw].
      specialize (IH (sz - 1) _ Hw).
      rewrite Hv, Hm, !uint_of_value in IH by (unfold is_digit; lia).
      cbn [map fold_left]. split.
      * intros H. inversion H; subst. apply (proj1 IH). assumption.
      * intros H. inversion H; subst; [lia|]. apply (proj2 IH). assumption.
Qed.

Lemma strtouint_spec (b : Z) (s : list Z) :
  2 <= b <= 36 ->
  (Forall (fun c => uint_ord c < b) s ->
   exists n, strtouint s b = Ok n /\ well_formed n /\
             value n = be_value b (map uint_ord s)) /\
  (Exists (fun c => b <= uint_ord c) s -> strtouint s b = Throw runtime_error).
Proof.
  intros Hb. unfold strtouint.
  destruct (Z.leb_spec 2 b); [|lia]. destruct (Z.leb_spec b 36); [|lia]. cbn [andb].
  cbv zeta.
  destruct (base_tables_spec b ltac:(lia)) as (Hk & _ & _).
  destruct (Z.eq_dec (base_bits_of b) 0) as [E0|E0].
  - rewrite E0. cbn [uint_of to_bool].
    change (to_bool (uint_of 0)) with false. cbv iota.
    apply (strtouint_general_spec b s Hb _ [] well_formed_nil).
  - specialize (Hk E0). destruct Hk as [Hk Eb].
    rewrite (uint_of_nonzero (base_bits_of b)) by (unfold is_digit; lia).
    cbn [to_bool size length Nat.eqb negb].
    rewrite <- (uint_of_nonzero (base_bits_of b)) by (unfold is_digit; lia).
    apply (strtouint_pow2_spec b (base_bits_of b) s Hb Hk Eb _ [] well_formed_nil).
Qed.

(** [strtouint] in a base from 2 to 36 reads the digits 0-9 and the
    letters of either case, most significant first: when every character
    is a digit of the base it returns the canonical number with that
    positional value (the empty string gives 0), and when some character
    is not, it throws [std::runtime_error]. *)
Theorem strtouint_reads_positional (b : Z) (s : list Z) :
  2 <= b <= 36 -> Forall is_byte s ->
  (Forall (fun c => uint_ord c < b) s ->
   exists n, strtouint s b = Ok n /\ well_formed n /\
             value n = be_value b (map uint_ord s)) /\
  (Exists (fun c => b <= uint_ord c) s -> strtouint s b = Throw runtime_error).
Proof. intros Hb _. exact (strtouint_spec b s Hb). Qed.

Lemma strtouint_reads_positional_witness :
  (Forall (fun c => uint_ord c < 10) (chars "2026") ->
   exists n, strtouint (chars "2026") 10 = Ok n /\ well_formed n /\
             value n = be_value 10 (map uint_ord (chars "2026"))) /\
  (Exists (fun c => 10 <= uint_ord c) (chars "2026") ->
   strtouint (chars "2026") 10 = Throw runtime_error).
Proof.
  apply (strtouint_reads_positional 10 (chars "2026")); [lia|].
  cbn. repeat (constructor; [unfold is_byte; lia|]). constructor.
Defined.

(** ** [str] and back *)

Lemma str_window_encode (bx : BaseX) (fuel : nat) (v s : Z) :
  str_window fuel (base_bits bx) (base_mask bx) v s = encode_window fuel bx v s.
Proof.
  revert v s. induction fuel as [|fuel IH]; intros v s; [reflexivity|].
  cbn [str_window encode_window]. cbv zeta. rewrite IH. reflexivity.
Qed.

Lemma str_halves_encode (bx : BaseX) (i : nat) (ptr : list Z) (v s : Z) :
  str_halves i (base_bits bx) (base_mask bx) ptr v s = encode_halves i bx ptr v s.
Proof.
  revert ptr v s. induction i as [|i IH]; intros ptr v s; [reflexivity|].
  cbn [str_halves encode_halves]. cbv zeta. rewrite str_window_encode.
  destruct (encode_window 33 bx _ s) as [ds s']. rewrite IH. reflexivity.
Qed.

Lemma str_flush_encode (bx : BaseX) (fuel : nat) (v : Z) :
  str_flush fuel (base_bits bx) (base_mask bx) v = encode_flush fuel bx v.
Proof.
  revert v. induction fuel as [|fuel IH]; intros v; [reflexivity|].
  cbn [str_flush encode_flush]. rewrite IH. reflexivity.
Qed.

Lemma str_pow2_digits_encode (bx : BaseX) (num_sz : nat) (n : uint_t) :
  str_pow2_digits (base_bits bx) (base_mask bx) num_sz n = encode_pow2_digits bx num_sz n.
Proof.
  unfold str_pow2_digits, encode_pow2_digits. cbv zeta.
  rewrite str_halves_encode.
  destruct (encode_halves _ bx _ _ 0) as [[ds v] s].
  rewrite str_flush_encode. reflexivity.
Qed.

Lemma str_general_digits_encode (fuel : nat) (q b : uint_t) :
  str_general_digits fuel q b = encode_general_digits fuel q b.
Proof.
  revert q. induction fuel as [|fuel IH]; intros q; [reflexivity|].
  cbn [str_general_digits encode_general_digits].
  destruct (divmod q b) as [[q' r]|e]; [|reflexivity]. cbn [bind]. cbv zeta.
  rewrite IH. reflexivity.
Qed.

Lemma in_digits_36 (d : Z) : 0 <= d < 36 -> In d (map Z.of_nat (seq 0 36)).
Proof.
  intros Hd. apply in_map_iff. exists (Z.to_nat d). split; [lia|].
  apply in_seq. lia.
Qed.

(** The tables [chr] and [ord] of [uint_t] are inverse on the 36 digits. *)
Lemma uint_chr_spec (d : Z) :
  0 <= d < 36 -> uint_ord (uint_chr d) = d /\ is_byte (uint_chr d).
Proof.
  intros Hd.
  assert (H : forallb (fun d => (uint_ord (uint_chr d) =? d)
                                && (0 <=? uint_chr d) && (uint_chr d <? 256))
                (map Z.of_nat (seq 0 36)) = true) by (vm_compute; reflexivity).
  rewrite forallb_forall in H. specialize (H d (in_digits_36 d Hd)).
  unfold is_byte. lia.
Qed.

Lemma drop_char_map_uint_chr (ds : list Z) :
  digits_below 36 ds ->
  drop_char (uint_chr 0) (map uint_chr ds) = map uint_chr (drop_zeros ds).
Proof.
  induction 1 as [|d ds Hd Hds IH]; [reflexivity|].
  cbn [map drop_char drop_zeros].
  destruct (Z.eqb_spec d 0) as [->|Hd0].
  - rewrite Z.eqb_refl. exact IH.
  - destruct (Z.eqb_spec (uint_chr d) (uint_chr 0)) as [E|]; [|reflexivity].
    exfalso. apply Hd0.
    rewrite <- (proj1 (uint_chr_spec d Hd)), E. apply uint_chr_spec. lia.
Qed.

Lemma drop_zeros_hd0 (l : list Z) : drop_zeros l <> [] -> hd 0 (drop_zeros l) <> 0.
Proof.
  induction l as [|x l IH]; [intros H; contradiction|].
  cbn [drop_zeros]. destruct (Z.eqb_spec x 0); [exact IH | intros _; exact n].
Qed.

Lemma be_value_nil_zero (b : Z) : be_value b [] = 0.
Proof. reflexivity. Qed.

(** The digits [str] writes. *)
Lemma str_digits_spec (n : uint_t) (b : Z) :
  2 <= b <= 36 -> well_formed n ->
  exists es, str n b = Returns (Ok (map uint_chr es)) /\
             digits_below b es /\ es <> [] /\ be_value b es = value n /\
             (n <> [] -> hd 0 es <> 0).
Proof.
  intros Hb Hn. unfold str.
  destruct (Z.leb_spec 2 b); [|lia]. destruct (Z.leb_spec b 36); [|lia]. cbn [andb].
  cbv zeta.
  destruct n as [|d0 n'].
  { exists [0]. cbn [size length Nat.eqb negb map].
    split; [reflexivity|]. split; [repeat constructor; lia|].
    split; [discriminate|]. split; [reflexivity | intros Hx; contradiction]. }
  assert (Hne : d0 :: n' <> []) by discriminate.
  set (n := d0 :: n') in *.
  assert (Hsz : Nat.eqb (size n) 0 = false) by reflexivity.
  rewrite Hsz. cbn [negb].
  pose proof (value_lower n Hn Hne) as Hlow.
  assert (Hpos : 0 < value n).
  { eapply Z.lt_le_trans; [|exact Hlow]. apply pow2_pos. unfold n. cbn [length]. lia. }
  destruct (base_tables_spec b ltac:(lia)) as (Hk & _ & _).
  destruct (Z.eqb_spec (base_bits_of b) 0) as [E0|E0]; cbn [negb].
  - rewrite str_general_digits_encode.
    rewrite (uint_of_nonzero b) by (unfold is_digit; lia).
    pose proof (value_bound n (proj1 Hn)) as Hv.
    assert (Hlt : value n < 2 ^ Z.of_nat (S (64 * size n))).
    { eapply Z.lt_le_trans; [apply Hv|]. apply Z.pow_le_mono_r; unfold size; lia. }
    destruct (encode_general_digits_spec b ltac:(lia) (64 * size n) n Hn Hlt)
      as (ds & E & Hval & Hbel & Hhd & Hnil).
    rewrite E. cbn [bind]. exists (rev ds).
    split; [rewrite map_rev; reflexivity|].
    split; [apply digits_below_rev, Hbel|].
    split; [intros Hr; apply Hnil; rewrite <- (rev_involutive ds), Hr; reflexivity|].
    split; [rewrite be_value_rev; exact Hval | intros _; apply Hhd; lia].
  - destruct (Hk E0) as [Hk8 Eb].
    pose (bx := {| _chr := []; _ord := []; base := b; base_size := 0;
                   base_bits := base_bits_of b; block_size := 0;
                   base_mask := b - 1 |}).
    assert (Hkx : 0 < base_bits bx <= 8)
      by (change (base_bits bx) with (base_bits_of b); lia).
    assert (Hmask : base_mask bx = 2 ^ base_bits bx - 1)
      by (change (base_bits bx) with (base_bits_of b);
          change (base_mask bx) with (b - 1); lia).
    change (str_pow2_digits (base_bits_of b) (b - 1) (size n) n)
      with (str_pow2_digits (base_bits bx) (base_mask bx) (size n) n).
    rewrite str_pow2_digits_encode.
    pose proof (encode_pow2_digits_below bx (size n) n Hkx Hmask) as Hbel.
    destruct (encode_pow2_digits_spec bx Hkx Hmask n (proj1 Hn) Hne) as [Hval _].
    change (base_bits bx) with (base_bits_of b) in Hbel, Hval.
    rewrite <- Eb in Hbel, Hval.
    set (ds := encode_pow2_digits bx (size n) n) in *.
    assert (Hbel36 : digits_below 36 (rev ds)).
    { eapply digits_below_weaken; [|apply digits_below_rev, Hbel]. lia. }
    exists (drop_zeros (rev ds)).
    assert (Hbe : be_value b (drop_zeros (rev ds)) = value n)
      by (rewrite be_value_drop_zeros, be_value_rev; exact Hval).
    assert (Hnil : drop_zeros (rev ds) <> []).
    { intros Hr. rewrite Hr, be_value_nil_zero in Hbe. lia. }
    split.
    + rewrite rev_involutive, <- map_rev, drop_char_map_uint_chr by exact Hbel36.
      reflexivity.
    + split; [apply digits_below_drop_zeros, digits_below_rev, Hbel|].
      split; [exact Hnil|]. split; [exact Hbe|].
      intros _. apply drop_zeros_hd0, Hnil.
Qed.

Lemma str_round_trip_spec (n : uint_t) (b : Z) :
  2 <= b <= 36 -> well_formed n ->
  exists s, str n b = Returns (Ok s) /\ s <> [] /\
            Forall (fun c => is_byte c /\ uint_ord c < b) s /\
            be_value b (map uint_ord s) = value n /\
            (n <> [] -> hd 0 s <> uint_chr 0) /\
            strtouint s b = Ok n.
Proof.
  intros Hb Hn.
  destruct (str_digits_spec n b Hb Hn) as (es & E & Hbel & Hnil & Hval & Hhd).
  assert (Hmap : map uint_ord (map uint_chr es) = es /\
                 Forall (fun c => is_byte c /\ uint_ord c < b) (map uint_chr es)).
  { clear - Hbel Hb. induction Hbel as [|d es Hd Hes [IH1 IH2]]; [split; constructor|].
    destruct (uint_chr_spec d ltac:(lia)) as [Ho Hby].
    cbn [map]. rewrite Ho, IH1. split; [reflexivity|].
    constructor; [split; [exact Hby | lia] | exact IH2]. }
  destruct Hmap as [Hmap Hall].
  exists (map uint_chr es). split; [exact E|].
  split; [destruct es; [contradiction | discriminate]|].
  split; [exact Hall|]. split; [rewrite Hmap; exact Hval|].
  split.
  - intros Hne. specialize (Hhd Hne).
    destruct es as [|d es]; [contradiction|]. cbn [map hd] in *.
    inversion Hbel; subst.
    intros Ec. apply Hhd.
    rewrite <- (proj1 (uint_chr_spec d ltac:(lia))), Ec. apply uint_chr_spec. lia.
  - destruct (strtouint_spec b (map uint_chr es) Hb) as [Hok _].
    destruct Hok as (n' & E' & Hw' & Hv').
    { eapply Forall_impl; [|exact Hall]. cbn. intros c [_ Hc]. exact Hc. }
    rewrite E'. f_equal. apply value_inj; [assumption | assumption|].
    rewrite Hv', Hmap. exact Hval.
Qed.

(** [str] in a base from 2 to 36 writes a canonical number as a
    non-empty string of digits of that base, most significant first and
    without a leading '0' unless the number is 0; the string has the
    number's value, and [strtouint] reads it back to the same number. *)
Theorem str_strtouint_round_trip (n : uint_t) (b : Z) :
  2 <= b <= 36 -> well_formed n ->
  exists s, str n b = Returns (Ok s) /\ s <> [] /\
            Forall (fun c => is_byte c /\ uint_ord c < b) s /\
            be_value b (map uint_ord s) = value n /\
            (n <> [] -> hd 0 s <> uint_chr 0) /\
            strtouint s b = Ok n.
Proof. exact (str_round_trip_spec n b). Qed.

Lemma str_strtouint_round_trip_witness :
  exists s, str [2026; 11] 10 = Returns (Ok s) /\ s <> [] /\
            Forall (fun c => is_byte c /\ uint_ord c < 10) s /\
            be_value 10 (map uint_ord s) = value [2026; 11] /\
            ([2026; 11] <> [] -> hd 0 s <> uint_chr 0) /\
            strtouint s 10 = Ok [2026; 11].
Proof.
  apply (str_strtouint_round_trip [2026; 11] 10); [lia|].
  split; [digits_tac | unfold canonical; cbn; lia].
Defined.

(** ** Increment and decrement *)

Lemma sub_assign_sub (a b : uint_t) : sub_assign a b = sub a b.
Proof. reflexivity. Qed.

Lemma operator_inc_add (n : uint_t) : operator_inc n = add n uint_1.
Proof. reflexivity. Qed.

Lemma inc_dec_spec (n : uint_t) :
  well_formed n ->
  (value (operator_inc n) = value n + 1 /\ well_formed (operator_inc n)) /\
  (n <> [] -> value (operator_dec n) = value n - 1 /\ well_formed (operator_dec n)) /\
  operator_dec (operator_inc n) = n /\
  (n = [] -> operator_dec n = [2 ^ 64 - 1]).
Proof.
  intros Hn.
  assert (H1 : well_formed uint_1) by (apply uint_of_well_formed; unfold is_digit; lia).
  assert (V1 : value uint_1 = 1) by reflexivity.
  destruct (add_spec n uint_1 Hn H1) as [Hv Hw]. rewrite V1 in Hv.
  rewrite <- operator_inc_add in Hv, Hw.
  assert (Hdec : forall m, well_formed m -> 1 <= value m ->
                   value (operator_dec m) = value m - 1 /\ well_formed (operator_dec m)).
  { intros m Hm Hge. unfold operator_dec. rewrite sub_assign_sub.
    destruct (sub_spec m uint_1 Hm H1) as (Hsw & Hs & _).
    rewrite V1 in Hs. split; [apply Hs; lia | exact Hsw]. }
  split; [split; assumption|]. split; [|split].
  - intros Hne. apply Hdec; [exact Hn|].
    pose proof (value_lower n Hn Hne) as Hlow.
    pose proof (pow2_pos (64 * (Z.of_nat (length n) - 1))) as Hp.
    destruct n; [contradiction|]. cbn [length] in *. lia.
  - pose proof (value_bound n (proj1 Hn)) as Hb.
    destruct (Hdec (operator_inc n) Hw ltac:(lia)) as [Hd Hdw].
    apply value_inj; [exact Hdw | exact Hn|].
    rewrite Hd. lia.
  - intros ->. reflexivity.
Qed.

(** [++n] adds one, growing the number by a digit when all its digits are
    full; [--n] takes one from a number that is not 0, and undoes [++n];
    on 0 it does not fail but wraps around to the one digit [2^64 - 1]. *)
Theorem increment_and_decrement (n : uint_t) :
  well_formed n ->
  (value (operator_inc n) = value n + 1 /\ well_formed (operator_inc n)) /\
  (n <> [] -> value (operator_dec n) = value n - 1 /\ well_formed (operator_dec n)) /\
  operator_dec (operator_inc n) = n /\
  (n = [] -> operator_dec n = [2 ^ 64 - 1]).
Proof. exact (inc_dec_spec n). Qed.

Lemma increment_and_decrement_witness :
  (value (operator_inc [2 ^ 64 - 1]) = value [2 ^ 64 - 1] + 1 /\
   well_formed (operator_inc [2 ^ 64 - 1])) /\
  ([2 ^ 64 - 1] <> [] ->
   value (operator_dec [2 ^ 64 - 1]) = value [2 ^ 64 - 1] - 1 /\
   well_formed (operator_dec [2 ^ 64 - 1])) /\
  operator_dec (operator_inc [2 ^ 64 - 1]) = [2 ^ 64 - 1] /\
  ([2 ^ 64 - 1] = [] -> operator_dec [2 ^ 64 - 1] = [2 ^ 64 - 1]).
Proof.
  apply (increment_and_decrement [2 ^ 64 - 1]).
  split; [digits_tac | unfold canonical; cbn; lia].
Defined.

(** ** The raw bytes of a number and back *)

Lemma le_bytes_spec (k : nat) :
  forall d, 0 <= d < 256 ^ Z.of_nat k ->
  le_digits_value 256 (le_bytes k d) = d /\ digits_below 256 (le_bytes k d) /\
  length (le_bytes k d) = k.
Proof.
  induction k as [|k IH]; intros d Hd.
  - cbn in *. split; [lia | split; [constructor | reflexivity]].
  - rewrite Nat2Z.inj_succ, Z.pow_succ_r in Hd by lia.
    cbn [le_bytes le_digits_value length].
    destruct (IH (d / 256)) as (Hv & Hb & Hl).
    { split; [apply Z.div_pos; lia | apply Z.div_lt_upper_bound; lia]. }
    rewrite Hv, Hl. pose proof (Z.div_mod d 256 ltac:(lia)).
    pose proof (Z.mod_pos_bound d 256 ltac:(lia)).
    split; [lia | split; [constructor; [lia | exact Hb] | reflexivity]].
Qed.

Lemma bytes_of_digits_spec (n : uint_t) :
  digits_ok n ->
  le_digits_value 256 (bytes_of_digits n) = value n /\
  digits_below 256 (bytes_of_digits n).
Proof.
  unfold digits_ok, is_digit. induction 1 as [|x n Hx Hn [IHv IHb]].
  - split; [reflexivity | constructor].
  - unfold bytes_of_digits. cbn [flat_map]. fold (bytes_of_digits n).
    destruct (le_bytes_spec 8 x ltac:(change (256 ^ Z.of_nat 8) with (2 ^ 64); lia))
      as (Hv & Hb & Hl).
    rewrite le_digits_app, Hv, Hl, IHv. cbn [value].
    change (256 ^ Z.of_nat 8) with (2 ^ 64).
    split; [reflexivity | apply Forall_app; split; assumption].
Qed.

Lemma str_256_spec (n : uint_t) :
  well_formed n -> n <> [] ->
  be_value 256 (str_256 n) = value n /\ Forall is_byte (str_256 n) /\
  str_256 n <> [] /\ hd 0 (str_256 n) <> 0.
Proof.
  intros Hn Hne. unfold str_256.
  assert (Hsz : Nat.eqb (size n) 0 = false) by (destruct n; [contradiction | reflexivity]).
  rewrite Hsz. cbn [negb]. rewrite rev_involutive.
  destruct (bytes_of_digits_spec n (proj1 Hn)) as [Hv Hb].
  pose proof (value_lower n Hn Hne) as Hlow.
  assert (Hpos : 0 < value n).
  { eapply Z.lt_le_trans; [|exact Hlow]. apply pow2_pos.
    destruct n; [contradiction | cbn [length]; lia]. }
  assert (Hbe : be_value 256 (drop_zeros (rev (bytes_of_digits n))) = value n)
    by (rewrite be_value_drop_zeros, be_value_rev; exact Hv).
  assert (Hnil : drop_zeros (rev (bytes_of_digits n)) <> []).
  { intros Hr. rewrite Hr, be_value_nil_zero in Hbe. lia. }
  split; [exact Hbe|]. split; [|split; [exact Hnil | apply drop_zeros_hd0, Hnil]].
  apply (digits_below_drop_zeros 256), digits_below_rev, Hb.
Qed.

Lemma raw_round_trip_spec (n : uint_t) :
  well_formed n -> n <> [] ->
  exists s, str n 256 = Returns (Ok s) /\ Forall is_byte s /\ hd 0 s <> 0 /\
            be_value 256 s = value n /\ strtouint s 256 = Ok n.
Proof.
  intros Hn Hne. exists (str_256 n).
  destruct (str_256_spec n Hn Hne) as (Hv & Hb & Hnil & Hhd).
  split; [reflexivity|]. split; [exact Hb|]. split; [exact Hhd|]. split; [exact Hv|].
  destruct (strtouint_256_spec (str_256 n) Hnil Hb Hhd) as (n' & E & Hw' & Hne' & Hs').
  rewrite E. f_equal. apply value_inj; [exact Hw' | exact Hn|].
  destruct (str_256_spec n' Hw' Hne') as (Hv' & _). rewrite <- Hv', Hs'. exact Hv.
Qed.

(** [str(256)] writes a canonical number other than 0 as its bytes, most
    significant first and without a leading zero byte, and [strtouint] in
    base 256 reads them back to the same number. *)
Theorem raw_bytes_round_trip (n : uint_t) :
  well_formed n -> n <> [] ->
  exists s, str n 256 = Returns (Ok s) /\ Forall is_byte s /\ hd 0 s <> 0 /\
            be_value 256 s = value n /\ strtouint s 256 = Ok n.
Proof. exact (raw_round_trip_spec n). Qed.

Lemma raw_bytes_round_trip_witness :
  exists s, str [258; 1] 256 = Returns (Ok s) /\ Forall is_byte s /\ hd 0 s <> 0 /\
            be_value 256 s = value [258; 1] /\ strtouint s 256 = Ok [258; 1].
Proof.
  apply (raw_bytes_round_trip [258; 1]); [|discriminate].
  split; [digits_tac | unfold canonical; cbn; lia].
Defined.
